(** * Delta LTSC SDK: a shallow embedding of the TypeScript facade

    The development follows the layout of [packages/sdk/src]:
    - [Types]: tokens, token arrays and the JavaScript array primitives the
      SDK relies on ([indexOf], [includes], [slice], [subarray]);
    - [Config]: the configuration objects and their defaults;
    - [Wasm]: the interface of the WebAssembly core ([wasm/loader.ts]);
    - [Decompress]: [decompress], [extractDictionary], [extractBody],
      [isCompressed];
    - [Compress]: [compress], [convertWasmResult], [buildDictionaryMap],
      [discoverPatterns];
    - [Streaming]: [StreamingCompressorImpl] and [processInChunks];
    - [Loader]: the loading of the WebAssembly module ([wasm/loader.ts]);
    - [Worker]: the worker pools ([worker.ts]);
    - [Core]: the compression engine behind the WebAssembly interface.

    A JavaScript number that holds a token is an [N]; array positions are
    [nat]; a [Map<number, readonly number[]>] is a [gmap N (list N)]. *)

From Stdlib Require Import NArith ZArith Lia String Floats Uint63.
From Equations Require Import Equations.
From stdpp Require Import gmap list strings.

(** ** Tokens and arrays *)

Module Types.

(** A [Uint32Array]: every element is below [2^32]. *)
Abbreviation Uint32Array := (list N).

(** [TokenInput = readonly number[] | number[] | Uint32Array], restricted
    to arrays of non-negative integers. *)
Abbreviation TokenInput := (list N).

Definition UINT32_MODULUS : N := 2 ^ 32.

Definition is_token (t : N) : Prop := (t < UINT32_MODULUS)%N.

#[global] Instance is_token_dec (t : N) : Decision (is_token t).
Proof. unfold is_token. apply _. Defined.

(** A token sequence: an array all of whose elements are 32-bit tokens. *)
Definition TokenSeq (tokens : list N) : Prop := Forall is_token tokens.

#[global] Instance TokenSeq_dec (tokens : list N) : Decision (TokenSeq tokens).
Proof. unfold TokenSeq. apply _. Defined.

(** Modelled from the spec: [normalizeTokens] of [types.ts], which is not
    among the sources.  The spec fixes a token as an unsigned 32-bit
    integer and [tests/types.test.ts] requires the result to be a
    [Uint32Array] with the contents of the input; storing a number in a
    [Uint32Array] reduces it modulo [2^32]. *)
Definition normalizeTokens (tokens : TokenInput) : Uint32Array :=
  (λ t, t mod UINT32_MODULUS)%N <$> tokens.

(** [a.indexOf(x)]: the first position holding [x]; [None] stands for -1. *)
Fixpoint indexOf (a : list N) (x : N) : option nat :=
  match a with
  | [] => None
  | t :: rest => if decide (t = x) then Some 0 else S <$> indexOf rest x
  end.

(** [a.includes(x)]. *)
Definition includes (a : list N) (x : N) : bool := bool_decide (x ∈ a).

(** [a.slice(s, e)] for [0 <= s]: the elements at positions [s .. e-1],
    with [e] clamped to the length and an empty result when [e <= s]. *)
Definition slice (a : list N) (s e : nat) : list N := take (e - s) (drop s a).

(** [a.slice(s)]. *)
Definition slice_from (a : list N) (s : nat) : list N := drop s a.

(** [a.subarray(s, e)] read as a value. *)
Definition subarray (a : list N) (s e : nat) : list N := take (e - s) (drop s a).

(** The outcome of a call that may throw. *)
Inductive js_result (A : Type) : Type :=
| Returned (a : A)
| Thrown (message : string).
Arguments Returned {A} a.
Arguments Thrown {A} message.

Definition is_thrown {A} (r : js_result A) : bool :=
  match r with Thrown _ => true | Returned _ => false end.

End Types.
Export Types.

(** ** Configuration ([config.ts], as documented in the API reference) *)

Module Config.

Inductive SelectionMode := greedy | optimal | beam.

(** [StaticDictionary]; the fields carry the prefix [sd_]. *)
Record StaticDictionary := {
  sd_id : string;
  sd_version : string;
  sd_name : string;
  sd_description : string;
  sd_entries : gmap N (list N);
}.

(** The option fields of [CompressionConfig].  With [F := option] this
    is the caller's [CompressionConfig]; with [F := id] it is
    [Required<Omit<CompressionConfig, 'staticDictionary'>>] extended by
    the still optional [staticDictionary]. *)
Record ConfigFields (F : Type → Type) := {
  minSubsequenceLength : F N;
  maxSubsequenceLength : F N;
  selectionMode : F SelectionMode;
  beamWidth : F N;
  hierarchicalEnabled : F bool;
  hierarchicalMaxDepth : F N;
  staticDictionary : option (string + StaticDictionary);
  streamingThreshold : F N;
  maxMemoryMb : F N;
  verify : F bool;
  dictStartToken : F N;
  dictEndToken : F N;
  nextMetaToken : F N;
}.
Arguments minSubsequenceLength {F} _.
Arguments maxSubsequenceLength {F} _.
Arguments selectionMode {F} _.
Arguments beamWidth {F} _.
Arguments hierarchicalEnabled {F} _.
Arguments hierarchicalMaxDepth {F} _.
Arguments staticDictionary {F} _.
Arguments streamingThreshold {F} _.
Arguments maxMemoryMb {F} _.
Arguments verify {F} _.
Arguments dictStartToken {F} _.
Arguments dictEndToken {F} _.
Arguments nextMetaToken {F} _.

Definition CompressionConfig := ConfigFields option.
Definition RequiredConfig := ConfigFields (λ A, A).

(** Modelled from the spec: the constant [DEFAULT_CONFIG] of [config.ts],
    which is not among the sources; the values are those of its
    declaration as quoted in the API reference and of the configuration
    table of the spec. *)
Definition DEFAULT_CONFIG : RequiredConfig := {|
  minSubsequenceLength := 2%N;
  maxSubsequenceLength := 8%N;
  selectionMode := greedy;
  beamWidth := 8%N;
  hierarchicalEnabled := true;
  hierarchicalMaxDepth := 3%N;
  staticDictionary := None;
  streamingThreshold := 50000%N;
  maxMemoryMb := 256%N;
  verify := false;
  dictStartToken := 0xFFFFFFF0%N;
  dictEndToken := 0xFFFFFFF1%N;
  nextMetaToken := 0xFFFF0000%N;
|}.

(** [x ?? d] *)
Definition nullish {A} (x : option A) (d : A) : A := default d x.

(** Modelled from the spec: [mergeConfig] of [config.ts], which is not
    among the sources.  [tests/config.test.ts] fixes its behaviour: without
    a configuration it returns the defaults, and every option the caller
    gives overrides the default of that option. *)
Definition mergeConfig (config : option CompressionConfig) : RequiredConfig :=
  match config with
  | None => DEFAULT_CONFIG
  | Some c => {|
      minSubsequenceLength := nullish (minSubsequenceLength c) (minSubsequenceLength DEFAULT_CONFIG);
      maxSubsequenceLength := nullish (maxSubsequenceLength c) (maxSubsequenceLength DEFAULT_CONFIG);
      selectionMode := nullish (selectionMode c) (selectionMode DEFAULT_CONFIG);
      beamWidth := nullish (beamWidth c) (beamWidth DEFAULT_CONFIG);
      hierarchicalEnabled := nullish (hierarchicalEnabled c) (hierarchicalEnabled DEFAULT_CONFIG);
      hierarchicalMaxDepth := nullish (hierarchicalMaxDepth c) (hierarchicalMaxDepth DEFAULT_CONFIG);
      staticDictionary := staticDictionary c;
      streamingThreshold := nullish (streamingThreshold c) (streamingThreshold DEFAULT_CONFIG);
      maxMemoryMb := nullish (maxMemoryMb c) (maxMemoryMb DEFAULT_CONFIG);
      verify := nullish (verify c) (verify DEFAULT_CONFIG);
      dictStartToken := nullish (dictStartToken c) (dictStartToken DEFAULT_CONFIG);
      dictEndToken := nullish (dictEndToken c) (dictEndToken DEFAULT_CONFIG);
      nextMetaToken := nullish (nextMetaToken c) (nextMetaToken DEFAULT_CONFIG);
    |}
  end.

(** [DecompressionConfig]: the two options the decompression side reads. *)
Record DecompressionConfig := {
  dec_dictStartToken : option N;
  dec_dictEndToken : option N;
}.

(** [config?.dictStartToken ?? DEFAULT_CONFIG.dictStartToken] *)
Definition dictStart_of (config : option DecompressionConfig) : N :=
  nullish (config ≫= dec_dictStartToken) (dictStartToken DEFAULT_CONFIG).

(** [config?.dictEndToken ?? DEFAULT_CONFIG.dictEndToken] *)
Definition dictEnd_of (config : option DecompressionConfig) : N :=
  nullish (config ≫= dec_dictEndToken) (dictEndToken DEFAULT_CONFIG).

(** A [CompressionConfig] object passed where a [DecompressionConfig] is
    expected, as in [decompress(result.serializedTokens, config)]: the
    decompression side reads the two control tokens of the object and
    none of its other options. *)
Definition as_decompression (config : CompressionConfig) : DecompressionConfig := {|
  dec_dictStartToken := dictStartToken config;
  dec_dictEndToken := dictEndToken config;
|}.

End Config.
Export Config.

(** ** The WebAssembly interface ([wasm/loader.ts]) *)

Module Wasm.

(** The configuration object handed across the boundary (typed [unknown]
    in [WasmExports]): snake-case options, each of which may be missing. *)
Record WasmConfig := {
  min_subsequence_length : option N;
  max_subsequence_length : option N;
  selection_mode : option SelectionMode;
  beam_width : option N;
  hierarchical_enabled : option bool;
  hierarchical_max_depth : option N;
  verify : option bool;
  dict_start_token : option N;
  dict_end_token : option N;
  next_meta_token : option N;
}.

(** [CompressionResultWasm] *)
Record CompressionResultWasm := {
  compression_ratio : float;
  tokens_saved : N;
  original_length : N;
  compressed_length : N;
  getSerializedTokens : Uint32Array;
  getDictionaryTokens : Uint32Array;
  getBodyTokens : Uint32Array;
  getOriginalTokens : Uint32Array;
  getStaticDictionaryId : option string;
}.

(** [DiscoveredPattern] of [types.ts]; the fields carry the prefix [dp_]. *)
Record DiscoveredPattern := {
  dp_pattern : list N;
  dp_length : N;
  dp_positions : list N;
  dp_count : N;
}.

(** [WasmExports] together with [StreamingCompressorWasm]: [SC] is the
    state of a streaming compressor object living in the core, and the
    three methods of the object take and return that state. *)
Record WasmExports (SC : Type) := {
  compress : Uint32Array → WasmConfig → js_result CompressionResultWasm;
  decompress : Uint32Array → WasmConfig → js_result Uint32Array;
  discover_patterns : Uint32Array → N → N → js_result (list DiscoveredPattern);
  version : string;
  StreamingCompressor : WasmConfig → js_result SC;
  add_chunk : SC → Uint32Array → SC * js_result unit;
  finish : SC → SC * js_result CompressionResultWasm;
  memory_usage : SC → N;
}.
Arguments compress {SC} _.
Arguments decompress {SC} _.
Arguments discover_patterns {SC} _.
Arguments version {SC} _.
Arguments StreamingCompressor {SC} _.
Arguments add_chunk {SC} _.
Arguments finish {SC} _.
Arguments memory_usage {SC} _.

Definition empty_config : WasmConfig := {|
  min_subsequence_length := None;
  max_subsequence_length := None;
  selection_mode := None;
  beam_width := None;
  hierarchical_enabled := None;
  hierarchical_max_depth := None;
  verify := None;
  dict_start_token := None;
  dict_end_token := None;
  next_meta_token := None;
|}.

(** Modelled from the spec: [toWasmConfig] of [config.ts], which is not
    among the sources.  [tests/config.test.ts] fixes it as the renaming
    of the options to snake case, a missing option staying missing. *)
Definition toWasmConfig (config : CompressionConfig) : WasmConfig := {|
  min_subsequence_length := minSubsequenceLength config;
  max_subsequence_length := maxSubsequenceLength config;
  selection_mode := selectionMode config;
  beam_width := beamWidth config;
  hierarchical_enabled := hierarchicalEnabled config;
  hierarchical_max_depth := hierarchicalMaxDepth config;
  verify := Config.verify config;
  dict_start_token := dictStartToken config;
  dict_end_token := dictEndToken config;
  next_meta_token := nextMetaToken config;
|}.

(** A merged configuration passed where a [CompressionConfig] is expected. *)
Definition as_partial (config : RequiredConfig) : CompressionConfig := {|
  minSubsequenceLength := Some (minSubsequenceLength config);
  maxSubsequenceLength := Some (maxSubsequenceLength config);
  selectionMode := Some (selectionMode config);
  beamWidth := Some (beamWidth config);
  hierarchicalEnabled := Some (hierarchicalEnabled config);
  hierarchicalMaxDepth := Some (hierarchicalMaxDepth config);
  staticDictionary := staticDictionary config;
  streamingThreshold := Some (streamingThreshold config);
  maxMemoryMb := Some (maxMemoryMb config);
  Config.verify := Some (Config.verify config);
  dictStartToken := Some (dictStartToken config);
  dictEndToken := Some (dictEndToken config);
  nextMetaToken := Some (nextMetaToken config);
|}.

End Wasm.

(** ** Decompression API ([decompress.ts]) *)

Module Decompress.

(** [decompress]: the tokens are normalized and handed to the core with
    the two control tokens. *)
Definition decompress {SC} (wasm : Wasm.WasmExports SC)
    (tokens : TokenInput) (config : option DecompressionConfig)
    : js_result (list N) :=
  let inputTokens := normalizeTokens tokens in
  let wasmConfig := {|
    Wasm.min_subsequence_length := None;
    Wasm.max_subsequence_length := None;
    Wasm.selection_mode := None;
    Wasm.beam_width := None;
    Wasm.hierarchical_enabled := None;
    Wasm.hierarchical_max_depth := None;
    Wasm.verify := None;
    Wasm.dict_start_token := Some (dictStart_of config);
    Wasm.dict_end_token := Some (dictEnd_of config);
    Wasm.next_meta_token := None;
  |} in
  match Wasm.decompress wasm inputTokens wasmConfig with
  | Returned result => Returned result
  | Thrown e => Thrown e
  end.

(** The [while] loop of [extractDictionary], entered at position [pos]
    with the map built so far.  Reading past the end of the array gives
    [undefined]: when the length field is missing, [pos + length] is
    [NaN], the guard [pos + length > inputTokens.length] is false,
    [slice(pos, NaN)] is empty, the entry is stored with an empty
    definition, [pos] becomes [NaN] and the loop ends.  The two [pos++]
    of the body are the offsets [pos + 1] and [pos + 2] here. *)
Equations? extractDictionary_loop (inputTokens : Uint32Array) (dictEnd : N)
    (pos : nat) (map : gmap N (list N)) : gmap N (list N)
    by wf (length inputTokens - pos) lt :=
  extractDictionary_loop inputTokens dictEnd pos map with inputTokens !! pos => {
    | None := map
    | Some metaToken with decide (metaToken = dictEnd) => {
      | left _ := map
      | right _ with inputTokens !! (pos + 1) => {
        | None := <[metaToken := []]> map
        | Some len with decide (length inputTokens < pos + 2 + N.to_nat len) => {
          | left _ := map
          | right _ :=
              extractDictionary_loop inputTokens dictEnd (pos + 2 + N.to_nat len)
                (<[metaToken := slice inputTokens (pos + 2) (pos + 2 + N.to_nat len)]> map)
          } } } }.
Proof. lia. Qed.

(** [extractDictionary] *)
Definition extractDictionary (tokens : TokenInput)
    (config : option DecompressionConfig) : gmap N (list N) :=
  let inputTokens := normalizeTokens tokens in
  let dictStart := dictStart_of config in
  let dictEnd := dictEnd_of config in
  match indexOf inputTokens dictStart with
  | None => ∅
  | Some startIdx => extractDictionary_loop inputTokens dictEnd (startIdx + 1) ∅
  end.

(** [extractBody] *)
Definition extractBody (tokens : TokenInput)
    (config : option DecompressionConfig) : list N :=
  let inputTokens := normalizeTokens tokens in
  let dictEnd := dictEnd_of config in
  match indexOf inputTokens dictEnd with
  | None => inputTokens
  | Some endIdx => slice_from inputTokens (endIdx + 1)
  end.

(** [isCompressed] *)
Definition isCompressed (tokens : TokenInput)
    (config : option DecompressionConfig) : bool :=
  let inputTokens := normalizeTokens tokens in
  let dictStart := dictStart_of config in
  includes inputTokens dictStart.

End Decompress.

(** ** Compression API ([compress.ts]) *)

Module Compress.

(** [CompressionMetrics] *)
Record CompressionMetrics := {
  discoveryTimeMs : float;
  selectionTimeMs : float;
  serializationTimeMs : float;
  totalTimeMs : float;
  peakMemoryBytes : N;
}.

(** [CompressionResult] *)
Record CompressionResult := {
  originalTokens : list N;
  serializedTokens : list N;
  dictionaryTokens : list N;
  bodyTokens : list N;
  originalLength : N;
  compressedLength : N;
  compressionRatio : float;
  dictionaryMap : gmap N (list N);
  staticDictionaryId : option string;
  metrics : CompressionMetrics;
}.

(** The first [while] loop of [buildDictionaryMap]:
    [while (pos < dictionaryTokens.length && dictionaryTokens[pos] !== dictStart) pos++]. *)
Equations? buildDictionaryMap_find (dictionaryTokens : list N) (dictStart : N)
    (pos : nat) : nat by wf (length dictionaryTokens - pos) lt :=
  buildDictionaryMap_find dictionaryTokens dictStart pos with
    decide (pos < length dictionaryTokens) => {
    | right _ := pos
    | left _ with decide (dictionaryTokens !! pos = Some dictStart) => {
      | left _ := pos
      | right _ := buildDictionaryMap_find dictionaryTokens dictStart (pos + 1)
      } }.
Proof. lia. Qed.

(** The second [while] loop of [buildDictionaryMap]; a missing length
    field is [undefined] and ends the loop after an entry with an empty
    definition is stored (see [Decompress.extractDictionary_loop]). *)
Equations? buildDictionaryMap_loop (dictionaryTokens : list N) (dictEnd : N)
    (pos : nat) (map : gmap N (list N)) : gmap N (list N)
    by wf (length dictionaryTokens - pos) lt :=
  buildDictionaryMap_loop dictionaryTokens dictEnd pos map with
    decide (pos < length dictionaryTokens) => {
    | right _ := map
    | left _ with dictionaryTokens !! pos => {
      | None := map
      | Some metaToken with decide (metaToken = dictEnd) => {
        | left _ := map
        | right _ with dictionaryTokens !! (pos + 1) => {
          | None := <[metaToken := []]> map
          | Some len with decide (length dictionaryTokens < pos + 2 + N.to_nat len) => {
            | left _ := map
            | right _ :=
                buildDictionaryMap_loop dictionaryTokens dictEnd (pos + 2 + N.to_nat len)
                  (<[metaToken := slice dictionaryTokens (pos + 2) (pos + 2 + N.to_nat len)]> map)
            } } } } }.
Proof. lia. Qed.

(** [buildDictionaryMap] *)
Definition buildDictionaryMap (dictionaryTokens : list N) : gmap N (list N) :=
  if decide (length dictionaryTokens = 0) then ∅
  else
    let dictStart := dictStartToken DEFAULT_CONFIG in
    let dictEnd := dictEndToken DEFAULT_CONFIG in
    let pos := buildDictionaryMap_find dictionaryTokens dictStart 0 in
    buildDictionaryMap_loop dictionaryTokens dictEnd (pos + 1) ∅.

(** [a ?? b] on two optional values *)
Definition nullish_or {A} (a b : option A) : option A :=
  match a with Some x => Some x | None => b end.

(** [convertWasmResult] *)
Definition convertWasmResult (wasmResult : Wasm.CompressionResultWasm)
    (staticDictId : option string) (totalTimeMs : float) : CompressionResult :=
  let serializedTokens := Wasm.getSerializedTokens wasmResult in
  let dictionaryTokens := Wasm.getDictionaryTokens wasmResult in
  let bodyTokens := Wasm.getBodyTokens wasmResult in
  let originalTokens := Wasm.getOriginalTokens wasmResult in
  let dictionaryMap := buildDictionaryMap dictionaryTokens in
  {| originalTokens := originalTokens;
     serializedTokens := serializedTokens;
     dictionaryTokens := dictionaryTokens;
     bodyTokens := bodyTokens;
     originalLength := Wasm.original_length wasmResult;
     compressedLength := Wasm.compressed_length wasmResult;
     compressionRatio := Wasm.compression_ratio wasmResult;
     dictionaryMap := dictionaryMap;
     staticDictionaryId :=
       nullish_or staticDictId (Wasm.getStaticDictionaryId wasmResult);
     metrics := {| discoveryTimeMs := 0; selectionTimeMs := 0;
                   serializationTimeMs := 0; totalTimeMs := totalTimeMs;
                   peakMemoryBytes := 0 |} |}.

Definition chunkSize : N := 32768.

Section WithWasm.

Context {SC : Type} (wasm : Wasm.WasmExports SC).

(** [loadStaticDictionary] of [dictionaries/index.ts], which is not among
    the sources: it is a parameter of [compress]. *)
Variable loadStaticDictionary : string → js_result StaticDictionary.

(** The two readings of [performance.now()] around the call into the core. *)
Variables (startTime endTime : float).

(** The [for] loop of [compressStreaming]. *)
Equations? compressStreaming_loop (tokens : Uint32Array) (i : nat)
    (compressor : SC) : SC * js_result unit
    by wf (length tokens - i) lt :=
  compressStreaming_loop tokens i compressor with decide (i < length tokens) => {
    | right _ := (compressor, Returned ())
    | left _ with Wasm.add_chunk wasm compressor
                    (subarray tokens i (Nat.min (i + N.to_nat chunkSize) (length tokens))) => {
      | (compressor', Thrown e) := (compressor', Thrown e)
      | (compressor', Returned _) :=
          compressStreaming_loop tokens (i + N.to_nat chunkSize) compressor'
      } }.
Proof. unfold chunkSize. lia. Qed.

(** [compressStreaming] *)
Definition compressStreaming (tokens : Uint32Array) (config : RequiredConfig)
    (staticDictId : option string) : js_result CompressionResult :=
  let wasmConfig := Wasm.toWasmConfig (Wasm.as_partial config) in
  match Wasm.StreamingCompressor wasm wasmConfig with
  | Thrown e => Thrown e
  | Returned compressor =>
      match compressStreaming_loop tokens 0 compressor with
      | (_, Thrown e) => Thrown e
      | (compressor, Returned _) =>
          match Wasm.finish wasm compressor with
          | (_, Thrown e) => Thrown e
          | (_, Returned wasmResult) =>
              Returned (convertWasmResult wasmResult staticDictId
                          (endTime - startTime)%float)
          end
      end
  end.

(** The static-dictionary preamble of [compress]: an empty string is
    falsy and counts as no dictionary; a named dictionary is loaded
    only to check that it exists. *)
Definition resolveStaticDictId (mergedConfig : RequiredConfig)
    : js_result (option string) :=
  match staticDictionary mergedConfig with
  | None => Returned None
  | Some (inl s) =>
      if decide (s = EmptyString) then Returned None
      else match loadStaticDictionary s with
           | Thrown e => Thrown e
           | Returned _ => Returned (Some s)
           end
  | Some (inr d) => Returned (Some (sd_id d))
  end.

(** [compress] *)
Definition compress (tokens : TokenInput) (config : option CompressionConfig)
    : js_result CompressionResult :=
  let mergedConfig := mergeConfig config in
  let inputTokens := normalizeTokens tokens in
  match resolveStaticDictId mergedConfig with
  | Thrown e => Thrown e
  | Returned staticDictId =>
      if decide (N.to_nat (streamingThreshold mergedConfig) < length inputTokens)
      then compressStreaming inputTokens mergedConfig staticDictId
      else
        let wasmConfig := Wasm.toWasmConfig (Wasm.as_partial mergedConfig) in
        match Wasm.compress wasm inputTokens wasmConfig with
        | Thrown e => Thrown e
        | Returned wasmResult =>
            Returned (convertWasmResult wasmResult staticDictId
                        (endTime - startTime)%float)
        end
  end.

(** [discoverPatterns], with its default parameters [minLength = 2] and
    [maxLength = 8]. *)
Definition discoverPatterns (tokens : TokenInput)
    (minLength maxLength : option N) : js_result (list Wasm.DiscoveredPattern) :=
  let minLength := nullish minLength 2%N in
  let maxLength := nullish maxLength 8%N in
  let inputTokens := normalizeTokens tokens in
  Wasm.discover_patterns wasm inputTokens minLength maxLength.

End WithWasm.

End Compress.

(** ** Streaming API ([streaming.ts]) *)

Module Streaming.

(** The fields of [StreamingCompressorImpl]; [compressor] holds the state
    of the core object the instance owns. *)
Record StreamingCompressorImpl (SC : Type) := {
  compressor : SC;
  config : RequiredConfig;
  finished : bool;
  totalChunks : N;
  totalTokens : N;
}.
Arguments compressor {SC} _.
Arguments config {SC} _.
Arguments finished {SC} _.
Arguments totalChunks {SC} _.
Arguments totalTokens {SC} _.

(** The first [while] loop of [finish]. *)
Equations? finish_find (dictionaryTokens : list N) (dictStart : N)
    (pos : nat) : nat by wf (length dictionaryTokens - pos) lt :=
  finish_find dictionaryTokens dictStart pos with
    decide (pos < length dictionaryTokens) => {
    | right _ := pos
    | left _ with decide (dictionaryTokens !! pos = Some dictStart) => {
      | left _ := pos
      | right _ := finish_find dictionaryTokens dictStart (pos + 1)
      } }.
Proof. lia. Qed.

(** The second [while] loop of [finish]; a missing length field is
    [undefined], as in [Decompress.extractDictionary_loop]. *)
Equations? finish_loop (dictionaryTokens : list N) (dictEnd : N)
    (pos : nat) (dictionaryMap : gmap N (list N)) : gmap N (list N)
    by wf (length dictionaryTokens - pos) lt :=
  finish_loop dictionaryTokens dictEnd pos dictionaryMap with
    decide (pos < length dictionaryTokens) => {
    | right _ := dictionaryMap
    | left _ with dictionaryTokens !! pos => {
      | None := dictionaryMap
      | Some metaToken with decide (metaToken = dictEnd) => {
        | left _ := dictionaryMap
        | right _ with dictionaryTokens !! (pos + 1) => {
          | None := <[metaToken := []]> dictionaryMap
          | Some len with decide (length dictionaryTokens < pos + 2 + N.to_nat len) => {
            | left _ := dictionaryMap
            | right _ :=
                finish_loop dictionaryTokens dictEnd (pos + 2 + N.to_nat len)
                  (<[metaToken := slice dictionaryTokens (pos + 2) (pos + 2 + N.to_nat len)]>
                     dictionaryMap)
            } } } } }.
Proof. lia. Qed.

(** The dictionary parse written inline in [finish]. *)
Definition finish_dictionaryMap (config : RequiredConfig)
    (dictionaryTokens : list N) : gmap N (list N) :=
  let dictStart := dictStartToken config in
  let dictEnd := dictEndToken config in
  let pos := finish_find dictionaryTokens dictStart 0 in
  finish_loop dictionaryTokens dictEnd (pos + 1) ∅.

Section WithWasm.

Context {SC : Type} (wasm : Wasm.WasmExports SC).

(** The two readings of [performance.now()] around the call into the core. *)
Variables (startTime endTime : float).

(** [createStreamingCompressor] *)
Definition createStreamingCompressor (config : option CompressionConfig)
    : js_result (StreamingCompressorImpl SC) :=
  let mergedConfig := mergeConfig config in
  let wasmConfig := Wasm.toWasmConfig (Wasm.as_partial mergedConfig) in
  match Wasm.StreamingCompressor wasm wasmConfig with
  | Thrown e => Thrown e
  | Returned wasmCompressor =>
      Returned {| compressor := wasmCompressor; config := mergedConfig;
                  finished := false; totalChunks := 0; totalTokens := 0 |}
  end.

(** [addChunk] *)
Definition addChunk (this : StreamingCompressorImpl SC) (tokens : TokenInput)
    : StreamingCompressorImpl SC * js_result unit :=
  if finished this
  then (this, Thrown "Cannot add chunks to a finished compressor")
  else
    let normalizedTokens := normalizeTokens tokens in
    match Wasm.add_chunk wasm (compressor this) normalizedTokens with
    | (c, Thrown e) =>
        ({| compressor := c; config := config this; finished := finished this;
            totalChunks := totalChunks this; totalTokens := totalTokens this |},
         Thrown e)
    | (c, Returned _) =>
        ({| compressor := c; config := config this; finished := finished this;
            totalChunks := totalChunks this + 1;
            totalTokens := totalTokens this + N.of_nat (length normalizedTokens) |},
         Returned ())
    end.

(** [memoryUsage] *)
Definition memoryUsage (this : StreamingCompressorImpl SC) : N :=
  Wasm.memory_usage wasm (compressor this).

(** [isFinished] *)
Definition isFinished (this : StreamingCompressorImpl SC) : bool :=
  finished this.

(** [finish]: the flag is set before the core is called. *)
Definition finish (this : StreamingCompressorImpl SC)
    : StreamingCompressorImpl SC * js_result Compress.CompressionResult :=
  if finished this
  then (this, Thrown "Compressor has already been finished")
  else
    match Wasm.finish wasm (compressor this) with
    | (c, r) =>
        let this' :=
          {| compressor := c; config := config this; finished := true;
             totalChunks := totalChunks this; totalTokens := totalTokens this |} in
        match r with
        | Thrown e => (this', Thrown e)
        | Returned wasmResult =>
            let serializedTokens := Wasm.getSerializedTokens wasmResult in
            let dictionaryTokens := Wasm.getDictionaryTokens wasmResult in
            let bodyTokens := Wasm.getBodyTokens wasmResult in
            let originalTokens := Wasm.getOriginalTokens wasmResult in
            let dictionaryMap := finish_dictionaryMap (config this) dictionaryTokens in
            (this',
             Returned {|
               Compress.originalTokens := originalTokens;
               Compress.serializedTokens := serializedTokens;
               Compress.dictionaryTokens := dictionaryTokens;
               Compress.bodyTokens := bodyTokens;
               Compress.originalLength := Wasm.original_length wasmResult;
               Compress.compressedLength := Wasm.compressed_length wasmResult;
               Compress.compressionRatio := Wasm.compression_ratio wasmResult;
               Compress.dictionaryMap := dictionaryMap;
               Compress.staticDictionaryId := None;
               Compress.metrics := {|
                 Compress.discoveryTimeMs := 0;
                 Compress.selectionTimeMs := 0;
                 Compress.serializationTimeMs := 0;
                 Compress.totalTimeMs := (endTime - startTime)%float;
                 Compress.peakMemoryBytes := memoryUsage this' |} |})
        end
    end.

(** The [for await] loop of [compressStream] over the chunks the stream
    yields. *)
Fixpoint compressStream_loop (this : StreamingCompressorImpl SC)
    (tokenStream : list TokenInput) : StreamingCompressorImpl SC * js_result unit :=
  match tokenStream with
  | [] => (this, Returned ())
  | chunk :: rest =>
      match addChunk this chunk with
      | (this', Thrown e) => (this', Thrown e)
      | (this', Returned _) => compressStream_loop this' rest
      end
  end.

(** [compressStream] *)
Definition compressStream (tokenStream : list TokenInput)
    (config : option CompressionConfig) : js_result Compress.CompressionResult :=
  match createStreamingCompressor config with
  | Thrown e => Thrown e
  | Returned compressor =>
      match compressStream_loop compressor tokenStream with
      | (_, Thrown e) => Thrown e
      | (compressor', Returned _) => snd (finish compressor')
      end
  end.

End WithWasm.

(** The calls a streaming compressor of the core receives. *)
Inductive WasmCall :=
| Call_add_chunk (tokens : Uint32Array)
| Call_finish.

(** The exports [wasm] with a streaming compressor that records, next to
    its own state, every call it receives. *)
Definition recording {SC} (wasm : Wasm.WasmExports SC)
    : Wasm.WasmExports (SC * list WasmCall) := {|
  Wasm.compress := Wasm.compress wasm;
  Wasm.decompress := Wasm.decompress wasm;
  Wasm.discover_patterns := Wasm.discover_patterns wasm;
  Wasm.version := Wasm.version wasm;
  Wasm.StreamingCompressor := λ cfg,
    match Wasm.StreamingCompressor wasm cfg with
    | Returned c => Returned (c, [])
    | Thrown e => Thrown e
    end;
  Wasm.add_chunk := λ '(c, calls) tokens,
    let '(c', r) := Wasm.add_chunk wasm c tokens in
    ((c', calls ++ [Call_add_chunk tokens]), r);
  Wasm.finish := λ '(c, calls),
    let '(c', r) := Wasm.finish wasm c in
    ((c', calls ++ [Call_finish]), r);
  Wasm.memory_usage := λ '(c, _), Wasm.memory_usage wasm c;
|}.

(** The calls made on a [StreamingCompressor] by its user. *)
Inductive Op :=
| Op_addChunk (tokens : TokenInput)
| Op_finish.

(** One call on the instance: the state after it and whether it threw. *)
Definition step {SC} (wasm : Wasm.WasmExports SC) (startTime endTime : float)
    (this : StreamingCompressorImpl SC) (op : Op)
    : StreamingCompressorImpl SC * bool :=
  match op with
  | Op_addChunk tokens =>
      let '(this', r) := addChunk wasm this tokens in (this', is_thrown r)
  | Op_finish =>
      let '(this', r) := finish wasm startTime endTime this in (this', is_thrown r)
  end.

(** A sequence of calls, with the list of which of them threw. *)
Fixpoint run {SC} (wasm : Wasm.WasmExports SC) (startTime endTime : float)
    (this : StreamingCompressorImpl SC) (ops : list Op)
    : StreamingCompressorImpl SC * list bool :=
  match ops with
  | [] => (this, [])
  | op :: rest =>
      let '(this', thrown) := step wasm startTime endTime this op in
      let '(this'', thrown') := run wasm startTime endTime this' rest in
      (this'', thrown :: thrown')
  end.

Section ProcessInChunks.

Context {St T : Type}.

(** The callback: it may read and change the state [St] of its
    environment, and it may reject. *)
Variable callback : St → Uint32Array → nat → St * js_result T.

(** The [for] loop of [processInChunks], from index [i] with the
    results pushed so far; [fuel] bounds the iterations, and [None]
    is a loop that has not ended within that bound. *)
Fixpoint processInChunks_loop (fuel : nat) (normalized : Uint32Array)
    (chunkSize : nat) (i : nat) (st : St) (results : list T)
    : option (St * js_result (list T)) :=
  match fuel with
  | 0 => None
  | S fuel' =>
      if decide (i < length normalized) then
        let end_ := Nat.min (i + chunkSize) (length normalized) in
        let chunk := subarray normalized i end_ in
        match callback st chunk i with
        | (st', Thrown e) => Some (st', Thrown e)
        | (st', Returned result) =>
            processInChunks_loop fuel' normalized chunkSize (i + chunkSize) st'
              (results ++ [result])
        end
      else Some (st, Returned results)
  end.

(** [processInChunks] *)
Definition processInChunks (fuel : nat) (tokens : TokenInput) (chunkSize : nat)
    (st : St) : option (St * js_result (list T)) :=
  let normalized := normalizeTokens tokens in
  processInChunks_loop fuel normalized chunkSize 0 st [].

End ProcessInChunks.

(** A callback that also records the arguments of each of its invocations. *)
Definition traced {St T} (callback : St → Uint32Array → nat → St * js_result T)
    : St * list (Uint32Array * nat) → Uint32Array → nat
      → (St * list (Uint32Array * nat)) * js_result T :=
  λ '(st, calls) chunk index,
    let '(st', r) := callback st chunk index in
    ((st', calls ++ [(chunk, index)]), r).

(** The callback never rejects. *)
Definition resolves {St T} (callback : St → Uint32Array → nat → St * js_result T)
    : Prop :=
  ∀ st chunk index, is_thrown (callback st chunk index).2 = false.

(** [ceil(n / c)] *)
Definition ceil_div (n c : nat) : nat := (n + c - 1) / c.

(** The calls received so far by a recording streaming compressor. *)
Definition calls_of {SC} (this : StreamingCompressorImpl (SC * list WasmCall))
    : list WasmCall :=
  (compressor this).2.

(** The core of [tests/streaming.test.ts]: a streaming compressor without
    state whose [finish] returns a fixed result. *)
Definition mock_wasm : Wasm.WasmExports unit :=
  let result := {|
    Wasm.compression_ratio := 0x1.570a3d70a3d71p-1%float;
    Wasm.tokens_saved := 5;
    Wasm.original_length := 15;
    Wasm.compressed_length := 10;
    Wasm.getSerializedTokens := [1; 2; 3; 4; 5; 6; 7; 8; 9; 10]%N;
    Wasm.getDictionaryTokens := [];
    Wasm.getBodyTokens := [1; 2; 3; 4; 5; 6; 7; 8; 9; 10]%N;
    Wasm.getOriginalTokens := [1; 2; 3; 1; 2; 3; 1; 2; 3; 1; 2; 3; 1; 2; 3]%N;
    Wasm.getStaticDictionaryId := None;
  |} in {|
    Wasm.compress := λ _ _, Returned result;
    Wasm.decompress := λ tokens _, Returned tokens;
    Wasm.discover_patterns := λ _ _ _, Returned [];
    Wasm.version := "0.1.0";
    Wasm.StreamingCompressor := λ _, Returned ();
    Wasm.add_chunk := λ _ _, ((), Returned ());
    Wasm.finish := λ _, ((), Returned result);
    Wasm.memory_usage := λ _, 1024%N;
  |}.

(** What [createStreamingCompressor()] returns over the recording mock. *)
Definition mock_compressor : StreamingCompressorImpl (unit * list WasmCall) :=
  {| compressor := ((), []); config := DEFAULT_CONFIG; finished := false;
     totalChunks := 0; totalTokens := 0 |}.

End Streaming.

(** ** The loader of the WebAssembly module ([wasm/loader.ts]) *)

Module Loader.

Inductive Runtime := browser | node | deno.

(** What the code asks of the global scope: [typeof Deno], [typeof
    window], [typeof window.document] and [typeof process] against
    ['undefined'], whether [process.versions] and [process.versions.node]
    are truthy, and [navigator.hardwareConcurrency] ([None] without a
    [navigator], [Some None] when the property is missing). *)
Record Globals := {
  has_Deno : bool;
  has_window : bool;
  has_window_document : bool;
  has_process : bool;
  process_versions : bool;
  process_versions_node : bool;
  navigator_hardwareConcurrency : option (option nat);
}.

(** [detectEnvironment] *)
Definition detectEnvironment (g : Globals) : Runtime :=
  if has_Deno g then deno
  else if has_window g && has_window_document g then browser
  else if has_process g && process_versions g && process_versions_node g then node
  else browser.

Section WithTypes.

(** [Bytes] is an [ArrayBuffer] with the binary, [Module] a
    [WebAssembly.Module]; an instance is used through its exports. *)
Context {Bytes Module SC : Type}.

(** The three module-level variables; a promise is named by a number. *)
Record State := {
  wasmModule : option Module;
  wasmInstance : option (Wasm.WasmExports SC);
  initPromise : option nat;
}.

Definition initial_state : State :=
  {| wasmModule := None; wasmInstance := None; initPromise := None |}.

(** [getWasm] *)
Definition getWasm (s : State) : js_result (Wasm.WasmExports SC) :=
  match wasmInstance s with
  | None =>
      Thrown "WASM not initialized. Call initWasm() first and await its completion."
  | Some instance => Returned instance
  end.

(** [isWasmInitialized] *)
Definition isWasmInitialized (s : State) : bool :=
  match wasmInstance s with Some _ => true | None => false end.

(** [resetWasm] *)
Definition resetWasm (s : State) : State := initial_state.

(** [getWasmVersion] *)
Definition getWasmVersion (s : State) : js_result string :=
  match getWasm s with
  | Thrown e => Thrown e
  | Returned wasm => Returned (Wasm.version wasm)
  end.

(** Where the body of an [async] function is suspended: the three
    [await]s inside the [try] of [initWasm], the [await] of
    [initWasmFromModule], and the two of [initWasmFromBytes]. *)
Inductive Phase :=
| initWasm_loadWasmBytes
| initWasm_compile
| initWasm_instantiate
| initWasmFromModule_instantiate
| initWasmFromBytes_compile
| initWasmFromBytes_instantiate.

(** What an awaited promise settles with. *)
Inductive Awaited :=
| Got_bytes (bytes : Bytes)
| Got_module (module : Module)
| Got_instance (exports : Wasm.WasmExports SC)
| Failed (error : string).

(** The variables of the module, the suspended bodies (each under the
    name of the promise that its completion settles), the promises
    settled so far, and the next unused promise name. *)
Record World := {
  state : State;
  tasks : gmap nat Phase;
  settled : gmap nat (js_result unit);
  next : nat;
}.

Definition initial : World :=
  {| state := initial_state; tasks := ∅; settled := ∅; next := 0 |}.

(** What a call returns: a promise that is already fulfilled (the
    [return;] of an [async] function) or the promise of that name. *)
Inductive Returns :=
| Fulfilled_now
| Promise (p : nat).

(** A body is suspended at [phase] under a new promise. *)
Definition suspend (w : World) (s : State) (phase : Phase) : World :=
  {| state := s; tasks := <[next w := phase]> (tasks w);
     settled := settled w; next := S (next w) |}.

(** [initWasm], up to the point at which it returns its promise: the
    body of the inner [async] function runs until [await
    loadWasmBytes()], and the promise of that function is stored. *)
Definition initWasm (w : World) : World * Returns :=
  match wasmInstance (state w) with
  | Some _ => (w, Fulfilled_now)
  | None =>
      match initPromise (state w) with
      | Some p => (w, Promise p)
      | None =>
          (suspend w
             {| wasmModule := wasmModule (state w);
                wasmInstance := wasmInstance (state w);
                initPromise := Some (next w) |}
             initWasm_loadWasmBytes,
           Promise (next w))
      end
  end.

(** [initWasmFromModule], up to its [await]. *)
Definition initWasmFromModule (w : World) (module : Module) : World * Returns :=
  match wasmInstance (state w) with
  | Some _ => (w, Fulfilled_now)
  | None =>
      (suspend w
         {| wasmModule := Some module;
            wasmInstance := wasmInstance (state w);
            initPromise := initPromise (state w) |}
         initWasmFromModule_instantiate,
       Promise (next w))
  end.

(** [initWasmFromBytes], up to its first [await]. *)
Definition initWasmFromBytes (w : World) (bytes : Bytes) : World * Returns :=
  match wasmInstance (state w) with
  | Some _ => (w, Fulfilled_now)
  | None => (suspend w (state w) initWasmFromBytes_compile, Promise (next w))
  end.

(** The body under [p] goes on to its next [await]. *)
Definition continue (w : World) (p : nat) (s : State) (phase : Phase) : World :=
  {| state := s; tasks := <[p := phase]> (tasks w);
     settled := settled w; next := next w |}.

(** The body under [p] ends and its promise settles. *)
Definition settle (w : World) (p : nat) (s : State) (r : js_result unit) : World :=
  {| state := s; tasks := delete p (tasks w);
     settled := <[p := r]> (settled w); next := next w |}.

(** The [catch] of [initWasm]: [initPromise = null; throw error]. *)
Definition initWasm_catch (w : World) (p : nat) (error : string) : World :=
  settle w p
    {| wasmModule := wasmModule (state w);
       wasmInstance := wasmInstance (state w);
       initPromise := None |}
    (Thrown error).

(** [wasmModule = ...] *)
Definition set_wasmModule (s : State) (module : Module) : State :=
  {| wasmModule := Some module; wasmInstance := wasmInstance s;
     initPromise := initPromise s |}.

(** [wasmInstance = instance.exports as unknown as WasmExports] *)
Definition set_wasmInstance (s : State) (exports : Wasm.WasmExports SC) : State :=
  {| wasmModule := wasmModule s; wasmInstance := Some exports;
     initPromise := initPromise s |}.

(** The promise awaited by the body under [p] settles with [outcome] and
    the body runs to its next [await] or to its end.  An outcome that the
    awaited operation cannot produce leaves the world as it is, and so
    does a name under which no body is suspended. *)
Definition resume (w : World) (p : nat) (outcome : Awaited) : World :=
  match tasks w !! p with
  | None => w
  | Some initWasm_loadWasmBytes =>
      match outcome with
      | Got_bytes _ => continue w p (state w) initWasm_compile
      | Failed error => initWasm_catch w p error
      | _ => w
      end
  | Some initWasm_compile =>
      match outcome with
      | Got_module module =>
          continue w p (set_wasmModule (state w) module) initWasm_instantiate
      | Failed error => initWasm_catch w p error
      | _ => w
      end
  | Some initWasm_instantiate =>
      match outcome with
      | Got_instance exports =>
          settle w p (set_wasmInstance (state w) exports) (Returned ())
      | Failed error => initWasm_catch w p error
      | _ => w
      end
  | Some initWasmFromModule_instantiate =>
      match outcome with
      | Got_instance exports =>
          settle w p (set_wasmInstance (state w) exports) (Returned ())
      | Failed error => settle w p (state w) (Thrown error)
      | _ => w
      end
  | Some initWasmFromBytes_compile =>
      match outcome with
      | Got_module module =>
          continue w p (set_wasmModule (state w) module) initWasmFromBytes_instantiate
      | Failed error => settle w p (state w) (Thrown error)
      | _ => w
      end
  | Some initWasmFromBytes_instantiate =>
      match outcome with
      | Got_instance exports =>
          settle w p (set_wasmInstance (state w) exports) (Returned ())
      | Failed error => settle w p (state w) (Thrown error)
      | _ => w
      end
  end.

(** What may happen to the module: a call of one of its functions, or
    the settling of a promise that one of its suspended bodies awaits. *)
Inductive Event :=
| Call_initWasm
| Call_initWasmFromModule (module : Module)
| Call_initWasmFromBytes (bytes : Bytes)
| Call_resetWasm
| Settles (p : nat) (outcome : Awaited).

Definition step (w : World) (e : Event) : World :=
  match e with
  | Call_initWasm => (initWasm w).1
  | Call_initWasmFromModule module => (initWasmFromModule w module).1
  | Call_initWasmFromBytes bytes => (initWasmFromBytes w bytes).1
  | Call_resetWasm =>
      {| state := resetWasm (state w); tasks := tasks w;
         settled := settled w; next := next w |}
  | Settles p outcome => resume w p outcome
  end.

Definition run (w : World) (events : list Event) : World := foldl step w events.

(** The events of a program that uses [initWasm] only. *)
Definition initWasm_only (e : Event) : Prop :=
  match e with
  | Call_initWasm | Settles _ _ => True
  | _ => False
  end.

End WithTypes.

Arguments State : clear implicits.
Arguments World : clear implicits.
Arguments Event : clear implicits.
Arguments Awaited : clear implicits.

End Loader.

(** ** Worker pools ([worker.ts]) *)

Module Worker.

(** [WorkerRequest] *)
Inductive WorkerRequest :=
| Request_compress (requestId : string) (tokens : list N)
    (config : option CompressionConfig)
| Request_decompress (requestId : string) (tokens : list N)
    (config : option DecompressionConfig)
| Request_init.

(** [WorkerResponse]; [None] is [null]. *)
Inductive WorkerResponse :=
| Response_compress (requestId : string) (result : option Compress.CompressionResult)
    (error : option string)
| Response_decompress (requestId : string) (result : option (list N))
    (error : option string)
| Response_init (success : bool) (error : option string).

(** What a promise of the pool is fulfilled with ([PendingRequest<unknown>]):
    the [result] of a response, which may be [null]. *)
Inductive Value :=
| Value_compression (result : Compress.CompressionResult)
| Value_tokens (result : list N).

(** What a promise of the pool is rejected with: [new Error(message)], or
    the [TypeError] of a method call on [undefined]. *)
Inductive Reason :=
| Error (message : string)
| TypeError.

Inductive PromiseState :=
| Pending
| Fulfilled (value : option Value)
| Rejected (reason : Reason).

(** The two functions that build a pool. *)
Inductive Kind := BrowserPool | NodePool.

(** The variables that the closures of a pool share ([workers],
    [pendingRequests], [nextWorkerIndex]) and what the pool does to its
    surroundings.  A worker is named by a number; a promise is named by
    its position in [promises]; [pendingRequests] holds, under a request
    id, the promise whose [resolve] and [reject] were stored under that
    id; [nextWorkerIndex] is a number, [None] standing for [NaN];
    [posted] lists the messages posted to the workers, each with its
    worker, in order; [terminated] lists the workers on which
    [terminate()] was called; [urlRevoked] is whether
    [URL.revokeObjectURL(workerUrl)] was called. *)
Record Pool := {
  kind : Kind;
  workers : list nat;
  pendingRequests : gmap string nat;
  nextWorkerIndex : option nat;
  posted : list (nat * WorkerRequest);
  terminated : list nat;
  urlRevoked : bool;
  promises : list PromiseState;
}.

(** The [for] loop that creates the workers: [new Worker(...)], the
    handler, [worker.postMessage({ type: 'init' })], [workers.push(worker)].
    The worker created in turn [i] is named [i]. *)
Fixpoint create_workers (turns i : nat) (pool : Pool) : Pool :=
  match turns with
  | 0 => pool
  | S turns' =>
      create_workers turns' (S i)
        {| kind := kind pool;
           workers := workers pool ++ [i];
           pendingRequests := pendingRequests pool;
           nextWorkerIndex := nextWorkerIndex pool;
           posted := posted pool ++ [(i, Request_init)];
           terminated := terminated pool;
           urlRevoked := urlRevoked pool;
           promises := promises pool |}
  end.

(** The pool before its workers are created. *)
Definition empty_pool (k : Kind) : Pool :=
  {| kind := k; workers := []; pendingRequests := ∅; nextWorkerIndex := Some 0;
     posted := []; terminated := []; urlRevoked := false; promises := [] |}.

(** [createBrowserWorkerPool], for a count that is a natural number. *)
Definition createBrowserWorkerPool (count : nat) : Pool :=
  create_workers count 0 (empty_pool BrowserPool).

(** [createNodeWorkerPool], for a count that is a natural number and with
    [node:worker_threads] at hand. *)
Definition createNodeWorkerPool (count : nat) : Pool :=
  create_workers count 0 (empty_pool NodePool).

(** [createWorkerPool]:
    [workerCount ?? (typeof navigator !== 'undefined' ?
       navigator.hardwareConcurrency : 4) ?? 4]
    workers, in a Node pool when [process.versions.node] is there. *)
Definition createWorkerPool (g : Loader.Globals) (workerCount : option nat) : Pool :=
  let count :=
    nullish
      (Compress.nullish_or workerCount
         (match Loader.navigator_hardwareConcurrency g with
          | Some hardwareConcurrency => hardwareConcurrency
          | None => Some 4
          end))
      4 in
  let isNode :=
    Loader.has_process g && Loader.process_versions g && Loader.process_versions_node g in
  if isNode then createNodeWorkerPool count else createBrowserWorkerPool count.

(** [getWorker]: [workers[nextWorkerIndex]], which is [undefined] out of
    range, and [nextWorkerIndex = (nextWorkerIndex + 1) % workers.length],
    which is [NaN] for a length of zero and stays [NaN]. *)
Definition getWorker (pool : Pool) : option nat * Pool :=
  let worker := nextWorkerIndex pool ≫= λ i, workers pool !! i in
  let next :=
    match nextWorkerIndex pool with
    | Some i =>
        if decide (length (workers pool) = 0) then None
        else Some ((i + 1) mod length (workers pool))
    | None => None
    end in
  (worker,
   {| kind := kind pool; workers := workers pool;
      pendingRequests := pendingRequests pool;
      nextWorkerIndex := next;
      posted := posted pool; terminated := terminated pool;
      urlRevoked := urlRevoked pool; promises := promises pool |}).

(** [resolve] and [reject] of the promise [p]: a promise settles once. *)
Definition settle (pool : Pool) (p : nat) (outcome : PromiseState) : Pool :=
  {| kind := kind pool; workers := workers pool;
     pendingRequests := pendingRequests pool;
     nextWorkerIndex := nextWorkerIndex pool;
     posted := posted pool; terminated := terminated pool;
     urlRevoked := urlRevoked pool;
     promises :=
       match promises pool !! p with
       | Some Pending => <[p := outcome]> (promises pool)
       | _ => promises pool
       end |}.

(** The body that the methods [compress] and [decompress] of a pool
    share, [requestId] being what [generateId()] returned: a new promise
    whose executor stores its callbacks under the id, takes the next
    worker and posts the message to it.  Without a worker the call of
    [postMessage] on [undefined] throws, and an executor that throws
    rejects its promise. *)
Definition post_request (pool : Pool) (requestId : string)
    (message : WorkerRequest) : Pool * nat :=
  let p := length (promises pool) in
  let registered :=
    {| kind := kind pool; workers := workers pool;
       pendingRequests := <[requestId := p]> (pendingRequests pool);
       nextWorkerIndex := nextWorkerIndex pool;
       posted := posted pool; terminated := terminated pool;
       urlRevoked := urlRevoked pool;
       promises := promises pool ++ [Pending] |} in
  match getWorker registered with
  | (Some worker, pool') =>
      ({| kind := kind pool'; workers := workers pool';
          pendingRequests := pendingRequests pool';
          nextWorkerIndex := nextWorkerIndex pool';
          posted := posted pool' ++ [(worker, message)];
          terminated := terminated pool';
          urlRevoked := urlRevoked pool'; promises := promises pool' |}, p)
  | (None, pool') => (settle pool' p (Rejected TypeError), p)
  end.

(** [compress] of a pool; [Array.from(tokens)] holds the tokens as given. *)
Definition compress (pool : Pool) (requestId : string) (tokens : TokenInput)
    (config : option CompressionConfig) : Pool * nat :=
  post_request pool requestId (Request_compress requestId tokens config).

(** [decompress] of a pool. *)
Definition decompress (pool : Pool) (requestId : string) (tokens : TokenInput)
    (config : option DecompressionConfig) : Pool * nat :=
  post_request pool requestId (Request_decompress requestId tokens config).

(** The part of the message handler after [response.type === 'init']:
    the pending request of the id is looked up and deleted; a truthy
    [error] (a string that is not empty) rejects its promise with [new
    Error(response.error)], anything else fulfils it with
    [response.result]. *)
Definition handle_response (pool : Pool) (requestId : string)
    (result : option Value) (error : option string) : Pool :=
  match pendingRequests pool !! requestId with
  | None => pool
  | Some p =>
      let deleted :=
        {| kind := kind pool; workers := workers pool;
           pendingRequests := delete requestId (pendingRequests pool);
           nextWorkerIndex := nextWorkerIndex pool;
           posted := posted pool; terminated := terminated pool;
           urlRevoked := urlRevoked pool; promises := promises pool |} in
      match error with
      | Some message =>
          if decide (message = EmptyString) then settle deleted p (Fulfilled result)
          else settle deleted p (Rejected (Error message))
      | None => settle deleted p (Fulfilled result)
      end
  end.

(** The handler of the messages that the workers send back
    ([worker.onmessage], [worker.on('message', ...)]). *)
Definition onmessage (pool : Pool) (response : WorkerResponse) : Pool :=
  match response with
  | Response_init _ _ => pool
  | Response_compress requestId result error =>
      handle_response pool requestId (Value_compression <$> result) error
  | Response_decompress requestId result error =>
      handle_response pool requestId (Value_tokens <$> result) error
  end.

(** [terminate]: every worker is terminated, [workers.length = 0], and
    the browser pool revokes the URL of its script. *)
Definition terminate (pool : Pool) : Pool :=
  {| kind := kind pool; workers := [];
     pendingRequests := pendingRequests pool;
     nextWorkerIndex := nextWorkerIndex pool;
     posted := posted pool;
     terminated := terminated pool ++ workers pool;
     urlRevoked := match kind pool with BrowserPool => true | NodePool => urlRevoked pool end;
     promises := promises pool |}.

(** [size] *)
Definition size (pool : Pool) : nat := length (workers pool).

Section WorkerScript.

(** What the script of a worker imports from the SDK, as it behaves in
    that worker, and [String(error)] on what these throw. *)
Variable sdk_initWasm : js_result unit.
Variable sdk_compress : list N → option CompressionConfig
                        → js_result Compress.CompressionResult.
Variable sdk_decompress : list N → option DecompressionConfig → js_result (list N).
Variable String_ : string → string.

(** The message handler in the script of a worker: the response it
    posts to a request. *)
Definition worker_onmessage (request : WorkerRequest) : WorkerResponse :=
  match request with
  | Request_init =>
      match sdk_initWasm with
      | Returned _ => Response_init true None
      | Thrown error => Response_init false (Some (String_ error))
      end
  | Request_compress requestId tokens config =>
      match sdk_compress tokens config with
      | Returned result => Response_compress requestId (Some result) None
      | Thrown error => Response_compress requestId None (Some (String_ error))
      end
  | Request_decompress requestId tokens config =>
      match sdk_decompress tokens config with
      | Returned result => Response_decompress requestId (Some result) None
      | Thrown error => Response_decompress requestId None (Some (String_ error))
      end
  end.

End WorkerScript.

(** [compressInWorker] up to its [await pool.compress(tokens, config)]:
    a pool of one worker and the request. *)
Definition compressInWorker_start (g : Loader.Globals) (requestId : string)
    (tokens : TokenInput) (config : option CompressionConfig) : Pool * nat :=
  compress (createWorkerPool g (Some 1)) requestId tokens config.

(** [decompressInWorker] up to its [await]. *)
Definition decompressInWorker_start (g : Loader.Globals) (requestId : string)
    (tokens : TokenInput) (config : option DecompressionConfig) : Pool * nat :=
  decompress (createWorkerPool g (Some 1)) requestId tokens config.

(** [compressInWorker] and [decompressInWorker] after their [await]:
    while the promise [p] is pending the function stays suspended
    ([None]); once it is settled, [finally] terminates the pool and the
    function settles as [p] did. *)
Definition inWorker_resume (pool : Pool) (p : nat) : option (Pool * PromiseState) :=
  match promises pool !! p with
  | None | Some Pending => None
  | Some outcome => Some (terminate pool, outcome)
  end.

(** What happens to a pool: a call of one of its methods, with the id
    that [generateId()] gives it, or a message from a worker. *)
Inductive Operation :=
| Call_compress (requestId : string) (tokens : TokenInput)
    (config : option CompressionConfig)
| Call_decompress (requestId : string) (tokens : TokenInput)
    (config : option DecompressionConfig)
| Message (response : WorkerResponse)
| Call_terminate.

Definition step (pool : Pool) (op : Operation) : Pool :=
  match op with
  | Call_compress requestId tokens config => (compress pool requestId tokens config).1
  | Call_decompress requestId tokens config => (decompress pool requestId tokens config).1
  | Message response => onmessage pool response
  | Call_terminate => terminate pool
  end.

Definition run (pool : Pool) (ops : list Operation) : Pool := foldl step pool ops.

(** The message that a call posts. *)
Definition message_of (op : Operation) : option WorkerRequest :=
  match op with
  | Call_compress requestId tokens config =>
      Some (Request_compress requestId tokens config)
  | Call_decompress requestId tokens config =>
      Some (Request_decompress requestId tokens config)
  | Message _ | Call_terminate => None
  end.

(** The id of a response to a request, and what the message handler
    settles the promise of that request with. *)
Definition requestId_of (response : WorkerResponse) : option string :=
  match response with
  | Response_compress requestId _ _ | Response_decompress requestId _ _ => Some requestId
  | Response_init _ _ => None
  end.

Definition result_of (response : WorkerResponse) : option Value :=
  match response with
  | Response_compress _ result _ => Value_compression <$> result
  | Response_decompress _ result _ => Value_tokens <$> result
  | Response_init _ _ => None
  end.

Definition error_of (response : WorkerResponse) : option string :=
  match response with
  | Response_compress _ _ error | Response_decompress _ _ error
  | Response_init _ error => error
  end.

(** The id that a call is given, and the id of the response that a
    message carries. *)
Definition call_id (op : Operation) : option string :=
  match op with
  | Call_compress requestId _ _ | Call_decompress requestId _ _ => Some requestId
  | Message _ | Call_terminate => None
  end.

Definition message_id (op : Operation) : option string :=
  match op with
  | Message response => requestId_of response
  | Call_compress _ _ _ | Call_decompress _ _ _ | Call_terminate => None
  end.

(** The operations other than [terminate]. *)
Definition keeps_workers (op : Operation) : Prop :=
  match op with Call_terminate => False | _ => True end.

End Worker.

(** ** The wire format *)

Module Layout.

(** The layout of a compressed stream:
    [[DICT_START, meta_0, length_0, def_0 ..., meta_1, length_1, def_1 ...,
      DICT_END, body ...]].
    A dictionary entry is a meta-token with its definition. *)
Definition encode_entry (entry : N * list N) : list N :=
  entry.1 :: N.of_nat (length entry.2) :: entry.2.

Definition encode_entries (entries : list (N * list N)) : list N :=
  entries ≫= encode_entry.

Definition stream (dictStart dictEnd : N) (entries : list (N * list N))
    (body : list N) : list N :=
  [dictStart] ++ encode_entries entries ++ [dictEnd] ++ body.

(** The map that the entries define when they are stored one after the
    other: a meta-token defined twice keeps its last definition. *)
Definition dictionary_of (entries : list (N * list N)) : gmap N (list N) :=
  foldl (λ map entry, <[entry.1 := entry.2]> map) ∅ entries.

(** No meta-token, length field or definition token of the entries is [t]. *)
Definition entries_avoid (t : N) (entries : list (N * list N)) : Prop :=
  t ∉ encode_entries entries.

(** No meta-token of the entries is [t]. *)
Definition metas_avoid (t : N) (entries : list (N * list N)) : Prop :=
  t ∉ entries.*1.

End Layout.

(** ** The compression engine *)

(** Modelled from the spec: the compression engine that the SDK reaches
    through [wasm/loader.ts] (the Rust/WebAssembly core), which is not among
    the sources.  Every definition of this module follows sections 3, 4.4,
    4.5, 4.6, 6 and 7 of the spec.  Discovery and selection (sections 4.2
    and 4.3) are a parameter [plan] of the engine, fixed by their contract
    [plan_contract]; [prefix_plan] is one small instance. *)
Module Core.

(** Modelled from the spec: the configuration surface of section 6. *)
Record Config := {
  min_subsequence_length : nat;
  max_subsequence_length : nat;
  selection_mode : SelectionMode;
  beam_width : nat;
  hierarchical_enabled : bool;
  hierarchical_max_depth : nat;
  verify : bool;
  dict_start_token : N;
  dict_end_token : N;
  next_meta_token : N;
}.

(** Modelled from the spec: the defaults of section 6 stand for the
    options that the configuration object does not carry. *)
Definition resolve (config : Wasm.WasmConfig) : Config := {|
  min_subsequence_length := N.to_nat (default 2%N (Wasm.min_subsequence_length config));
  max_subsequence_length := N.to_nat (default 8%N (Wasm.max_subsequence_length config));
  selection_mode := default greedy (Wasm.selection_mode config);
  beam_width := N.to_nat (default 8%N (Wasm.beam_width config));
  hierarchical_enabled := default true (Wasm.hierarchical_enabled config);
  hierarchical_max_depth := N.to_nat (default 3%N (Wasm.hierarchical_max_depth config));
  verify := default false (Wasm.verify config);
  dict_start_token := default 0xFFFFFFF0%N (Wasm.dict_start_token config);
  dict_end_token := default 0xFFFFFFF1%N (Wasm.dict_end_token config);
  next_meta_token := default 0xFFFF0000%N (Wasm.next_meta_token config);
|}.

(** Modelled from the spec: the error taxonomy of section 7; the errors
    of decompression carry the offset at which the defect was detected. *)
Inductive Error :=
| ConfigInvalid
| TokenRangeCollision
| MemoryExceeded
| MalformedStream (offset : nat)
| UndefinedMetaToken (offset : nat)
| Cycle (offset : nat)
| Truncated (offset : nat)
| VerificationFailure (offset : nat).

Inductive outcome (A : Type) : Type :=
| Ok (a : A)
| Fail (e : Error).
Arguments Ok {A} a.
Arguments Fail {A} e.

(** Modelled from the spec: the meta range starts at [next_meta_token] and
    ends below the dictionary-start token (with the defaults, the values
    [0xFFFF0000 .. 0xFFFFFFEF]); the control range is the two control
    tokens. *)
Definition is_meta (cfg : Config) (t : N) : bool :=
  bool_decide (next_meta_token cfg ≤ t < dict_start_token cfg)%N.

Definition is_control (cfg : Config) (t : N) : bool :=
  bool_decide (t = dict_start_token cfg ∨ t = dict_end_token cfg).

(** Modelled from the spec: [ConfigInvalid] is raised for contradictory
    bounds and for an empty meta range; the three ranges must not
    overlap. *)
Definition config_valid (cfg : Config) : bool :=
  bool_decide (min_subsequence_length cfg ≤ max_subsequence_length cfg)
  && bool_decide (next_meta_token cfg < dict_start_token cfg)%N
  && negb (is_meta cfg (dict_end_token cfg)).

(** *** Deserializer (section 4.5) *)

(** Modelled from the spec: the [count] tokens of a definition are read one
    by one from [rest], the stream from offset [pos] on; the end of the
    stream or the dictionary-end token before the last of them is
    [Truncated] at that offset. *)
Fixpoint read_definition (dictEnd : N) (rest : list N) (pos : nat) (count : N)
    : outcome (list N) :=
  if decide (count = 0%N) then Ok []
  else
    match rest with
    | [] => Fail (Truncated pos)
    | t :: rest' =>
        if decide (t = dictEnd) then Fail (Truncated pos)
        else match read_definition dictEnd rest' (S pos) (N.pred count) with
             | Ok def => Ok (t :: def)
             | Fail e => Fail e
             end
    end.

(** Modelled from the spec: entries are parsed until the dictionary-end
    token; the result is the map and the offset of the first body token. *)
Equations? parse_dictionary (W : list N) (dictEnd : N) (pos : nat)
    (M : gmap N (list N)) : outcome (gmap N (list N) * nat)
    by wf (length W - pos) lt :=
  parse_dictionary W dictEnd pos M with decide (pos < length W) => {
    | right _ := Fail (Truncated pos)
    | left _ with W !! pos => {
      | None := Fail (Truncated pos)
      | Some metaToken with decide (metaToken = dictEnd) => {
        | left _ := Ok (M, S pos)
        | right _ with W !! (S pos) => {
          | None := Fail (Truncated (S pos))
          | Some len with read_definition dictEnd (drop (pos + 2) W) (pos + 2) len => {
            | Fail e := Fail e
            | Ok def :=
                parse_dictionary W dictEnd (pos + 2 + length def)
                  (<[metaToken := def]> M)
            } } } } }.
Proof. lia. Qed.

(** The result of expanding one token. *)
Inductive Expansion :=
| Expanded (tokens : list N)
| Undefined
| Cyclic
| Exhausted.

(** The expansions of the tokens of a definition, in order. *)
Definition expand_list (expand : N → Expansion) (tokens : list N) : Expansion :=
  foldr (λ t rest,
           match expand t with
           | Expanded a =>
               match rest with
               | Expanded b => Expanded (a ++ b)
               | failure => failure
               end
           | failure => failure
           end)
        (Expanded []) tokens.

(** Modelled from the spec: an ordinary token expands to itself and a
    meta-token to the expansion of its definition, depth first; the
    meta-tokens under expansion are marked ([visiting]), and meeting a
    marked one is a cycle.  The depth is bounded by [fuel]; with more
    fuel than entries it cannot run out ([expand_token_fuel]).
    Memoization changes the work, not the result, and is left out. *)
Fixpoint expand_token (fuel : nat) (cfg : Config) (M : gmap N (list N))
    (visiting : list N) (t : N) : Expansion :=
  if is_meta cfg t then
    if decide (t ∈ visiting) then Cyclic
    else
      match M !! t with
      | None => Undefined
      | Some def =>
          match fuel with
          | 0 => Exhausted
          | S fuel' => expand_list (expand_token fuel' cfg M (t :: visiting)) def
          end
      end
  else Expanded [t].

(** Modelled from the spec: the walk over the body, from offset [offset]. *)
Fixpoint expand_body (cfg : Config) (M : gmap N (list N)) (offset : nat)
    (body : list N) : outcome (list N) :=
  match body with
  | [] => Ok []
  | t :: rest =>
      match expand_token (S (size M)) cfg M [] t with
      | Expanded a =>
          match expand_body cfg M (S offset) rest with
          | Ok b => Ok (a ++ b)
          | Fail e => Fail e
          end
      | Undefined => Fail (UndefinedMetaToken offset)
      | Cyclic | Exhausted => Fail (Cycle offset)
      end
  end.

(** Modelled from the spec: [decompress(W, cfg)]. *)
Definition decompress (W : list N) (cfg : Config) : outcome (list N) :=
  match indexOf W (dict_start_token cfg) with
  | None => Ok W
  | Some start =>
      match parse_dictionary W (dict_end_token cfg) (S start) ∅ with
      | Fail e => Fail e
      | Ok (M, body_start) => expand_body cfg M body_start (drop body_start W)
      end
  end.

(** *** Selection, as the serializer receives it *)

(** Modelled from the spec: a selected pattern with the start positions of
    its chosen occurrences; a selection lists the selected patterns in
    selection order. *)
Record Selected := {
  pattern : list N;
  occurrences : list nat;
}.

(** Modelled from the spec: what sections 4.2 and 4.3 promise of a
    selection over the sequence [T]: a selected pattern is not empty, it
    has a chosen occurrence, and at each of its chosen positions the
    sequence holds the pattern. *)
Definition selection_ok (T : list N) (selection : list Selected) : Prop :=
  ∀ s, s ∈ selection →
    0 < length (pattern s) ∧
    occurrences s ≠ [] ∧
    ∀ i, i ∈ occurrences s → slice T i (i + length (pattern s)) = pattern s.

Definition plan_contract (plan : Config → list N → list Selected) : Prop :=
  ∀ cfg T, selection_ok T (plan cfg T).

(** *** Serializer (section 4.4) *)

(** Modelled from the spec: the [k]-th selected pattern gets the meta-token
    [base + k]. *)
Fixpoint assign (base : N) (selection : list Selected) : list (N * list N) :=
  match selection with
  | [] => []
  | s :: rest => (base, pattern s) :: assign (N.succ base) rest
  end.

(** The selected pattern with an occurrence at position [i]: its
    meta-token and its length. *)
Fixpoint selected_at (base : N) (selection : list Selected) (i : nat)
    : option (N * nat) :=
  match selection with
  | [] => None
  | s :: rest =>
      if decide (i ∈ occurrences s) then Some (base, length (pattern s))
      else selected_at (N.succ base) rest i
  end.

(** Modelled from the spec: the body is the sequence with every selected
    occurrence replaced by the meta-token of its pattern.  The scan is at
    position [i] of the sequence, [rest] is the sequence from there on,
    and [skip] tokens of an occurrence already replaced remain. *)
Fixpoint replace_from (base : N) (selection : list Selected) (i skip : nat)
    (rest : list N) : list N :=
  match rest with
  | [] => []
  | t :: rest' =>
      match skip with
      | S skip' => replace_from base selection (S i) skip' rest'
      | 0 =>
          match selected_at base selection i with
          | Some (meta, len) =>
              meta :: replace_from base selection (S i) (len - 1) rest'
          | None => t :: replace_from base selection (S i) 0 rest'
          end
      end
  end.

Definition replace_occurrences (base : N) (selection : list Selected)
    (T : list N) : list N :=
  replace_from base selection 0 0 T.

Section Engine.

(** Discovery followed by selection. *)
Variable plan : Config → list N → list Selected.

(** Modelled from the spec: the hierarchical driver.  Each pass plans
    over the body of the pass before, draws its meta-tokens from
    [base] on and needs that many free values in the meta range; the
    driver stops after [depth] passes or at an empty selection, and
    the dictionary is the concatenation of the passes' entries. *)
Fixpoint passes (cfg : Config) (depth : nat) (base : N) (T : list N)
    : outcome (list (N * list N) * list N) :=
  match depth with
  | 0 => Ok ([], T)
  | S depth' =>
      match plan cfg T with
      | [] => Ok ([], T)
      | selection =>
          if decide (dict_start_token cfg < base + N.of_nat (length selection))%N
          then Fail ConfigInvalid
          else
            match passes cfg depth' (base + N.of_nat (length selection))%N
                    (replace_occurrences base selection T) with
            | Ok (entries, body) => Ok (assign base selection ++ entries, body)
            | Fail e => Fail e
            end
      end
  end.

Definition pass_count (cfg : Config) : nat :=
  if hierarchical_enabled cfg then hierarchical_max_depth cfg else 1.

(** Modelled from the spec: every meta-token in a definition has its entry
    earlier in the dictionary ([defined] are the meta-tokens defined so
    far). *)
Fixpoint topologically_ordered (cfg : Config) (defined : list N)
    (entries : list (N * list N)) : bool :=
  match entries with
  | [] => true
  | (meta, def) :: rest =>
      forallb (λ t, negb (is_meta cfg t) || bool_decide (t ∈ defined)) def
      && topologically_ordered cfg (meta :: defined) rest
  end.

(** Modelled from the spec: the [CompressionResult] of section 3. *)
Record Result := {
  original_length : nat;
  compressed_length : nat;
  serialized_tokens : list N;
  dictionary_tokens : list N;
  body_tokens : list N;
  dictionary_map : gmap N (list N);
  original_tokens : list N;
}.

(** Modelled from the spec: the emitted stream; without entries it is the
    body alone. *)
Definition emit (cfg : Config) (T : list N) (entries : list (N * list N))
    (body : list N) : Result :=
  let dictionary :=
    match entries with
    | [] => []
    | _ => [dict_start_token cfg] ++ Layout.encode_entries entries
             ++ [dict_end_token cfg]
    end in
  {| original_length := length T;
     compressed_length := length (dictionary ++ body);
     serialized_tokens := dictionary ++ body;
     dictionary_tokens := dictionary;
     body_tokens := body;
     dictionary_map := Layout.dictionary_of entries;
     original_tokens := T |}.

(** The first offset at which two sequences differ. *)
Fixpoint first_difference (offset : nat) (a b : list N) : option nat :=
  match a, b with
  | [], [] => None
  | x :: a', y :: b' =>
      if decide (x = y) then first_difference (S offset) a' b' else Some offset
  | _, _ => Some offset
  end.

(** Modelled from the spec: [compress(T, cfg)].  The configuration and
    the input are validated first; the passes run; the ordering of the
    dictionary is checked before the stream is emitted; with [verify]
    the stream is decompressed and compared with the input. *)
Definition compress (T : list N) (cfg : Config) : outcome Result :=
  if negb (config_valid cfg) then Fail ConfigInvalid
  else if existsb (λ t, is_meta cfg t || is_control cfg t) T
  then Fail TokenRangeCollision
  else
    match passes cfg (pass_count cfg) (next_meta_token cfg) T with
    | Fail e => Fail e
    | Ok (entries, body) =>
        if negb (topologically_ordered cfg [] entries) then Fail TokenRangeCollision
        else
          let result := emit cfg T entries body in
          if verify cfg then
            match decompress (serialized_tokens result) cfg with
            | Fail e => Fail e
            | Ok T' =>
                match first_difference 0 T T' with
                | None => Ok result
                | Some offset => Fail (VerificationFailure offset)
                end
            end
          else Ok result
    end.

End Engine.

(** *** The meaning of a dictionary *)

(** The expansion of a token by a dictionary whose entries are given
    newest first and mention older entries only. *)
Fixpoint denote (newest_first : list (N * list N)) (t : N) : list N :=
  match newest_first with
  | [] => [t]
  | (meta, def) :: older =>
      if decide (t = meta) then def ≫= denote older else denote older t
  end.

(** A token that is not the dictionary-end token and is no meta-token from
    [base] on. *)
Definition settled (cfg : Config) (base : N) (t : N) : Prop :=
  t ≠ dict_end_token cfg ∧ ¬ (base ≤ t < dict_start_token cfg)%N.

(** *** A small planner *)

(** The positions from [i] on, [rest] being the sequence from there, at
    which the pattern [p] stands, taken greedily without overlap. *)
Fixpoint occurrences_from (p : list N) (i skip : nat) (rest : list N) : list nat :=
  match rest with
  | [] => []
  | _ :: rest' =>
      match skip with
      | S skip' => occurrences_from p (S i) skip' rest'
      | 0 =>
          if decide (take (length p) rest = p)
          then i :: occurrences_from p (S i) (length p - 1) rest'
          else occurrences_from p (S i) 0 rest'
      end
  end.

(** The compressibility constraint, with an overhead of zero. *)
Definition compressible (len count : nat) : bool :=
  bool_decide (len + count < len * count).

(** The longest prefix of the sequence, of a length from [min_len] to
    [min_len + span], that is compressible. *)
Fixpoint prefix_candidate (T : list N) (min_len span : nat) : list Selected :=
  let p := take (min_len + span) T in
  let positions := occurrences_from p 0 0 T in
  if compressible (length p) (length positions)
  then [{| pattern := p; occurrences := positions |}]
  else match span with
       | 0 => []
       | S span' => prefix_candidate T min_len span'
       end.

Definition prefix_plan (cfg : Config) (T : list N) : list Selected :=
  prefix_candidate T (min_subsequence_length cfg)
    (max_subsequence_length cfg - min_subsequence_length cfg).

(** *** The engine behind the WebAssembly interface *)

(** Modelled from the spec: the streaming driver accumulates its chunks
    and compresses once, at [finish]. *)
Record StreamingState := {
  sc_config : Wasm.WasmConfig;
  sc_tokens : list N;
}.

Definition error_message (e : Error) : string :=
  match e with
  | ConfigInvalid => "ConfigInvalid"
  | TokenRangeCollision => "TokenRangeCollision"
  | MemoryExceeded => "MemoryExceeded"
  | MalformedStream _ => "MalformedStream"
  | UndefinedMetaToken _ => "UndefinedMetaToken"
  | Cycle _ => "Cycle"
  | Truncated _ => "Truncated"
  | VerificationFailure _ => "VerificationFailure"
  end.

Definition to_js {A B} (f : A → B) (r : outcome A) : js_result B :=
  match r with
  | Ok a => Returned (f a)
  | Fail e => Thrown (error_message e)
  end.

Definition float_of_nat (n : nat) : float :=
  PrimFloat.of_uint63 (Uint63.of_Z (Z.of_nat n)).

Definition to_wasm_result (r : Result) : Wasm.CompressionResultWasm := {|
  Wasm.compression_ratio :=
    if decide (original_length r = 0) then 1%float
    else (float_of_nat (compressed_length r) / float_of_nat (original_length r))%float;
  Wasm.tokens_saved := N.of_nat (original_length r - compressed_length r);
  Wasm.original_length := N.of_nat (original_length r);
  Wasm.compressed_length := N.of_nat (compressed_length r);
  Wasm.getSerializedTokens := serialized_tokens r;
  Wasm.getDictionaryTokens := dictionary_tokens r;
  Wasm.getBodyTokens := body_tokens r;
  Wasm.getOriginalTokens := original_tokens r;
  Wasm.getStaticDictionaryId := None;
|}.

(** The exports of the engine, for a planner [plan] and a discovery
    function [discover]. *)
Definition exports (plan : Config → list N → list Selected)
    (discover : list N → N → N → list Wasm.DiscoveredPattern)
    : Wasm.WasmExports StreamingState := {|
  Wasm.compress := λ tokens config,
    to_js to_wasm_result (compress plan tokens (resolve config));
  Wasm.decompress := λ tokens config,
    to_js (λ T, T) (decompress tokens (resolve config));
  Wasm.discover_patterns := λ tokens min_len max_len,
    Returned (discover tokens min_len max_len);
  Wasm.version := "0.1.0";
  Wasm.StreamingCompressor := λ config,
    Returned {| sc_config := config; sc_tokens := [] |};
  Wasm.add_chunk := λ state tokens,
    ({| sc_config := sc_config state; sc_tokens := sc_tokens state ++ tokens |},
     Returned ());
  Wasm.finish := λ state,
    (state,
     to_js to_wasm_result (compress plan (sc_tokens state) (resolve (sc_config state))));
  Wasm.memory_usage := λ state, N.of_nat (4 * length (sc_tokens state));
|}.

End Core.

(** ** Example objects *)

Module Examples.

(** A core whose streaming compressor counts the tokens it is given and
    whose results carry a dictionary written with the control tokens 100
    and 101. *)
Definition custom_token_result (n : N) : Wasm.CompressionResultWasm := {|
  Wasm.compression_ratio := 1%float;
  Wasm.tokens_saved := 0;
  Wasm.original_length := n;
  Wasm.compressed_length := n;
  Wasm.getSerializedTokens := [100; 500; 2; 7; 8; 101; 500; 500]%N;
  Wasm.getDictionaryTokens := [100; 500; 2; 7; 8; 101]%N;
  Wasm.getBodyTokens := [500; 500]%N;
  Wasm.getOriginalTokens := [7; 8; 7; 8]%N;
  Wasm.getStaticDictionaryId := None;
|}.

Definition custom_token_wasm : Wasm.WasmExports N := {|
  Wasm.compress := λ tokens _, Returned (custom_token_result (N.of_nat (length tokens)));
  Wasm.decompress := λ tokens _, Returned tokens;
  Wasm.discover_patterns := λ _ _ _, Returned [];
  Wasm.version := "0.1.0";
  Wasm.StreamingCompressor := λ _, Returned 0%N;
  Wasm.add_chunk := λ n tokens, ((n + N.of_nat (length tokens))%N, Returned ());
  Wasm.finish := λ n, (n, Returned (custom_token_result n));
  Wasm.memory_usage := λ n, (4 * n)%N;
|}.

(** A second core without state, of another version. *)
Definition custom_token_wasm_unit : Wasm.WasmExports unit := {|
  Wasm.compress := λ tokens _, Returned (custom_token_result (N.of_nat (length tokens)));
  Wasm.decompress := λ tokens _, Returned tokens;
  Wasm.discover_patterns := λ _ _ _, Returned [];
  Wasm.version := "0.2.0";
  Wasm.StreamingCompressor := λ _, Returned ();
  Wasm.add_chunk := λ _ _, ((), Returned ());
  Wasm.finish := λ _, ((), Returned (custom_token_result 0));
  Wasm.memory_usage := λ _, 0%N;
|}.

(** A configuration with the control tokens 100 and 101. *)
Definition custom_token_config : CompressionConfig := {|
  minSubsequenceLength := None;
  maxSubsequenceLength := None;
  selectionMode := None;
  beamWidth := None;
  hierarchicalEnabled := None;
  hierarchicalMaxDepth := None;
  staticDictionary := None;
  streamingThreshold := None;
  maxMemoryMb := None;
  verify := None;
  dictStartToken := Some 100%N;
  dictEndToken := Some 101%N;
  nextMetaToken := Some 500%N;
|}.

(** A core whose streaming compressor keeps the tokens and the
    configuration it is given and whose [finish] is its [compress] on
    what it has kept; [compress] reports its input as the body, and
    throws on an empty input. *)
Definition keeping_compress (tokens : list N) (config : Wasm.WasmConfig)
    : js_result Wasm.CompressionResultWasm :=
  if decide (tokens = []) then Thrown "empty input"
  else Returned {|
    Wasm.compression_ratio := 1%float;
    Wasm.tokens_saved := 0;
    Wasm.original_length := N.of_nat (length tokens);
    Wasm.compressed_length := N.of_nat (length tokens);
    Wasm.getSerializedTokens := tokens;
    Wasm.getDictionaryTokens := [];
    Wasm.getBodyTokens := tokens;
    Wasm.getOriginalTokens := tokens;
    Wasm.getStaticDictionaryId := None;
  |}.

Definition keeping_wasm : Wasm.WasmExports (list N * Wasm.WasmConfig) := {|
  Wasm.compress := keeping_compress;
  Wasm.decompress := λ tokens _, Returned tokens;
  Wasm.discover_patterns := λ _ _ _, Returned [];
  Wasm.version := "0.1.0";
  Wasm.StreamingCompressor := λ config, Returned ([], config);
  Wasm.add_chunk := λ c tokens, ((c.1 ++ tokens, c.2), Returned ());
  Wasm.finish := λ c, (c, keeping_compress c.1 c.2);
  Wasm.memory_usage := λ c, N.of_nat (4 * length c.1);
|}.

(** A configuration with a streaming threshold of two tokens. *)
Definition low_threshold_config : CompressionConfig := {|
  minSubsequenceLength := None;
  maxSubsequenceLength := None;
  selectionMode := None;
  beamWidth := None;
  hierarchicalEnabled := None;
  hierarchicalMaxDepth := None;
  staticDictionary := None;
  streamingThreshold := Some 2%N;
  maxMemoryMb := None;
  verify := None;
  dictStartToken := None;
  dictEndToken := None;
  nextMetaToken := None;
|}.

(** A configuration whose meta-tokens start at 500. *)
Definition first_meta_token_config : CompressionConfig := {|
  minSubsequenceLength := None;
  maxSubsequenceLength := None;
  selectionMode := None;
  beamWidth := None;
  hierarchicalEnabled := None;
  hierarchicalMaxDepth := None;
  staticDictionary := None;
  streamingThreshold := None;
  maxMemoryMb := None;
  verify := None;
  dictStartToken := None;
  dictEndToken := None;
  nextMetaToken := Some 500%N;
|}.

(** A configuration whose dictionary-end token is [2^32 + 1], which is
    no 32-bit token. *)
Definition wide_end_token_config : CompressionConfig := {|
  minSubsequenceLength := None;
  maxSubsequenceLength := None;
  selectionMode := None;
  beamWidth := None;
  hierarchicalEnabled := None;
  hierarchicalMaxDepth := None;
  staticDictionary := None;
  streamingThreshold := None;
  maxMemoryMb := None;
  verify := None;
  dictStartToken := None;
  dictEndToken := Some 4294967297%N;
  nextMetaToken := None;
|}.

(** A global scope with [process.versions.node] and nothing else: no
    [window], no [Deno] and no [navigator], as in the versions of Node.js
    before 21 (later versions have a [navigator] with
    [hardwareConcurrency]). *)
Definition node_globals : Loader.Globals := {|
  Loader.has_Deno := false;
  Loader.has_window := false;
  Loader.has_window_document := false;
  Loader.has_process := true;
  Loader.process_versions := true;
  Loader.process_versions_node := true;
  Loader.navigator_hardwareConcurrency := None;
|}.

(** The SDK in a worker whose core is [custom_token_wasm]: [compress]
    gives the converted result of the core and [decompress] throws. *)
Definition worker_compress (tokens : list N) (config : option CompressionConfig)
    : js_result Compress.CompressionResult :=
  Returned (Compress.convertWasmResult
              (custom_token_result (N.of_nat (length tokens))) None 0).

Definition worker_decompress (tokens : list N) (config : option DecompressionConfig)
    : js_result (list N) :=
  Thrown "MalformedStream".

End Examples.

(** * Properties *)

(** ** Arrays and normalization *)

Section ArrayFacts.

Implicit Types (a pre rest : list N) (x t : N).

Lemma normalizeTokens_token_seq tokens :
  TokenSeq tokens → normalizeTokens tokens = tokens.
Proof.
  unfold TokenSeq, normalizeTokens. induction 1 as [|t ts Ht _ IH]; [done|].
  cbn. rewrite IH. f_equal. apply N.mod_small, Ht.
Qed.

Lemma normalizeTokens_is_token_seq tokens : TokenSeq (normalizeTokens tokens).
Proof.
  unfold TokenSeq, normalizeTokens. apply Forall_fmap, Forall_true.
  intros t. cbn. unfold is_token. apply N.mod_lt. done.
Qed.

Lemma normalizeTokens_length tokens :
  length (normalizeTokens tokens) = length tokens.
Proof. unfold normalizeTokens. apply length_fmap. Qed.

Lemma indexOf_None a x : indexOf a x = None ↔ x ∉ a.
Proof.
  induction a as [|t a IH]; cbn.
  - split; [intros _; apply not_elem_of_nil | done].
  - destruct (decide (t = x)) as [->|Hne].
    + split; [done|]. intros []. left.
    + rewrite fmap_None, IH, not_elem_of_cons. intuition congruence.
Qed.

Lemma indexOf_first pre x rest :
  x ∉ pre → indexOf (pre ++ x :: rest) x = Some (length pre).
Proof.
  induction pre as [|t pre IH]; cbn; intros Hpre.
  - by rewrite decide_True.
  - apply not_elem_of_cons in Hpre as [Hne Hpre].
    rewrite decide_False by done. by rewrite IH.
Qed.

Lemma indexOf_Some a x i :
  indexOf a x = Some i → a !! i = Some x ∧ x ∉ take i a.
Proof.
  revert i. induction a as [|t a IH]; cbn; [done|]. intros i.
  destruct (decide (t = x)) as [->|Hne].
  - intros [= <-]. split; [done | apply not_elem_of_nil].
  - destruct (indexOf a x) as [j|] eqn:Hj; [|done]. intros [= <-].
    destruct (IH j eq_refl) as [? ?]. split; [done|].
    cbn. apply not_elem_of_cons. done.
Qed.

Lemma includes_false a x : includes a x = false ↔ x ∉ a.
Proof. unfold includes. apply bool_decide_eq_false. Qed.

Lemma slice_middle pre mid rest :
  slice (pre ++ mid ++ rest) (length pre) (length pre + length mid) = mid.
Proof.
  unfold slice. rewrite drop_app_length.
  replace (length pre + length mid - length pre) with (length mid) by lia.
  by rewrite take_app_length.
Qed.

End ArrayFacts.

(** ** The three dictionary parsers *)

Section ParserFacts.

Import Layout.

Implicit Types (a pre rest def body : list N) (map : gmap N (list N)).
Implicit Types (entries : list (N * list N)).

(** One turn of each loop, as a single equation. *)
Lemma extractDictionary_loop_unfold a dictEnd pos map :
  Decompress.extractDictionary_loop a dictEnd pos map =
  match a !! pos with
  | None => map
  | Some metaToken =>
      if decide (metaToken = dictEnd) then map
      else match a !! (pos + 1) with
           | None => <[metaToken := []]> map
           | Some len =>
               if decide (length a < pos + 2 + N.to_nat len) then map
               else Decompress.extractDictionary_loop a dictEnd (pos + 2 + N.to_nat len)
                      (<[metaToken := slice a (pos + 2) (pos + 2 + N.to_nat len)]> map)
           end
  end.
Proof.
  rewrite Decompress.extractDictionary_loop_equation_1.
  destruct (a !! pos) as [metaToken|]; cbn; [|done].
  destruct (decide (metaToken = dictEnd)); cbn; [done|].
  destruct (a !! (pos + 1)) as [len|]; cbn; [|done].
  by destruct (decide (length a < pos + 2 + N.to_nat len)).
Qed.

Lemma buildDictionaryMap_loop_unfold a dictEnd pos map :
  Compress.buildDictionaryMap_loop a dictEnd pos map =
  if decide (pos < length a) then
    match a !! pos with
    | None => map
    | Some metaToken =>
        if decide (metaToken = dictEnd) then map
        else match a !! (pos + 1) with
             | None => <[metaToken := []]> map
             | Some len =>
                 if decide (length a < pos + 2 + N.to_nat len) then map
                 else Compress.buildDictionaryMap_loop a dictEnd (pos + 2 + N.to_nat len)
                        (<[metaToken := slice a (pos + 2) (pos + 2 + N.to_nat len)]> map)
             end
    end
  else map.
Proof.
  rewrite Compress.buildDictionaryMap_loop_equation_1.
  destruct (decide (pos < length a)); cbn; [|done].
  destruct (a !! pos) as [metaToken|]; cbn; [|done].
  destruct (decide (metaToken = dictEnd)); cbn; [done|].
  destruct (a !! (pos + 1)) as [len|]; cbn; [|done].
  by destruct (decide (length a < pos + 2 + N.to_nat len)).
Qed.

Lemma finish_loop_unfold a dictEnd pos map :
  Streaming.finish_loop a dictEnd pos map =
  if decide (pos < length a) then
    match a !! pos with
    | None => map
    | Some metaToken =>
        if decide (metaToken = dictEnd) then map
        else match a !! (pos + 1) with
             | None => <[metaToken := []]> map
             | Some len =>
                 if decide (length a < pos + 2 + N.to_nat len) then map
                 else Streaming.finish_loop a dictEnd (pos + 2 + N.to_nat len)
                        (<[metaToken := slice a (pos + 2) (pos + 2 + N.to_nat len)]> map)
             end
    end
  else map.
Proof.
  rewrite Streaming.finish_loop_equation_1.
  destruct (decide (pos < length a)); cbn; [|done].
  destruct (a !! pos) as [metaToken|]; cbn; [|done].
  destruct (decide (metaToken = dictEnd)); cbn; [done|].
  destruct (a !! (pos + 1)) as [len|]; cbn; [|done].
  by destruct (decide (length a < pos + 2 + N.to_nat len)).
Qed.

(** The loops of [buildDictionaryMap] and of [finish] test
    [pos < length] before they read; the read of [extractDictionary]
    past the end is [undefined], which differs from every token. *)
Lemma buildDictionaryMap_loop_extract a dictEnd pos map :
  Compress.buildDictionaryMap_loop a dictEnd pos map =
  Decompress.extractDictionary_loop a dictEnd pos map.
Proof.
  remember (length a - pos) as k eqn:Hk.
  revert pos map Hk. induction (lt_wf k) as [k _ IH]. intros pos map ->.
  rewrite buildDictionaryMap_loop_unfold, extractDictionary_loop_unfold.
  destruct (decide (pos < length a)) as [Hlt|Hge].
  - destruct (a !! pos) as [metaToken|]; [|done].
    destruct (decide (metaToken = dictEnd)); [done|].
    destruct (a !! (pos + 1)) as [len|]; [|done].
    destruct (decide (length a < pos + 2 + N.to_nat len)); [done|].
    eapply IH; [|done]. lia.
  - rewrite lookup_ge_None_2 by lia. done.
Qed.

Lemma finish_loop_extract a dictEnd pos map :
  Streaming.finish_loop a dictEnd pos map =
  Decompress.extractDictionary_loop a dictEnd pos map.
Proof.
  remember (length a - pos) as k eqn:Hk.
  revert pos map Hk. induction (lt_wf k) as [k _ IH]. intros pos map ->.
  rewrite finish_loop_unfold, extractDictionary_loop_unfold.
  destruct (decide (pos < length a)) as [Hlt|Hge].
  - destruct (a !! pos) as [metaToken|]; [|done].
    destruct (decide (metaToken = dictEnd)); [done|].
    destruct (a !! (pos + 1)) as [len|]; [|done].
    destruct (decide (length a < pos + 2 + N.to_nat len)); [done|].
    eapply IH; [|done]. lia.
  - rewrite lookup_ge_None_2 by lia. done.
Qed.

(** The search loops stop at the first dictionary-start token, or at the
    end of the array. *)
Lemma buildDictionaryMap_find_spec a dictStart pos :
  pos ≤ length a →
  Compress.buildDictionaryMap_find a dictStart pos =
  pos + default (length a - pos) (indexOf (drop pos a) dictStart).
Proof.
  remember (length a - pos) as k eqn:Hk.
  revert pos Hk. induction (lt_wf k) as [k _ IH]. intros pos -> Hle.
  rewrite Compress.buildDictionaryMap_find_equation_1.
  destruct (decide (pos < length a)) as [Hlt|Hge]; cbn.
  - destruct (lookup_lt_is_Some_2 a pos Hlt) as [t Ht].
    rewrite (drop_S _ _ _ Ht). cbn.
    destruct (decide (a !! pos = Some dictStart)) as [Heq|Hne]; cbn.
    + rewrite Ht in Heq. injection Heq as ->. rewrite decide_True by done. cbn. lia.
    + rewrite decide_False by congruence.
      rewrite (IH (length a - (pos + 1))) by lia.
      replace (pos + 1) with (S pos) by lia.
      destruct (indexOf (drop (S pos) a) dictStart); cbn; lia.
  - rewrite drop_ge by lia. cbn. lia.
Qed.

Lemma finish_find_spec a dictStart pos :
  pos ≤ length a →
  Streaming.finish_find a dictStart pos =
  pos + default (length a - pos) (indexOf (drop pos a) dictStart).
Proof.
  remember (length a - pos) as k eqn:Hk.
  revert pos Hk. induction (lt_wf k) as [k _ IH]. intros pos -> Hle.
  rewrite Streaming.finish_find_equation_1.
  destruct (decide (pos < length a)) as [Hlt|Hge]; cbn.
  - destruct (lookup_lt_is_Some_2 a pos Hlt) as [t Ht].
    rewrite (drop_S _ _ _ Ht). cbn.
    destruct (decide (a !! pos = Some dictStart)) as [Heq|Hne]; cbn.
    + rewrite Ht in Heq. injection Heq as ->. rewrite decide_True by done. cbn. lia.
    + rewrite decide_False by congruence.
      rewrite (IH (length a - (pos + 1))) by lia.
      replace (pos + 1) with (S pos) by lia.
      destruct (indexOf (drop (S pos) a) dictStart); cbn; lia.
  - rewrite drop_ge by lia. cbn. lia.
Qed.

Lemma extractDictionary_loop_past_end a dictEnd pos map :
  length a ≤ pos → Decompress.extractDictionary_loop a dictEnd pos map = map.
Proof.
  intros Hle. rewrite extractDictionary_loop_unfold.
  by rewrite lookup_ge_None_2.
Qed.

End ParserFacts.

(** ** Streams in the wire format *)

Section StreamFacts.

Import Layout.

Implicit Types (a pre rest def body : list N) (map : gmap N (list N)).
Implicit Types (entries : list (N * list N)).

Lemma encode_entries_cons entry entries :
  encode_entries (entry :: entries) = encode_entry entry ++ encode_entries entries.
Proof. done. Qed.

Lemma entries_avoid_metas t entries :
  entries_avoid t entries → metas_avoid t entries.
Proof.
  unfold entries_avoid, metas_avoid.
  induction entries as [|[m def] entries IH]; [done|].
  rewrite encode_entries_cons. cbn. rewrite !not_elem_of_cons, not_elem_of_app.
  tauto.
Qed.

(** The loop walks over well-formed entries and stores each of them. *)
Lemma extractDictionary_loop_entries entries pre rest dictEnd map :
  metas_avoid dictEnd entries →
  Decompress.extractDictionary_loop (pre ++ encode_entries entries ++ rest) dictEnd
    (length pre) map =
  Decompress.extractDictionary_loop (pre ++ encode_entries entries ++ rest) dictEnd
    (length pre + length (encode_entries entries))
    (foldl (λ map entry, <[entry.1 := entry.2]> map) map entries).
Proof.
  revert pre map. induction entries as [|[m def] entries IH]; intros pre map Havoid.
  - cbn. by rewrite Nat.add_0_r.
  - apply not_elem_of_cons in Havoid as [Hm Havoid]. cbn in Hm.
    rewrite encode_entries_cons. unfold encode_entry. cbn [fst snd foldl].
    set (len := N.of_nat (length def)).
    set (a := pre ++ ((m :: len :: def) ++ encode_entries entries) ++ rest).
    assert (Ha : a = (pre ++ m :: len :: def) ++ encode_entries entries ++ rest).
    { subst a. by rewrite <- !app_assoc. }
    assert (Hlen : N.to_nat len = length def) by (subst len; lia).
    rewrite extractDictionary_loop_unfold.
    assert (a !! length pre = Some m) as ->.
    { subst a. by rewrite lookup_app_r, Nat.sub_diag by lia. }
    rewrite decide_False by done.
    assert (a !! (length pre + 1) = Some len) as ->.
    { subst a. rewrite lookup_app_r by lia.
      by replace (length pre + 1 - length pre) with 1 by lia. }
    rewrite decide_False.
    2:{ rewrite Ha, !length_app. cbn. lia. }
    assert (slice a (length pre + 2) (length pre + 2 + N.to_nat len) = def) as ->.
    { rewrite Hlen. subst a.
      replace (pre ++ ((m :: len :: def) ++ encode_entries entries) ++ rest)
        with ((pre ++ [m; len]) ++ def ++ (encode_entries entries ++ rest))
        by (by rewrite <- !app_assoc).
      replace (length pre + 2) with (length (pre ++ [m; len]))
        by (rewrite length_app; cbn; lia).
      apply slice_middle. }
    replace (length pre + 2 + N.to_nat len) with (length (pre ++ m :: len :: def))
      by (rewrite length_app; cbn; lia).
    rewrite Ha, IH by done. f_equal.
    rewrite !length_app. cbn. lia.
Qed.

(** Every lookup in [dictionary_of] is the last definition given for the
    meta-token. *)
Lemma dictionary_of_snoc entries m def :
  dictionary_of (entries ++ [(m, def)]) = <[m := def]> (dictionary_of entries).
Proof. unfold dictionary_of. by rewrite foldl_app. Qed.

Lemma dictionary_of_lookup_NoDup entries m def :
  NoDup entries.*1 → (m, def) ∈ entries → dictionary_of entries !! m = Some def.
Proof.
  induction entries as [|[m' def'] entries IH] using rev_ind; [by intros _ ?%elem_of_nil|].
  rewrite fmap_app, NoDup_app, dictionary_of_snoc. cbn.
  intros (Hnd & Hfresh & _) [Hin|Hin%list_elem_of_singleton]%elem_of_app.
  - rewrite lookup_insert_ne; [by apply IH|].
    intros ->. eapply Hfresh; [|left].
    apply list_elem_of_fmap. by exists (m, def).
  - injection Hin as -> ->. by rewrite lookup_insert_eq.
Qed.

Lemma dictionary_of_dom entries m :
  is_Some (dictionary_of entries !! m) ↔ m ∈ entries.*1.
Proof.
  induction entries as [|[m' def'] entries IH] using rev_ind.
  - cbn. rewrite elem_of_nil. unfold dictionary_of. cbn.
    rewrite lookup_empty. split; [by intros [? ?]|done].
  - rewrite dictionary_of_snoc, fmap_app, elem_of_app. cbn.
    rewrite list_elem_of_singleton, lookup_insert_is_Some, IH.
    destruct (decide (m' = m)); intuition congruence.
Qed.

Lemma stream_lookup_end dictStart dictEnd entries body :
  stream dictStart dictEnd entries body !! (1 + length (encode_entries entries))
  = Some dictEnd.
Proof.
  unfold stream. rewrite !lookup_app_r by (cbn [length]; lia).
  cbn [length]. by replace (1 + _ - 1 - _) with 0 by lia.
Qed.

Lemma stream_split dictStart dictEnd entries body :
  stream dictStart dictEnd entries body
  = ([dictStart] ++ encode_entries entries) ++ dictEnd :: body.
Proof. unfold stream. by rewrite <- app_assoc. Qed.

End StreamFacts.

(** ** The deserializer of the engine *)

Section CoreParseFacts.

Import Layout.

Implicit Types (W pre rest def body : list N) (M : gmap N (list N)).
Implicit Types (entries : list (N * list N)).

Lemma read_definition_exact dictEnd def rest pos :
  dictEnd ∉ def →
  Core.read_definition dictEnd (def ++ rest) pos (N.of_nat (length def)) = Core.Ok def.
Proof.
  revert pos. induction def as [|t def IH]; intros pos Havoid.
  - by destruct rest.
  - apply not_elem_of_cons in Havoid as [Hne Havoid].
    cbn [app length Core.read_definition].
    rewrite decide_False by lia. rewrite decide_False by done.
    replace (N.pred (N.of_nat (S (length def)))) with (N.of_nat (length def)) by lia.
    by rewrite IH.
Qed.

Lemma parse_dictionary_unfold W dictEnd pos M :
  Core.parse_dictionary W dictEnd pos M =
  if decide (pos < length W) then
    match W !! pos with
    | None => Core.Fail (Core.Truncated pos)
    | Some metaToken =>
        if decide (metaToken = dictEnd) then Core.Ok (M, S pos)
        else match W !! S pos with
             | None => Core.Fail (Core.Truncated (S pos))
             | Some len =>
                 match Core.read_definition dictEnd (drop (pos + 2) W) (pos + 2) len with
                 | Core.Fail e => Core.Fail e
                 | Core.Ok def =>
                     Core.parse_dictionary W dictEnd (pos + 2 + length def)
                       (<[metaToken := def]> M)
                 end
             end
    end
  else Core.Fail (Core.Truncated pos).
Proof.
  rewrite Core.parse_dictionary_equation_1.
  destruct (decide (pos < length W)); cbn; [|done].
  destruct (W !! pos) as [metaToken|]; cbn; [|done].
  destruct (decide (metaToken = dictEnd)); cbn; [done|].
  destruct (W !! S pos) as [len|]; cbn; [|done].
  by destruct (Core.read_definition dictEnd (drop (pos + 2) W) (pos + 2) len).
Qed.

(** No meta-token and no definition token of the entries is [t]. *)
Lemma parse_dictionary_entries entries pre rest dictEnd M :
  (∀ meta def, (meta, def) ∈ entries → meta ≠ dictEnd ∧ dictEnd ∉ def) →
  rest ≠ [] →
  Core.parse_dictionary (pre ++ encode_entries entries ++ rest) dictEnd (length pre) M =
  Core.parse_dictionary (pre ++ encode_entries entries ++ rest) dictEnd
    (length pre + length (encode_entries entries))
    (foldl (λ map entry, <[entry.1 := entry.2]> map) M entries).
Proof.
  intros Havoid Hrest. revert pre M.
  induction entries as [|[m def] entries IH]; intros pre M.
  - cbn. by rewrite Nat.add_0_r.
  - destruct (Havoid m def) as [Hm Hdef]; [left|].
    rewrite encode_entries_cons. unfold encode_entry. cbn [fst snd foldl].
    set (len := N.of_nat (length def)).
    set (W := pre ++ ((m :: len :: def) ++ encode_entries entries) ++ rest).
    assert (HW : W = (pre ++ m :: len :: def) ++ encode_entries entries ++ rest).
    { subst W. by rewrite <- !app_assoc. }
    assert (HW' : W = (pre ++ [m; len]) ++ def ++ encode_entries entries ++ rest).
    { subst W. by rewrite <- !app_assoc. }
    rewrite parse_dictionary_unfold.
    rewrite decide_True by (rewrite HW, !length_app; cbn; lia).
    assert (W !! length pre = Some m) as ->.
    { subst W. by apply list_lookup_middle. }
    rewrite decide_False by done.
    assert (W !! S (length pre) = Some len) as ->.
    { rewrite HW'. rewrite (assoc_L (++) _ def), lookup_app_l
        by (rewrite !length_app; cbn; lia).
      rewrite lookup_app_l by (rewrite !length_app; cbn; lia).
      rewrite lookup_app_r by lia. by replace (S (length pre) - length pre) with 1 by lia. }
    assert (drop (length pre + 2) W = def ++ encode_entries entries ++ rest) as ->.
    { rewrite HW'. apply drop_app_length'. rewrite length_app. cbn. lia. }
    subst len. rewrite read_definition_exact by done.
    replace (length pre + 2 + length def)
      with (length (pre ++ m :: N.of_nat (length def) :: def))
      by (rewrite length_app; cbn; lia).
    rewrite HW, IH.
    + f_equal. rewrite !length_app. cbn. lia.
    + intros meta def' Hin. apply Havoid. by right.
Qed.

Lemma parse_dictionary_stream dictStart dictEnd entries body :
  (∀ meta def, (meta, def) ∈ entries → meta ≠ dictEnd ∧ dictEnd ∉ def) →
  Core.parse_dictionary (stream dictStart dictEnd entries body) dictEnd 1 ∅
  = Core.Ok (dictionary_of entries, 2 + length (encode_entries entries)).
Proof.
  intros Havoid. unfold stream.
  rewrite (parse_dictionary_entries entries [dictStart] ([dictEnd] ++ body)) by done.
  rewrite parse_dictionary_unfold.
  rewrite decide_True by (rewrite !length_app; cbn; lia).
  change ([dictStart] ++ encode_entries entries ++ [dictEnd] ++ body)
    with (stream dictStart dictEnd entries body).
  cbn [length]. rewrite stream_lookup_end.
  by rewrite decide_True.
Qed.

Lemma stream_body dictStart dictEnd entries body :
  drop (2 + length (encode_entries entries)) (stream dictStart dictEnd entries body)
  = body.
Proof.
  rewrite stream_split, cons_middle, app_assoc.
  apply drop_app_length'. rewrite !length_app. cbn. lia.
Qed.

End CoreParseFacts.

(** ** Expansion against the meaning of an ordered dictionary *)

Section CoreExpandFacts.

Import Layout.

Implicit Types (cfg : Core.Config) (M : gmap N (list N)) (t u : N).
Implicit Types (entries older newer : list (N * list N)) (ts def : list N).

Lemma expand_token_unfold fuel cfg M visiting t :
  Core.expand_token fuel cfg M visiting t =
  if Core.is_meta cfg t then
    if decide (t ∈ visiting) then Core.Cyclic
    else match M !! t with
         | None => Core.Undefined
         | Some def =>
             match fuel with
             | 0 => Core.Exhausted
             | S fuel' =>
                 Core.expand_list (Core.expand_token fuel' cfg M (t :: visiting)) def
             end
         end
  else Core.Expanded [t].
Proof. by destruct fuel. Qed.

Lemma expand_list_expanded (expand : N → Core.Expansion) (g : N → list N) ts :
  (∀ u, u ∈ ts → expand u = Core.Expanded (g u)) →
  Core.expand_list expand ts = Core.Expanded (ts ≫= g).
Proof.
  induction ts as [|u ts IH]; intros Hall; [done|].
  rewrite bind_cons. unfold Core.expand_list in *. cbn [foldr].
  rewrite Hall by left. rewrite IH; [done|].
  intros v Hv. apply Hall. by right.
Qed.

Lemma expand_body_expanded cfg M (g : N → list N) offset body :
  (∀ t, t ∈ body → Core.expand_token (S (size M)) cfg M [] t = Core.Expanded (g t)) →
  Core.expand_body cfg M offset body = Core.Ok (body ≫= g).
Proof.
  revert offset. induction body as [|t body IH]; intros offset Hall; [done|].
  rewrite bind_cons. cbn [Core.expand_body]. rewrite Hall by left.
  rewrite IH; [done|]. intros u Hu. apply Hall. by right.
Qed.

Lemma denote_fresh older t : t ∉ older.*1 → Core.denote older t = [t].
Proof.
  induction older as [|[m def] older IH]; [done|].
  cbn. intros [Hne Hfresh]%not_elem_of_cons.
  rewrite decide_False by done. by apply IH.
Qed.

Lemma denote_skip newer older t :
  t ∉ newer.*1 → Core.denote (newer ++ older) t = Core.denote older t.
Proof.
  induction newer as [|[m def] newer IH]; [done|].
  cbn. intros [Hne Hfresh]%not_elem_of_cons.
  rewrite decide_False by done. by apply IH.
Qed.

Lemma bind_denote_ext (f g : N → list N) ts :
  (∀ u, u ∈ ts → f u = g u) → ts ≫= f = ts ≫= g.
Proof.
  induction ts as [|u ts IH]; intros Hall; [done|].
  rewrite !bind_cons. rewrite Hall by left. rewrite IH; [done|].
  intros v Hv. apply Hall. by right.
Qed.

Lemma bind_denote_nil ts : ts ≫= Core.denote [] = ts.
Proof. induction ts as [|u ts IH]; [done|]. rewrite bind_cons. by rewrite IH. Qed.

Lemma dictionary_of_size entries :
  NoDup entries.*1 → size (dictionary_of entries) = length entries.
Proof.
  induction entries as [|[m def] entries IH] using rev_ind; [done|].
  rewrite fmap_app, NoDup_app, dictionary_of_snoc, length_app. cbn.
  intros (Hnd & Hfresh & _).
  rewrite map_size_insert_None; [rewrite IH by done; lia|].
  apply eq_None_not_Some. rewrite dictionary_of_dom.
  intros Hin. eapply Hfresh; [done|left].
Qed.

(** The order check of the serializer, entry by entry. *)
Lemma topologically_ordered_lookup cfg defined entries i meta def u :
  Core.topologically_ordered cfg defined entries = true →
  entries !! i = Some (meta, def) → u ∈ def → Core.is_meta cfg u = true →
  u ∈ defined ∨ u ∈ (take i entries).*1.
Proof.
  revert defined i. induction entries as [|[m0 def0] entries IH]; intros defined i; [done|].
  cbn [Core.topologically_ordered]. intros [Hhead Htail]%andb_prop Hi Hu Hmeta.
  destruct i as [|i]; cbn in Hi.
  - injection Hi as -> ->. left.
    rewrite forallb_forall in Hhead.
    assert (Hb := Hhead u (proj1 (list_elem_of_In _ _) Hu)).
    rewrite Hmeta in Hb. cbn in Hb. by apply bool_decide_eq_true in Hb.
  - destruct (IH (m0 :: defined) i Htail Hi Hu Hmeta) as [Hin|Hin].
    + apply elem_of_cons in Hin as [->|Hin]; [right; cbn; left | by left].
    + right. cbn. by right.
Qed.

Section Ordered.

Variables (cfg : Core.Config) (entries : list (N * list N)).

(** The [i]-th entry defines the meta-token [next_meta_token + i], all of
    them are in the meta range, and the order check passes. *)
Hypothesis Hkeys : ∀ i meta def,
  entries !! i = Some (meta, def) → meta = (Core.next_meta_token cfg + N.of_nat i)%N.
Hypothesis Hrange :
  (Core.next_meta_token cfg + N.of_nat (length entries) ≤ Core.dict_start_token cfg)%N.
Hypothesis Hordered : Core.topologically_ordered cfg [] entries = true.

Lemma ordered_key_lookup i meta :
  meta ∈ (take i entries).*1 ↔
  ∃ j, j < i ∧ j < length entries ∧ meta = (Core.next_meta_token cfg + N.of_nat j)%N.
Proof.
  rewrite list_elem_of_fmap. split.
  - intros ([m def] & -> & Hin). apply list_elem_of_lookup in Hin as [j Hj].
    apply lookup_take_Some in Hj as [Hj Hlt]. exists j.
    split; [done|]. split; [by eapply lookup_lt_Some|]. by eapply Hkeys.
  - intros (j & Hlt & Hlen & ->).
    destruct (lookup_lt_is_Some_2 entries j Hlen) as [[m def] Hj].
    exists (m, def). split; [cbn; symmetry; by eapply Hkeys|].
    apply list_elem_of_lookup. exists j. by rewrite lookup_take_lt.
Qed.

Lemma ordered_key_meta i meta :
  meta ∈ (take i entries).*1 → Core.is_meta cfg meta = true.
Proof.
  intros (j & _ & Hlen & ->)%ordered_key_lookup.
  unfold Core.is_meta. apply bool_decide_eq_true. lia.
Qed.

Lemma ordered_NoDup : NoDup entries.*1.
Proof.
  apply NoDup_alt. intros i j meta Hi Hj.
  rewrite list_lookup_fmap in Hi, Hj.
  destruct (entries !! i) as [[m1 d1]|] eqn:Hi'; [|done].
  destruct (entries !! j) as [[m2 d2]|] eqn:Hj'; [|done].
  cbn in Hi, Hj. apply Hkeys in Hi', Hj'. simplify_eq. lia.
Qed.

(** With fuel for [i] levels, a token that is ordinary or defined among the
    first [i] entries expands to its meaning by these entries. *)
Lemma expand_token_denote i :
  i ≤ length entries →
  ∀ fuel visiting t,
    i ≤ fuel →
    (∀ v, v ∈ visiting → v ∉ (take i entries).*1) →
    (Core.is_meta cfg t = true → t ∈ (take i entries).*1) →
    Core.expand_token fuel cfg (dictionary_of entries) visiting t
    = Core.Expanded (Core.denote (reverse (take i entries)) t).
Proof.
  induction i as [|i IH]; intros Hlen fuel visiting t Hfuel Hvisiting Hdefined.
  - rewrite expand_token_unfold.
    destruct (Core.is_meta cfg t); [|done].
    by destruct (not_elem_of_nil t (Hdefined eq_refl)).
  - destruct (lookup_lt_is_Some_2 entries i) as [[m def] Hi]; [lia|].
    rewrite (take_S_r _ _ _ Hi), reverse_snoc. cbn [Core.denote].
    assert (Hm : m = (Core.next_meta_token cfg + N.of_nat i)%N) by (by eapply Hkeys).
    assert (Hfresh : m ∉ (take i entries).*1).
    { intros (j & Hj & _ & Heq)%ordered_key_lookup. lia. }
    assert (Hmeta : Core.is_meta cfg m = true).
    { apply (ordered_key_meta (S i)). rewrite (take_S_r _ _ _ Hi), fmap_app.
      apply elem_of_app. right. cbn. left. }
    destruct (decide (t = m)) as [->|Hne].
    + rewrite expand_token_unfold, Hmeta.
      rewrite decide_False.
      2:{ intros Hin. apply (Hvisiting _ Hin).
          rewrite (take_S_r _ _ _ Hi), fmap_app. apply elem_of_app. right. cbn. left. }
      rewrite (dictionary_of_lookup_NoDup entries m def ordered_NoDup)
        by (by eapply list_elem_of_lookup_2).
      destruct fuel as [|fuel]; [lia|].
      apply expand_list_expanded. intros u Hu. apply IH; [lia|lia| |].
      * intros v [->|Hv]%elem_of_cons; [done|].
        intros Hin. apply (Hvisiting _ Hv).
        rewrite (take_S_r _ _ _ Hi), fmap_app. apply elem_of_app. by left.
      * intros Hu_meta.
        destruct (topologically_ordered_lookup cfg [] entries i m def u
                    Hordered Hi Hu Hu_meta) as [Hin|Hin]; [|done].
        by apply elem_of_nil in Hin.
    + apply IH; [lia|lia| |].
      * intros v Hv Hin. apply (Hvisiting _ Hv).
        rewrite (take_S_r _ _ _ Hi), fmap_app. apply elem_of_app. by left.
      * intros Ht. specialize (Hdefined Ht).
        rewrite (take_S_r _ _ _ Hi), fmap_app in Hdefined.
        apply elem_of_app in Hdefined as [Hin|Hin]; [done|].
        cbn in Hin. apply list_elem_of_singleton in Hin. done.
Qed.

(** The walk over a body whose meta-tokens are all defined. *)
Lemma expand_body_denote offset body :
  (∀ t, t ∈ body → Core.is_meta cfg t = true → t ∈ entries.*1) →
  Core.expand_body cfg (dictionary_of entries) offset body
  = Core.Ok (body ≫= Core.denote (reverse entries)).
Proof.
  intros Hdefined. apply expand_body_expanded. intros t Ht.
  replace (reverse entries) with (reverse (take (length entries) entries))
    by (by rewrite take_ge).
  apply expand_token_denote; [lia| | |].
  - rewrite dictionary_of_size by apply ordered_NoDup. lia.
  - intros v Hv. by apply elem_of_nil in Hv.
  - rewrite take_ge by lia. by apply Hdefined.
Qed.

End Ordered.

(** *** The fuel of the expansion is enough *)

Lemma expand_list_not_exhausted (expand : N → Core.Expansion) ts :
  (∀ u, u ∈ ts → expand u ≠ Core.Exhausted) →
  Core.expand_list expand ts ≠ Core.Exhausted.
Proof.
  induction ts as [|u ts IH]; intros Hall; [done|].
  unfold Core.expand_list in *. cbn [foldr].
  assert (Hu : expand u ≠ Core.Exhausted) by (apply Hall; left).
  assert (Hts : foldr (λ t rest,
                   match expand t with
                   | Core.Expanded a =>
                       match rest with
                       | Core.Expanded b => Core.Expanded (a ++ b)
                       | failure => failure
                       end
                   | failure => failure
                   end) (Core.Expanded []) ts ≠ Core.Exhausted)
    by (apply IH; intros v Hv; apply Hall; by right).
  destruct (expand u); [|done..].
  by destruct (foldr _ _ ts).
Qed.

(** Distinct keys of a map are no more than its size. *)
Lemma keys_length_size M (keys : list N) :
  NoDup keys → (∀ v, v ∈ keys → is_Some (M !! v)) → length keys ≤ size M.
Proof.
  intros Hnd Hkeys. rewrite <- length_map_to_list, <- (length_fmap fst).
  apply submseteq_length, NoDup_submseteq; [done|].
  intros v [def Hv]%Hkeys. apply list_elem_of_fmap.
  exists (v, def). split; [done|]. by apply elem_of_map_to_list.
Qed.

(** The meta-tokens under expansion are distinct keys of the map, so the
    depth of the expansion is at most the size of the map. *)
Lemma expand_token_fuel_visiting fuel cfg M :
  ∀ visiting t,
    NoDup visiting → (∀ v, v ∈ visiting → is_Some (M !! v)) →
    size M < fuel + length visiting →
    Core.expand_token fuel cfg M visiting t ≠ Core.Exhausted.
Proof.
  induction fuel as [|fuel IH]; intros visiting t Hnd Hkeys Hfuel;
    rewrite expand_token_unfold;
    (destruct (Core.is_meta cfg t); [|done]);
    (destruct (decide (t ∈ visiting)) as [|Hfresh]; [done|]);
    (destruct (M !! t) as [def|] eqn:Ht; [|done]).
  - exfalso.
    assert (length (t :: visiting) ≤ size M); [|cbn in *; lia].
    apply keys_length_size; [by constructor|].
    intros v [->|Hv]%elem_of_cons; [by rewrite Ht | by apply Hkeys].
  - apply expand_list_not_exhausted. intros u _. apply IH.
    + by constructor.
    + intros v [->|Hv]%elem_of_cons; [by rewrite Ht | by apply Hkeys].
    + cbn [length]. lia.
Qed.

Lemma expand_token_fuel cfg M t :
  Core.expand_token (S (size M)) cfg M [] t ≠ Core.Exhausted.
Proof.
  apply expand_token_fuel_visiting; [constructor| |cbn; lia].
  intros v Hv. by apply elem_of_nil in Hv.
Qed.

End CoreExpandFacts.

(** ** The serializer of the engine *)

Section CoreSerializeFacts.

Import Layout.

Implicit Types (cfg : Core.Config) (base meta t u : N) (B rest ts : list N).
Implicit Types (selection : list Core.Selected) (older : list (N * list N)).

Lemma assign_length base selection :
  length (Core.assign base selection) = length selection.
Proof.
  revert base. induction selection as [|s selection IH]; intros base; [done|].
  cbn. by rewrite IH.
Qed.

Lemma assign_lookup base selection k meta def :
  Core.assign base selection !! k = Some (meta, def) →
  meta = (base + N.of_nat k)%N ∧
  ∃ s, selection !! k = Some s ∧ def = Core.pattern s.
Proof.
  revert base k. induction selection as [|s selection IH]; intros base k; [done|].
  destruct k as [|k]; cbn.
  - intros [= <- <-]. split; [lia|]. by exists s.
  - intros Hk. destruct (IH _ _ Hk) as [-> Hs]. split; [lia|done].
Qed.

Lemma assign_keys_range base selection meta :
  meta ∈ (Core.assign base selection).*1 →
  (base ≤ meta < base + N.of_nat (length selection))%N.
Proof.
  intros ([m def] & -> & Hin)%list_elem_of_fmap.
  apply list_elem_of_lookup in Hin as [k Hk].
  assert (Hlen := lookup_lt_Some _ _ _ Hk). rewrite assign_length in Hlen.
  apply assign_lookup in Hk as [-> _]. cbn. lia.
Qed.

Lemma selected_at_Some base selection i meta len :
  Core.selected_at base selection i = Some (meta, len) →
  ∃ k s, selection !! k = Some s ∧ i ∈ Core.occurrences s ∧
         meta = (base + N.of_nat k)%N ∧ len = length (Core.pattern s).
Proof.
  revert base. induction selection as [|s selection IH]; intros base; [done|].
  cbn. destruct (decide (i ∈ Core.occurrences s)) as [Hin|Hout].
  - intros [= <- <-]. exists 0, s. repeat split; [done|lia].
  - intros Hrest. destruct (IH _ Hrest) as (k & s' & Hk & Hin & -> & ->).
    exists (S k), s'. repeat split; [done..|lia].
Qed.

(** The meaning of the tokens after a pass, by the entries of the pass put
    before an older dictionary. *)
Lemma denote_assign_other base selection older t :
  ¬ (base ≤ t < base + N.of_nat (length selection))%N →
  Core.denote (reverse (Core.assign base selection) ++ older) t = Core.denote older t.
Proof.
  intros Hout. apply denote_skip. rewrite fmap_reverse, elem_of_reverse.
  intros Hin%assign_keys_range. lia.
Qed.

Lemma denote_assign_key base selection older k s :
  selection !! k = Some s →
  (∀ u, u ∈ Core.pattern s → ¬ (base ≤ u < base + N.of_nat (length selection))%N) →
  Core.denote (reverse (Core.assign base selection) ++ older) (base + N.of_nat k)
  = Core.pattern s ≫= Core.denote older.
Proof.
  revert base older k. induction selection as [|s0 selection IH]; intros base older k; [done|].
  cbn [Core.assign]. rewrite reverse_cons, <- app_assoc. cbn [app length].
  destruct k as [|k]; cbn [lookup list_lookup].
  - intros [= ->] Hpattern.
    rewrite denote_assign_other by lia.
    replace (base + N.of_nat 0)%N with base by lia.
    cbn [Core.denote]. by rewrite decide_True.
  - intros Hk Hpattern.
    replace (base + N.of_nat (S k))%N with (N.succ base + N.of_nat k)%N by lia.
    rewrite (IH _ _ _ Hk).
    + apply bind_denote_ext. intros u Hu. cbn [Core.denote].
      rewrite decide_False; [done|]. specialize (Hpattern u Hu). lia.
    + intros u Hu. specialize (Hpattern u Hu). lia.
Qed.

Lemma slice_elem_of B i j u : u ∈ slice B i j → u ∈ B.
Proof.
  unfold slice. intros Hu. by apply (subseteq_drop i), (subseteq_take (j - i)).
Qed.

Lemma drop_cons_inv B i t rest :
  drop i B = t :: rest → t ∈ B ∧ drop (S i) B = rest.
Proof.
  intros Hdrop. split.
  - rewrite <- (take_drop i B), Hdrop. apply elem_of_app. right. left.
  - replace (S i) with (i + 1) by lia. by rewrite <- drop_drop, Hdrop.
Qed.

(** Putting the definitions back in place of the meta-tokens of a pass
    gives the sequence the pass started from. *)
Lemma replace_from_denote base selection older B :
  Core.selection_ok B selection →
  (∀ t, t ∈ B → ¬ (base ≤ t < base + N.of_nat (length selection))%N) →
  ∀ rest i skip,
    drop i B = rest →
    Core.replace_from base selection i skip rest
      ≫= Core.denote (reverse (Core.assign base selection) ++ older)
    = drop skip rest ≫= Core.denote older.
Proof.
  intros Hok Hfresh rest. induction rest as [|t rest IH]; intros i skip Hdrop.
  - by rewrite drop_nil.
  - destruct (drop_cons_inv _ _ _ _ Hdrop) as [Ht Hdrop'].
    cbn [Core.replace_from]. destruct skip as [|skip].
    + rewrite drop_0.
      destruct (Core.selected_at base selection i) as [[meta len]|] eqn:Hsel.
      * apply selected_at_Some in Hsel as (k & s & Hk & Hi & -> & ->).
        destruct (Hok s) as (Hpos & _ & Hmatch); [by eapply list_elem_of_lookup_2|].
        specialize (Hmatch i Hi).
        assert (Hpattern : Core.pattern s = t :: take (length (Core.pattern s) - 1) rest).
        { rewrite <- Hmatch at 1. unfold slice.
          replace (i + length (Core.pattern s) - i) with
            (S (length (Core.pattern s) - 1)) by lia.
          by rewrite Hdrop. }
        rewrite bind_cons, (IH _ _ Hdrop').
        rewrite (denote_assign_key _ _ _ _ _ Hk).
        2:{ intros u Hu. apply Hfresh. rewrite <- Hmatch in Hu.
            by eapply slice_elem_of. }
        rewrite <- bind_app. f_equal.
        rewrite Hpattern at 1. cbn. by rewrite take_drop.
      * rewrite !bind_cons, (IH _ _ Hdrop'), drop_0.
        by rewrite denote_assign_other by (by apply Hfresh).
    + by rewrite (IH _ _ Hdrop').
Qed.

Lemma replace_from_elem_of base selection i skip rest u :
  u ∈ Core.replace_from base selection i skip rest →
  u ∈ rest ∨ (base ≤ u < base + N.of_nat (length selection))%N.
Proof.
  revert i skip. induction rest as [|t rest IH]; intros i skip; cbn [Core.replace_from].
  - by intros ?%elem_of_nil.
  - destruct skip as [|skip].
    + destruct (Core.selected_at base selection i) as [[meta len]|] eqn:Hsel.
      * intros [->|Hu]%elem_of_cons.
        -- right. apply selected_at_Some in Hsel as (k & s & Hk & _ & -> & _).
           apply lookup_lt_Some in Hk. lia.
        -- destruct (IH _ _ Hu) as [?|?]; [left; by right|by right].
      * intros [->|Hu]%elem_of_cons; [left; left|].
        destruct (IH _ _ Hu) as [?|?]; [left; by right|by right].
    + intros Hu. destruct (IH _ _ Hu) as [?|?]; [left; by right|by right].
Qed.

End CoreSerializeFacts.

(** ** The passes of the hierarchical driver *)

Section CorePassFacts.

Import Layout.

Variable plan : Core.Config → list N → list Core.Selected.
Hypothesis Hplan : Core.plan_contract plan.

Implicit Types (cfg : Core.Config) (base meta t u : N) (B body : list N).
Implicit Types (entries older : list (N * list N)).

Lemma settled_weaken cfg base base' t :
  (base ≤ base')%N → Core.settled cfg base t → Core.settled cfg base' t.
Proof. unfold Core.settled. intros Hle [Hne Hout]. split; [done|lia]. Qed.

Lemma settled_key cfg base base' t :
  Core.is_meta cfg (Core.dict_end_token cfg) = false →
  (Core.next_meta_token cfg ≤ base)%N → (base' ≤ Core.dict_start_token cfg)%N →
  (base ≤ t < base')%N → Core.settled cfg base' t.
Proof.
  unfold Core.settled, Core.is_meta. intros Hend%bool_decide_eq_false Hlo Hhi Ht.
  split; [|lia]. intros ->. apply Hend. lia.
Qed.

Lemma passes_sound cfg depth :
  Core.is_meta cfg (Core.dict_end_token cfg) = false →
  ∀ base B entries body older,
    Core.passes plan cfg depth base B = Core.Ok (entries, body) →
    (Core.next_meta_token cfg ≤ base ≤ Core.dict_start_token cfg)%N →
    (∀ t, t ∈ B → Core.settled cfg base t) →
    body ≫= Core.denote (reverse entries ++ older) = B ≫= Core.denote older ∧
    (∀ t, t ∈ body → Core.settled cfg (base + N.of_nat (length entries)) t) ∧
    (∀ i meta def, entries !! i = Some (meta, def) →
       meta = (base + N.of_nat i)%N ∧ Core.dict_end_token cfg ∉ def) ∧
    (base + N.of_nat (length entries) ≤ Core.dict_start_token cfg)%N.
Proof.
  intros Hend. induction depth as [|depth IH];
    intros base B entries body older Hrun Hbase Hsettled; cbn [Core.passes] in Hrun.
  - injection Hrun as <- <-. cbn. rewrite N.add_0_r.
    split; [done|]. split; [done|]. split; [done|lia].
  - destruct (plan cfg B) as [|s selection] eqn:Hsel.
    { injection Hrun as <- <-. cbn. rewrite N.add_0_r.
      split; [done|]. split; [done|]. split; [done|lia]. }
    remember (s :: selection) as chosen eqn:Hchosen.
    destruct (decide (Core.dict_start_token cfg < base + N.of_nat (length chosen))%N)
      as [|Hfits]; [done|].
    destruct (Core.passes plan cfg depth (base + N.of_nat (length chosen))
                (Core.replace_occurrences base chosen B))
      as [[entries' body']|e] eqn:Hrest; [|done].
    injection Hrun as <- <-.
    assert (Hok : Core.selection_ok B chosen) by (rewrite <- Hsel; apply Hplan).
    assert (Hfresh : ∀ t, t ∈ B → ¬ (base ≤ t < base + N.of_nat (length chosen))%N).
    { intros t Ht. destruct (Hsettled t Ht) as [_ Hout]. lia. }
    destruct (IH (base + N.of_nat (length chosen))%N
                (Core.replace_occurrences base chosen B) entries' body'
                (reverse (Core.assign base chosen) ++ older) Hrest)
      as (Hmeaning & Hbody & Hentries & Hrange); [lia| |].
    { intros t [Ht|Ht]%replace_from_elem_of.
      - eapply settled_weaken; [|by apply Hsettled]. lia.
      - eapply settled_key; [done| | |done]; lia. }
    rewrite length_app, assign_length, Nat2N.inj_add, N.add_assoc.
    split; [|split; [done|split; [|done]]].
    + rewrite reverse_app, <- app_assoc, Hmeaning.
      unfold Core.replace_occurrences.
      by rewrite (replace_from_denote base chosen older B Hok Hfresh B 0 0 eq_refl).
    + intros i meta def Hi. apply lookup_app_Some in Hi as [Hi|[Hlen Hi]].
      * apply assign_lookup in Hi as [-> (s' & Hs' & ->)]. split; [done|].
        destruct (Hok s') as (_ & Hocc & Hmatch); [by eapply list_elem_of_lookup_2|].
        destruct (Core.occurrences s') as [|i0 occ] eqn:Hocc'; [done|].
        intros Hin. rewrite <- (Hmatch i0) in Hin by left.
        apply slice_elem_of in Hin. by destruct (Hsettled _ Hin).
      * rewrite assign_length in Hlen, Hi.
        destruct (Hentries _ _ _ Hi) as [-> Hdef]. split; [lia|done].
Qed.

End CorePassFacts.

(** ** Dictionary and body extraction *)

Section ExtractClaims.

Import Layout.

Implicit Types (tokens body : list N) (config : option DecompressionConfig).
Implicit Types (entries : list (N * list N)).

Lemma isCompressed_false tokens config :
  TokenSeq tokens → dictStart_of config ∉ tokens →
  Decompress.isCompressed tokens config = false.
Proof.
  intros Hseq Hstart. unfold Decompress.isCompressed.
  rewrite normalizeTokens_token_seq by done. by apply includes_false.
Qed.

Lemma extractBody_no_end tokens config :
  TokenSeq tokens → dictEnd_of config ∉ tokens →
  Decompress.extractBody tokens config = tokens.
Proof.
  intros Hseq Hend. unfold Decompress.extractBody.
  rewrite normalizeTokens_token_seq by done.
  by apply indexOf_None in Hend as ->.
Qed.

Lemma extractDictionary_no_start tokens config :
  TokenSeq tokens → dictStart_of config ∉ tokens →
  Decompress.extractDictionary tokens config = ∅.
Proof.
  intros Hseq Hstart. unfold Decompress.extractDictionary.
  rewrite normalizeTokens_token_seq by done.
  by apply indexOf_None in Hstart as ->.
Qed.

(** C9, as stated, fails: [extractBody] looks for the dictionary-end
    token, not for the dictionary-start token.  The sequence
    [[1, DICT_END, 2]] holds no dictionary-start token, [isCompressed]
    is false on it, and [extractBody] returns [[2]]. *)
Lemma C9_counterexample :
  TokenSeq [1; 0xFFFFFFF1; 2]%N ∧
  (dictStart_of None ∉ [1; 0xFFFFFFF1; 2]%N) ∧
  Decompress.isCompressed [1; 0xFFFFFFF1; 2]%N None = false ∧
  Decompress.extractBody [1; 0xFFFFFFF1; 2]%N None = [2]%N ∧
  Decompress.extractBody [1; 0xFFFFFFF1; 2]%N None ≠ [1; 0xFFFFFFF1; 2]%N.
Proof. repeat apply conj; compute_done. Qed.

(** C9 (amended): for every token sequence that does not contain the
    dictionary-start token, [isCompressed] returns false; if the sequence
    does not contain the dictionary-end token either, [extractBody]
    returns it unchanged. *)
Theorem C9_uncompressed_sequence tokens config :
  TokenSeq tokens → dictStart_of config ∉ tokens →
  Decompress.isCompressed tokens config = false ∧
  (dictEnd_of config ∉ tokens → Decompress.extractBody tokens config = tokens).
Proof.
  intros Hseq Hstart. split.
  - by apply isCompressed_false.
  - intros Hend. by apply extractBody_no_end.
Qed.

Lemma C9_witness :
  TokenSeq [1; 2; 3; 4; 5]%N ∧
  (dictStart_of None ∉ [1; 2; 3; 4; 5]%N) ∧
  (dictEnd_of None ∉ [1; 2; 3; 4; 5]%N) ∧
  Decompress.isCompressed [1; 2; 3; 4; 5]%N None = false ∧
  Decompress.extractBody [1; 2; 3; 4; 5]%N None = [1; 2; 3; 4; 5]%N.
Proof.
  assert (Hseq : TokenSeq [1; 2; 3; 4; 5]%N) by compute_done.
  assert (Hstart : dictStart_of None ∉ [1; 2; 3; 4; 5]%N) by compute_done.
  assert (Hend : dictEnd_of None ∉ [1; 2; 3; 4; 5]%N) by compute_done.
  destruct (C9_uncompressed_sequence [1; 2; 3; 4; 5]%N None Hseq Hstart) as [Hc Hb].
  exact (conj Hseq (conj Hstart (conj Hend (conj Hc (Hb Hend))))).
Defined.

(** The parse of a stream that starts with the dictionary-start token and
    whose entries are well formed up to position [pos]. *)
Lemma extractDictionary_stream_prefix tokens config entries rest :
  TokenSeq tokens →
  tokens = [dictStart_of config] ++ encode_entries entries ++ rest →
  metas_avoid (dictEnd_of config) entries →
  Decompress.extractDictionary tokens config =
  Decompress.extractDictionary_loop tokens (dictEnd_of config)
    (1 + length (encode_entries entries)) (dictionary_of entries).
Proof.
  intros Hseq Htokens Havoid. unfold Decompress.extractDictionary.
  rewrite normalizeTokens_token_seq by done.
  rewrite Htokens at 1. cbn [app indexOf]. rewrite decide_True by done.
  cbn [Nat.add]. rewrite Htokens.
  by rewrite (extractDictionary_loop_entries entries [dictStart_of config]).
Qed.

(** C4, as stated, fails for [extractBody], which cuts the stream at the
    first dictionary-end token.  That token may be a token of a
    definition: in [[DICT_START, M, 1, DICT_END, DICT_END, 7]] the single
    entry has one definition token, neither its meta-token nor its length
    field is the dictionary-end token, and the body is [[7]]; the
    dictionary is extracted, the body is not.  It may also be the
    dictionary-start token: with both control tokens configured as 7,
    the stream [[7, 1, 1, 2, 7, 9]] has the entry [1 -> [2]] and the body
    [[9]]; the dictionary is extracted, and [extractBody] returns
    everything after the first token. *)
Lemma C4_counterexample :
  (stream 0xFFFFFFF0 0xFFFFFFF1 [(0xFFFF0000, [0xFFFFFFF1])]%N [7]%N
     = [0xFFFFFFF0; 0xFFFF0000; 1; 0xFFFFFFF1; 0xFFFFFFF1; 7]%N ∧
   metas_avoid (dictEnd_of None) [(0xFFFF0000, [0xFFFFFFF1])]%N ∧
   Decompress.extractDictionary
     [0xFFFFFFF0; 0xFFFF0000; 1; 0xFFFFFFF1; 0xFFFFFFF1; 7]%N None
     = {[ 0xFFFF0000%N := [0xFFFFFFF1%N] ]} ∧
   Decompress.extractBody
     [0xFFFFFFF0; 0xFFFF0000; 1; 0xFFFFFFF1; 0xFFFFFFF1; 7]%N None
     = [0xFFFFFFF1; 7]%N ∧
   Decompress.extractBody
     [0xFFFFFFF0; 0xFFFF0000; 1; 0xFFFFFFF1; 0xFFFFFFF1; 7]%N None
     ≠ [7]%N) ∧
  (stream 7 7 [(1, [2])]%N [9]%N = [7; 1; 1; 2; 7; 9]%N ∧
   Decompress.extractDictionary [7; 1; 1; 2; 7; 9]%N
     (Some {| dec_dictStartToken := Some 7%N; dec_dictEndToken := Some 7%N |})
     = {[ 1%N := [2%N] ]} ∧
   Decompress.extractBody [7; 1; 1; 2; 7; 9]%N
     (Some {| dec_dictStartToken := Some 7%N; dec_dictEndToken := Some 7%N |})
     = [1; 1; 2; 7; 9]%N ∧
   Decompress.extractBody [7; 1; 1; 2; 7; 9]%N
     (Some {| dec_dictStartToken := Some 7%N; dec_dictEndToken := Some 7%N |})
     ≠ [9]%N).
Proof. repeat apply conj; compute_done. Qed.

(** C4 (amended): for every stream
    [[DICT_START, m_0, len_0, def_0 ..., DICT_END, body ...]] of 32-bit
    tokens in which every [def_i] has exactly [len_i] tokens and no
    meta-token is the dictionary-end token, [extractDictionary] returns
    the map of the entries; if moreover the two control tokens differ
    and no length field and no definition token is the dictionary-end
    token, [extractBody] returns the body. *)
Theorem C4_extract_stream config entries body :
  TokenSeq (stream (dictStart_of config) (dictEnd_of config) entries body) →
  metas_avoid (dictEnd_of config) entries →
  Decompress.extractDictionary
    (stream (dictStart_of config) (dictEnd_of config) entries body) config
    = dictionary_of entries ∧
  (dictStart_of config ≠ dictEnd_of config →
   entries_avoid (dictEnd_of config) entries →
   Decompress.extractBody
     (stream (dictStart_of config) (dictEnd_of config) entries body) config
     = body).
Proof.
  intros Hseq Hmetas. split.
  - rewrite (extractDictionary_stream_prefix _ config entries
               ([dictEnd_of config] ++ body)); [|done..].
    rewrite extractDictionary_loop_unfold, stream_lookup_end.
    by rewrite decide_True.
  - intros Hne Havoid.
    unfold Decompress.extractBody. rewrite normalizeTokens_token_seq by done.
    rewrite stream_split, indexOf_first.
    2:{ rewrite not_elem_of_app, list_elem_of_singleton. split; [congruence|done]. }
    unfold slice_from. rewrite cons_middle, app_assoc.
    replace (length ([dictStart_of config] ++ encode_entries entries) + 1)
      with (length (([dictStart_of config] ++ encode_entries entries) ++ [dictEnd_of config]))
      by (rewrite !length_app; cbn; lia).
    by rewrite drop_app_length.
Qed.

Lemma C4_witness :
  TokenSeq (stream (dictStart_of None) (dictEnd_of None)
              [(0xFFFF0000, [1; 2; 3])]%N [0xFFFF0000; 4; 5]%N) ∧
  metas_avoid (dictEnd_of None) [(0xFFFF0000, [1; 2; 3])]%N ∧
  dictStart_of None ≠ dictEnd_of None ∧
  entries_avoid (dictEnd_of None) [(0xFFFF0000, [1; 2; 3])]%N ∧
  Decompress.extractDictionary
    (stream (dictStart_of None) (dictEnd_of None)
       [(0xFFFF0000, [1; 2; 3])]%N [0xFFFF0000; 4; 5]%N) None
    = dictionary_of [(0xFFFF0000, [1; 2; 3])]%N ∧
  Decompress.extractBody
    (stream (dictStart_of None) (dictEnd_of None)
       [(0xFFFF0000, [1; 2; 3])]%N [0xFFFF0000; 4; 5]%N) None
    = [0xFFFF0000; 4; 5]%N.
Proof.
  assert (H1 : TokenSeq (stream (dictStart_of None) (dictEnd_of None)
              [(0xFFFF0000, [1; 2; 3])]%N [0xFFFF0000; 4; 5]%N)) by compute_done.
  assert (H2 : metas_avoid (dictEnd_of None) [(0xFFFF0000, [1; 2; 3])]%N)
    by compute_done.
  assert (H3 : dictStart_of None ≠ dictEnd_of None) by compute_done.
  assert (H4 : entries_avoid (dictEnd_of None) [(0xFFFF0000, [1; 2; 3])]%N)
    by compute_done.
  destruct (C4_extract_stream None [(0xFFFF0000, [1; 2; 3])]%N
              [0xFFFF0000; 4; 5]%N H1 H2) as [Hdictionary Hbody].
  exact (conj H1 (conj H2 (conj H3 (conj H4 (conj Hdictionary (Hbody H3 H4)))))).
Defined.

End ExtractClaims.

(** ** Agreement of the parsers, and their behaviour on truncated input *)

Section ParserClaims.

Import Layout.

Implicit Types (tokens rest : list N) (entries : list (N * list N)).

Lemma buildDictionaryMap_extractDictionary tokens :
  TokenSeq tokens →
  Compress.buildDictionaryMap tokens = Decompress.extractDictionary tokens None.
Proof.
  intros Hseq. unfold Compress.buildDictionaryMap, Decompress.extractDictionary.
  rewrite normalizeTokens_token_seq by done.
  destruct (decide (length tokens = 0)) as [Hnil|Hcons].
  - apply nil_length_inv in Hnil as ->. done.
  - rewrite buildDictionaryMap_find_spec by lia.
    rewrite drop_0, Nat.sub_0_r, Nat.add_0_l, buildDictionaryMap_loop_extract.
    change (dictStart_of None) with (dictStartToken DEFAULT_CONFIG).
    change (dictEnd_of None) with (dictEndToken DEFAULT_CONFIG).
    destruct (indexOf tokens (dictStartToken DEFAULT_CONFIG)) as [i|]; cbn [default].
    + done.
    + apply extractDictionary_loop_past_end. lia.
Qed.

Lemma finish_dictionaryMap_extractDictionary tokens :
  TokenSeq tokens →
  Streaming.finish_dictionaryMap (mergeConfig None) tokens
  = Decompress.extractDictionary tokens None.
Proof.
  intros Hseq. unfold Streaming.finish_dictionaryMap, Decompress.extractDictionary.
  rewrite normalizeTokens_token_seq by done.
  rewrite finish_find_spec by lia.
  rewrite drop_0, Nat.sub_0_r, Nat.add_0_l, finish_loop_extract.
  change (dictStart_of None) with (dictStartToken DEFAULT_CONFIG).
  change (dictEnd_of None) with (dictEndToken DEFAULT_CONFIG).
  change (mergeConfig None) with DEFAULT_CONFIG.
  destruct (indexOf tokens (dictStartToken DEFAULT_CONFIG)) as [i|]; cbn [default].
  - done.
  - apply extractDictionary_loop_past_end. lia.
Qed.

(** C8: on every array of 32-bit tokens, [buildDictionaryMap],
    [extractDictionary] without a configuration and the parse written
    inline in [StreamingCompressorImpl.finish], run with the merged
    default configuration, build the same map. *)
Theorem C8_parsers_agree tokens :
  TokenSeq tokens →
  Compress.buildDictionaryMap tokens = Decompress.extractDictionary tokens None ∧
  Streaming.finish_dictionaryMap (mergeConfig None) tokens
    = Decompress.extractDictionary tokens None.
Proof.
  intros Hseq. split.
  - by apply buildDictionaryMap_extractDictionary.
  - by apply finish_dictionaryMap_extractDictionary.
Qed.

Lemma C8_witness :
  TokenSeq [0xFFFFFFF0; 0xFFFF0000; 2; 7; 7; 0xFFFFFFF1]%N ∧
  Compress.buildDictionaryMap [0xFFFFFFF0; 0xFFFF0000; 2; 7; 7; 0xFFFFFFF1]%N
    = Decompress.extractDictionary
        [0xFFFFFFF0; 0xFFFF0000; 2; 7; 7; 0xFFFFFFF1]%N None ∧
  Streaming.finish_dictionaryMap (mergeConfig None)
      [0xFFFFFFF0; 0xFFFF0000; 2; 7; 7; 0xFFFFFFF1]%N
    = Decompress.extractDictionary
        [0xFFFFFFF0; 0xFFFF0000; 2; 7; 7; 0xFFFFFFF1]%N None.
Proof.
  assert (Hseq : TokenSeq [0xFFFFFFF0; 0xFFFF0000; 2; 7; 7; 0xFFFFFFF1]%N)
    by compute_done.
  exact (conj Hseq (C8_parsers_agree _ Hseq)).
Defined.

(** The parse of a stream whose entry after [entries] has a length field
    that points past the end of the stream. *)
Lemma extractDictionary_length_past_end config entries metaToken len rest :
  TokenSeq ([dictStart_of config] ++ encode_entries entries ++ [metaToken; len] ++ rest) →
  metas_avoid (dictEnd_of config) entries →
  metaToken ≠ dictEnd_of config →
  length rest < N.to_nat len →
  Decompress.extractDictionary
    ([dictStart_of config] ++ encode_entries entries ++ [metaToken; len] ++ rest) config
  = dictionary_of entries.
Proof.
  intros Hseq Havoid Hmeta Hlen.
  rewrite (extractDictionary_stream_prefix _ config entries ([metaToken; len] ++ rest))
    by done.
  set (tokens := [dictStart_of config] ++ encode_entries entries ++ [metaToken; len] ++ rest).
  assert (Hm : tokens !! (1 + length (encode_entries entries)) = Some metaToken).
  { subst tokens. rewrite (assoc_L (++)).
    apply list_lookup_middle. by rewrite length_app. }
  assert (Hl : tokens !! (1 + length (encode_entries entries) + 1) = Some len).
  { subst tokens.
    replace ([dictStart_of config] ++ encode_entries entries ++ [metaToken; len] ++ rest)
      with (([dictStart_of config] ++ encode_entries entries ++ [metaToken]) ++ len :: rest)
      by (by rewrite <- !(assoc_L (++))).
    apply list_lookup_middle. rewrite !length_app. cbn. lia. }
  rewrite extractDictionary_loop_unfold, Hm, decide_False, Hl by done.
  rewrite decide_True; [done|].
  subst tokens. rewrite !length_app. cbn [length]. lia.
Qed.

(** C3, as stated, fails on the parsers of the SDK: they return a map and
    raise nothing.  On [[DICT_START, M, 5, 1, 2, DICT_END, M]] both give
    the empty map, and on a stream with one complete entry before the
    defective one they give the map of that entry. *)
Lemma C3_counterexample :
  Decompress.extractDictionary
    [0xFFFFFFF0; 0xFFFF0000; 5; 1; 2; 0xFFFFFFF1; 0xFFFF0000]%N None = ∅ ∧
  Compress.buildDictionaryMap
    [0xFFFFFFF0; 0xFFFF0000; 5; 1; 2; 0xFFFFFFF1; 0xFFFF0000]%N = ∅ ∧
  Decompress.extractDictionary
    [0xFFFFFFF0; 0xFFFF0000; 1; 7; 0xFFFF0001; 5; 1; 2; 0xFFFFFFF1; 0xFFFF0000]%N None
    = {[ 0xFFFF0000%N := [7%N] ]} ∧
  Compress.buildDictionaryMap
    [0xFFFFFFF0; 0xFFFF0000; 1; 7; 0xFFFF0001; 5; 1; 2; 0xFFFFFFF1; 0xFFFF0000]%N
    = {[ 0xFFFF0000%N := [7%N] ]}.
Proof. repeat apply conj; compute_done. Qed.

(** C3 (amended): when the length field of an entry points past the end
    of the stream, [extractDictionary] and [buildDictionaryMap] stop at
    that entry and return, without raising an error, the map of the
    entries before it. *)
Theorem C3_length_past_end entries metaToken len rest :
  TokenSeq ([dictStart_of None] ++ encode_entries entries ++ [metaToken; len] ++ rest) →
  metas_avoid (dictEnd_of None) entries →
  metaToken ≠ dictEnd_of None →
  length rest < N.to_nat len →
  Decompress.extractDictionary
    ([dictStart_of None] ++ encode_entries entries ++ [metaToken; len] ++ rest) None
    = dictionary_of entries ∧
  Compress.buildDictionaryMap
    ([dictStart_of None] ++ encode_entries entries ++ [metaToken; len] ++ rest)
    = dictionary_of entries.
Proof.
  intros Hseq Havoid Hmeta Hlen.
  rewrite buildDictionaryMap_extractDictionary by done.
  split; by apply extractDictionary_length_past_end.
Qed.

Lemma C3_witness :
  TokenSeq ([dictStart_of None] ++ encode_entries [(0xFFFF0000, [7])]%N
              ++ [0xFFFF0001; 5]%N ++ [1; 2; 0xFFFFFFF1; 0xFFFF0000]%N) ∧
  metas_avoid (dictEnd_of None) [(0xFFFF0000, [7])]%N ∧
  0xFFFF0001%N ≠ dictEnd_of None ∧
  length [1; 2; 0xFFFFFFF1; 0xFFFF0000]%N < N.to_nat 5 ∧
  Decompress.extractDictionary
    ([dictStart_of None] ++ encode_entries [(0xFFFF0000, [7])]%N
       ++ [0xFFFF0001; 5]%N ++ [1; 2; 0xFFFFFFF1; 0xFFFF0000]%N) None
    = dictionary_of [(0xFFFF0000, [7])]%N ∧
  Compress.buildDictionaryMap
    ([dictStart_of None] ++ encode_entries [(0xFFFF0000, [7])]%N
       ++ [0xFFFF0001; 5]%N ++ [1; 2; 0xFFFFFFF1; 0xFFFF0000]%N)
    = dictionary_of [(0xFFFF0000, [7])]%N.
Proof.
  assert (H1 : TokenSeq ([dictStart_of None] ++ encode_entries [(0xFFFF0000, [7])]%N
              ++ [0xFFFF0001; 5]%N ++ [1; 2; 0xFFFFFFF1; 0xFFFF0000]%N))
    by compute_done.
  assert (H2 : metas_avoid (dictEnd_of None) [(0xFFFF0000, [7])]%N) by compute_done.
  assert (H3 : 0xFFFF0001%N ≠ dictEnd_of None) by compute_done.
  assert (H4 : length [1; 2; 0xFFFFFFF1; 0xFFFF0000]%N < N.to_nat 5) by compute_done.
  exact (conj H1 (conj H2 (conj H3 (conj H4
           (C3_length_past_end [(0xFFFF0000, [7])]%N 0xFFFF0001%N 5%N
              [1; 2; 0xFFFFFFF1; 0xFFFF0000]%N H1 H2 H3 H4))))).
Defined.

End ParserClaims.

(** ** The streaming compressor *)

Section StreamingClaims.

Import Streaming.

Context {SC : Type} (wasm : Wasm.WasmExports SC) (startTime endTime : float).

Implicit Types (this : StreamingCompressorImpl (SC * list WasmCall)).
Implicit Types (ops post : list Op) (chunks : list (list N)).

Lemma addChunk_finished this tokens :
  finished this = true →
  addChunk (recording wasm) this tokens
  = (this, Thrown "Cannot add chunks to a finished compressor").
Proof. intros Hfin. unfold addChunk. by rewrite Hfin. Qed.

Lemma finish_finished this :
  finished this = true →
  finish (recording wasm) startTime endTime this
  = (this, Thrown "Compressor has already been finished").
Proof. intros Hfin. unfold finish. by rewrite Hfin. Qed.

Lemma step_finished this op :
  finished this = true →
  step (recording wasm) startTime endTime this op = (this, true).
Proof.
  intros Hfin. destruct op as [tokens|]; cbn.
  - by rewrite addChunk_finished.
  - by rewrite finish_finished.
Qed.

Lemma run_finished this ops :
  finished this = true →
  run (recording wasm) startTime endTime this ops
  = (this, replicate (length ops) true).
Proof.
  intros Hfin. induction ops as [|op ops IH]; [done|].
  cbn [run]. by rewrite step_finished, IH.
Qed.

Lemma run_app this ops1 ops2 :
  run (recording wasm) startTime endTime this (ops1 ++ ops2)
  = ((run (recording wasm) startTime endTime
        (run (recording wasm) startTime endTime this ops1).1 ops2).1,
     (run (recording wasm) startTime endTime this ops1).2
     ++ (run (recording wasm) startTime endTime
           (run (recording wasm) startTime endTime this ops1).1 ops2).2).
Proof.
  revert this. induction ops1 as [|op ops1 IH]; intros this; cbn [run app].
  - cbn [fst snd app]. by destruct (run (recording wasm) startTime endTime this ops2).
  - destruct (step _ _ _ this op) as [this' thrown]. rewrite IH.
    by destruct (run (recording wasm) startTime endTime this' ops1).
Qed.

(** A chunk added before [finish] reaches the core, whatever the core
    answers. *)
Lemma step_addChunk this tokens :
  finished this = false →
  finished (step (recording wasm) startTime endTime this (Op_addChunk tokens)).1 = false ∧
  calls_of (step (recording wasm) startTime endTime this (Op_addChunk tokens)).1
  = calls_of this ++ [Call_add_chunk (normalizeTokens tokens)].
Proof.
  intros Hfin. unfold calls_of. cbn. unfold addChunk. rewrite Hfin.
  destruct this as [[c calls] cfg fin chunksN tokensN]. cbn.
  destruct (Wasm.add_chunk wasm c (normalizeTokens tokens)) as [c' [[]|e]]; by cbn.
Qed.

Lemma run_addChunks this chunks :
  finished this = false →
  finished (run (recording wasm) startTime endTime this (Op_addChunk <$> chunks)).1 = false ∧
  calls_of (run (recording wasm) startTime endTime this (Op_addChunk <$> chunks)).1
  = calls_of this ++ (Call_add_chunk ∘ normalizeTokens <$> chunks).
Proof.
  revert this. induction chunks as [|chunk chunks IH]; intros this Hfin.
  - cbn. by rewrite app_nil_r.
  - cbn [fmap list_fmap run].
    destruct (step_addChunk this chunk Hfin) as [Hfin' Hcalls].
    destruct (step _ _ _ this (Op_addChunk chunk)) as [this' thrown].
    cbn [fst] in Hfin', Hcalls.
    destruct (IH this' Hfin') as [Hfin'' Hcalls'].
    destruct (run _ _ _ this' (Op_addChunk <$> chunks)) as [this'' thrown'].
    cbn [fst] in *. split; [done|].
    rewrite Hcalls', Hcalls. by rewrite <- app_assoc.
Qed.

(** The first [finish] calls the core once and sets the flag, whatever the
    core answers. *)
Lemma step_finish this :
  finished this = false →
  finished (step (recording wasm) startTime endTime this Op_finish).1 = true ∧
  calls_of (step (recording wasm) startTime endTime this Op_finish).1
  = calls_of this ++ [Call_finish].
Proof.
  intros Hfin. unfold calls_of. cbn. unfold finish. rewrite Hfin.
  destruct this as [[c calls] cfg fin chunksN tokensN]. cbn.
  destruct (Wasm.finish wasm c) as [c' [r|e]]; by cbn.
Qed.

(** C5: on a compressor that has not been finished, the chunks given to
    [addChunk] reach the core in call order, followed by exactly one call
    of the core's [finish], made by the first [finish]; every later
    [addChunk] and [finish] throws and calls nothing, and [isFinished] is
    true after the first [finish] and after every later call. *)
Theorem C5_streaming_compressor this chunks post :
  finished this = false →
  calls_of (run (recording wasm) startTime endTime this
              ((Op_addChunk <$> chunks) ++ Op_finish :: post)).1
    = calls_of this ++ (Call_add_chunk ∘ normalizeTokens <$> chunks) ++ [Call_finish] ∧
  isFinished (run (recording wasm) startTime endTime this
                ((Op_addChunk <$> chunks) ++ Op_finish :: post)).1 = true ∧
  drop (S (length chunks))
       (run (recording wasm) startTime endTime this
          ((Op_addChunk <$> chunks) ++ Op_finish :: post)).2
    = replicate (length post) true.
Proof.
  intros Hfin. rewrite run_app.
  destruct (run_addChunks this chunks Hfin) as [Hfin1 Hcalls1].
  assert (Hlen : length (run (recording wasm) startTime endTime this
                           (Op_addChunk <$> chunks)).2 = length chunks).
  { clear. revert this. induction chunks as [|chunk chunks IH]; intros this; [done|].
    cbn [fmap list_fmap run]. destruct (step _ _ _ this _) as [this' thrown].
    specialize (IH this'). destruct (run _ _ _ this' _). cbn in *. by rewrite IH. }
  destruct (run _ _ _ this (Op_addChunk <$> chunks)) as [this1 thrown1].
  cbn [fst snd] in *. cbn [run].
  destruct (step_finish this1 Hfin1) as [Hfin2 Hcalls2].
  destruct (step _ _ _ this1 Op_finish) as [this2 thrown2]. cbn [fst] in *.
  rewrite (run_finished this2 post Hfin2). cbn [fst snd].
  rewrite Hcalls2, Hcalls1, <- app_assoc.
  split; [done|]. split; [exact Hfin2|].
  rewrite cons_middle, app_assoc, drop_app_length'; [done|].
  rewrite length_app. cbn [length]. lia.
Qed.

End StreamingClaims.

Lemma C5_witness :
  Streaming.createStreamingCompressor (Streaming.recording Streaming.mock_wasm) None
    = Returned Streaming.mock_compressor ∧
  Streaming.finished Streaming.mock_compressor = false ∧
  Streaming.run (Streaming.recording Streaming.mock_wasm) 0 0 Streaming.mock_compressor
    [Streaming.Op_addChunk [1; 2; 3]%N; Streaming.Op_finish;
     Streaming.Op_addChunk [4; 5; 6]%N; Streaming.Op_finish]
  = ({| Streaming.compressor :=
          ((), [Streaming.Call_add_chunk [1; 2; 3]%N; Streaming.Call_finish]);
        Streaming.config := DEFAULT_CONFIG; Streaming.finished := true;
        Streaming.totalChunks := 1; Streaming.totalTokens := 3 |},
     [false; false; true; true]) ∧
  Streaming.calls_of
    (Streaming.run (Streaming.recording Streaming.mock_wasm) 0 0 Streaming.mock_compressor
       ((Streaming.Op_addChunk <$> [[1; 2; 3]%N])
          ++ Streaming.Op_finish
          :: [Streaming.Op_addChunk [4; 5; 6]%N; Streaming.Op_finish])).1
  = Streaming.calls_of Streaming.mock_compressor
      ++ (Streaming.Call_add_chunk ∘ normalizeTokens <$> [[1; 2; 3]%N])
      ++ [Streaming.Call_finish].
Proof.
  split; [reflexivity|]. split; [reflexivity|]. split; [reflexivity|].
  exact (proj1 (C5_streaming_compressor Streaming.mock_wasm 0 0
                  Streaming.mock_compressor [[1; 2; 3]%N]
                  [Streaming.Op_addChunk [4; 5; 6]%N; Streaming.Op_finish]
                  eq_refl)).
Defined.

(** ** [processInChunks] *)

Section ChunkClaims.

Import Streaming.

Context {St T : Type} (callback : St → list N → nat → St * js_result T).

Implicit Types (normalized chunk : list N) (calls : list (list N * nat)).
Implicit Types (results : list T).

Lemma subarray_chunk normalized c i :
  subarray normalized i (Nat.min (i + c) (length normalized))
  = take c (drop i normalized).
Proof.
  unfold subarray.
  rewrite <- (take_ge (drop i normalized) (length normalized - i)) at 2
    by (rewrite length_drop; lia).
  rewrite take_take. f_equal. lia.
Qed.

Lemma ceil_div_bounds n c k :
  k * c < n + c → n ≤ k * c → ceil_div n c = k.
Proof.
  intros Hlo Hhi. unfold ceil_div. symmetry.
  apply (Nat.div_unique _ _ _ (n + c - 1 - c * k)); lia.
Qed.

(** The loop, started at index [i] with enough fuel: it ends, and the
    invocations it makes cut [drop i normalized] into chunks of [c]
    tokens. *)
Lemma processInChunks_loop_spec fuel normalized c :
  0 < c → resolves callback →
  ∀ i st calls results,
    length normalized - i < fuel →
    ∃ st' trace new,
      processInChunks_loop (traced callback) fuel normalized c i (st, calls) results
        = Some ((st', calls ++ trace), Returned (results ++ new)) ∧
      concat trace.*1 = drop i normalized ∧
      length new = length trace ∧
      length trace * c < length normalized - i + c ∧
      length normalized - i ≤ length trace * c ∧
      ∀ k chunk index, trace !! k = Some (chunk, index) →
        index = i + k * c ∧ chunk = take c (drop index normalized).
Proof.
  intros Hc Hres. induction fuel as [|fuel IH]; intros i st calls results Hfuel; [lia|].
  cbn [processInChunks_loop]. destruct (decide (i < length normalized)) as [Hlt|Hge].
  - rewrite subarray_chunk. set (chunk := take c (drop i normalized)).
    unfold traced at 1. specialize (Hres st chunk i).
    destruct (callback st chunk i) as [st1 [result|e]]; [clear Hres|done].
    destruct (IH (i + c) st1 (calls ++ [(chunk, i)]) (results ++ [result]))
      as (st' & trace & new & Hrun & Hcat & Hnew & Hlo & Hhi & Hidx); [lia|].
    exists st', ((chunk, i) :: trace), (result :: new).
    rewrite Hrun, <- !app_assoc. split; [done|].
    split; [|split; [|split; [|split]]].
    + cbn. rewrite Hcat. subst chunk.
      rewrite <- (drop_drop normalized c i). apply take_drop.
    + cbn. by rewrite Hnew.
    + cbn [length]. rewrite Nat.mul_succ_l.
      destruct trace as [|call trace]; cbn [length] in *; [lia|].
      rewrite Nat.mul_succ_l in *. lia.
    + cbn [length]. rewrite Nat.mul_succ_l. lia.
    + intros [|j] chunk' index'; cbn.
      * intros [= <- <-]. split; [lia|done].
      * intros Hj. destruct (Hidx j chunk' index' Hj) as [-> ->].
        split; [lia|done].
  - exists st, [], []. rewrite !app_nil_r. split; [done|].
    rewrite drop_ge by lia.
    split; [done|]. split; [done|]. split; [cbn; lia|]. split; [cbn; lia|].
    intros k chunk index. by rewrite lookup_nil.
Qed.

(** C10 (amended): with a positive chunk size [c], a callback that never
    rejects and enough fuel, [processInChunks] ends after [ceil(n / c)]
    invocations of the callback, [n] being the length of the input, and
    returns as many results; the chunks of the invocations, concatenated
    in order, are the normalized input; the [k]-th invocation receives
    the index [k * c] and the tokens from that index on, [c] of them
    unless it is the last invocation. *)
Theorem C10_processInChunks fuel tokens c st :
  0 < c → resolves callback → length tokens < fuel →
  ∃ st' calls results,
    processInChunks (traced callback) fuel tokens c (st, [])
      = Some ((st', calls), Returned results) ∧
    length calls = ceil_div (length tokens) c ∧
    length results = length calls ∧
    concat calls.*1 = normalizeTokens tokens ∧
    ∀ k chunk index, calls !! k = Some (chunk, index) →
      index = k * c ∧
      chunk = take c (drop index (normalizeTokens tokens)) ∧
      (S k < length calls → length chunk = c).
Proof.
  intros Hc Hres Hfuel. unfold processInChunks.
  destruct (processInChunks_loop_spec fuel (normalizeTokens tokens) c Hc Hres
              0 st [] [])
    as (st' & calls & results & Hrun & Hcat & Hnew & Hlo & Hhi & Hidx).
  { rewrite normalizeTokens_length. lia. }
  rewrite normalizeTokens_length, Nat.sub_0_r in Hlo, Hhi.
  exists st', calls, results. cbn [app] in Hrun.
  split; [done|]. split; [by rewrite (ceil_div_bounds _ _ (length calls))|].
  split; [done|]. split; [done|].
  intros k chunk index Hk. destruct (Hidx k chunk index Hk) as [-> ->].
  split; [done|]. split; [done|]. intros Hlast.
  rewrite length_take, length_drop, normalizeTokens_length. cbn [Nat.add].
  assert (S k * c ≤ (length calls - 1) * c) by (apply Nat.mul_le_mono_r; lia).
  assert ((length calls - 1) * c = length calls * c - c)
    by (rewrite Nat.mul_sub_distr_r; lia).
  cbn [Nat.mul] in *. lia.
Qed.

(** With a chunk size of zero the loop never advances. *)
Lemma processInChunks_zero_diverges fuel tokens st :
  resolves callback → tokens ≠ [] →
  processInChunks callback fuel tokens 0 st = None.
Proof.
  intros Hres Hne. unfold processInChunks.
  assert (Hlen : 0 < length (normalizeTokens tokens)).
  { rewrite normalizeTokens_length. destruct tokens; [done|cbn; lia]. }
  generalize (@nil T) as results. revert st.
  induction fuel as [|fuel IH]; intros st results; [done|].
  cbn [processInChunks_loop]. rewrite decide_True by done.
  specialize (Hres st (subarray (normalizeTokens tokens) 0
                         (Nat.min (0 + 0) (length (normalizeTokens tokens)))) 0).
  destruct (callback st _ 0) as [st1 [result|e]]; [|done].
  apply IH.
Qed.

End ChunkClaims.

Lemma C10_witness :
  0 < 3 ∧
  Streaming.resolves (λ (st : unit) (chunk : list N) (index : nat),
                        (st, Returned (length chunk))) ∧
  length [1; 2; 3; 4; 5; 6; 7; 8; 9; 10]%N < 11 ∧
  Streaming.processInChunks
    (Streaming.traced (λ (st : unit) (chunk : list N) (index : nat),
                         (st, Returned (length chunk))))
    11 [1; 2; 3; 4; 5; 6; 7; 8; 9; 10]%N 3 ((), [])
  = Some (((), [([1; 2; 3]%N, 0); ([4; 5; 6]%N, 3); ([7; 8; 9]%N, 6); ([10]%N, 9)]),
          Returned [3; 3; 3; 1]) ∧
  ∃ st' calls results,
    Streaming.processInChunks
      (Streaming.traced (λ (st : unit) (chunk : list N) (index : nat),
                           (st, Returned (length chunk))))
      11 [1; 2; 3; 4; 5; 6; 7; 8; 9; 10]%N 3 ((), [])
      = Some ((st', calls), Returned results) ∧
    length calls = Streaming.ceil_div (length [1; 2; 3; 4; 5; 6; 7; 8; 9; 10]%N) 3.
Proof.
  assert (H1 : 0 < 3) by lia.
  assert (H2 : Streaming.resolves (λ (st : unit) (chunk : list N) (index : nat),
                                     (st, Returned (length chunk))))
    by (intros ? ? ?; reflexivity).
  assert (H3 : length [1; 2; 3; 4; 5; 6; 7; 8; 9; 10]%N < 11) by (cbn; lia).
  split; [exact H1|]. split; [exact H2|]. split; [exact H3|]. split; [reflexivity|].
  destruct (C10_processInChunks
              (λ (st : unit) (chunk : list N) (index : nat), (st, Returned (length chunk)))
              11 [1; 2; 3; 4; 5; 6; 7; 8; 9; 10]%N 3 () H1 H2 H3)
    as (st' & calls & results & Hrun & Hcount & _).
  exists st', calls, results. exact (conj Hrun Hcount).
Defined.

(** C10, as stated, fails for a callback that rejects: the rejection ends
    the loop.  On ten tokens with chunks of three, a callback that
    rejects at index 3 is invoked twice, on the chunks at 0 and at 3,
    where [ceil(10 / 3)] is 4; the chunks at 6 and at 9 are never passed
    on, and the chunks of the invocations do not make up the input. *)
Lemma C10_counterexample :
  0 < 3 ∧
  Streaming.processInChunks
    (Streaming.traced (λ (st : unit) (chunk : list N) (index : nat),
       (st, if decide (index = 3) then Thrown "rejected" else Returned (length chunk))))
    11 [1; 2; 3; 4; 5; 6; 7; 8; 9; 10]%N 3 ((), [])
  = Some (((), [([1; 2; 3]%N, 0); ([4; 5; 6]%N, 3)]), Thrown "rejected") ∧
  length [([1; 2; 3]%N, 0); ([4; 5; 6]%N, 3)] = 2 ∧
  Streaming.ceil_div (length [1; 2; 3; 4; 5; 6; 7; 8; 9; 10]%N) 3 = 4 ∧
  concat [[1; 2; 3]%N; [4; 5; 6]%N] ≠ normalizeTokens [1; 2; 3; 4; 5; 6; 7; 8; 9; 10]%N.
Proof. repeat apply conj; compute_done. Qed.

(** ** Default configuration *)

Section ConfigClaims.

Context {SC : Type} (wasm : Wasm.WasmExports SC).


End ConfigClaims.

(** ** Round trip through the engine, and streams without a dictionary *)

Section CoreClaims.

Import Layout.

Lemma existsb_false_elem_of {A} (f : A → bool) (l : list A) x :
  existsb f l = false → x ∈ l → f x = false.
Proof.
  induction l as [|y l IH]; cbn; [by intros _ ?%elem_of_nil|].
  intros [Hy Hl]%orb_false_elim [->|Hx]%elem_of_cons; [done|by apply IH].
Qed.

Lemma first_difference_refl offset (a : list N) : Core.first_difference offset a a = None.
Proof.
  revert offset. induction a as [|x a IH]; intros offset; cbn; [done|].
  by rewrite decide_True.
Qed.

(** A valid configuration and an input without meta or control tokens:
    every input token is settled at the first meta-token. *)
Lemma input_settled cfg T t :
  existsb (λ t, Core.is_meta cfg t || Core.is_control cfg t) T = false →
  t ∈ T → Core.settled cfg (Core.next_meta_token cfg) t ∧ t ≠ Core.dict_start_token cfg.
Proof.
  intros Hinput Ht.
  pose proof (existsb_false_elem_of _ _ _ Hinput Ht) as [Hmeta Hcontrol]%orb_false_elim.
  apply bool_decide_eq_false in Hmeta, Hcontrol. unfold Core.settled. tauto.
Qed.

(** The stream that [emit] writes decompresses to the denotation of its
    body, when the entries are keyed in order from the first meta-token,
    topologically ordered, and free of the dictionary-end token. *)
Lemma decompress_emit cfg T entries body :
  Core.is_meta cfg (Core.dict_end_token cfg) = false →
  (∀ i meta def, entries !! i = Some (meta, def) →
     meta = (Core.next_meta_token cfg + N.of_nat i)%N ∧ Core.dict_end_token cfg ∉ def) →
  (Core.next_meta_token cfg + N.of_nat (length entries) ≤ Core.dict_start_token cfg)%N →
  Core.topologically_ordered cfg [] entries = true →
  (∀ t, t ∈ body →
     Core.settled cfg (Core.next_meta_token cfg + N.of_nat (length entries)) t) →
  Core.dict_start_token cfg ∉ body ≫= Core.denote (reverse entries) →
  Core.decompress (Core.serialized_tokens (Core.emit cfg T entries body)) cfg
  = Core.Ok (body ≫= Core.denote (reverse entries)).
Proof.
  intros Hend Hentries Hrange Hordered Hbody Hstart.
  destruct entries as [|entry entries'] eqn:Heq.
  - cbn [Core.emit Core.serialized_tokens app reverse] in *.
    rewrite bind_denote_nil in *. unfold Core.decompress.
    by apply indexOf_None in Hstart as ->.
  - assert (Hne : entry :: entries' ≠ []) by done.
    rewrite <- Heq in *. clear Heq entry entries'.
    assert (Hkeys : ∀ i meta def, entries !! i = Some (meta, def) →
              meta = (Core.next_meta_token cfg + N.of_nat i)%N)
      by (intros i meta def Hi; by destruct (Hentries _ _ _ Hi)).
    replace (Core.serialized_tokens (Core.emit cfg T entries body))
      with (stream (Core.dict_start_token cfg) (Core.dict_end_token cfg) entries body).
    2:{ unfold stream, Core.emit. cbn [Core.serialized_tokens].
        destruct entries; [done|by rewrite <- !app_assoc]. }
    unfold Core.decompress.
    replace (indexOf (stream _ _ entries body) (Core.dict_start_token cfg)) with (Some 0)
      by (unfold stream; cbn; by rewrite decide_True).
    rewrite parse_dictionary_stream, stream_body.
    + apply expand_body_denote; [done..|].
      intros t Ht Hmeta. apply bool_decide_eq_true in Hmeta.
      destruct (Hbody t Ht) as [_ Hout].
      rewrite <- (take_ge entries (length entries)) by lia.
      apply (ordered_key_lookup cfg entries Hkeys).
      exists (N.to_nat (t - Core.next_meta_token cfg)). lia.
    + intros meta def [i Hi]%list_elem_of_lookup.
      destruct (Hentries _ _ _ Hi) as [-> Hdef]. split; [|done].
      apply lookup_lt_Some in Hi. apply bool_decide_eq_false in Hend.
      intros Heq. apply Hend. lia.
Qed.

(** The positions that [occurrences_from] reports hold the pattern. *)
Lemma occurrences_from_slice p T rest :
  ∀ i skip j,
    drop i T = rest → j ∈ Core.occurrences_from p i skip rest →
    slice T j (j + length p) = p.
Proof.
  induction rest as [|x rest IH]; intros i skip j Hdrop; cbn [Core.occurrences_from].
  - by intros ?%elem_of_nil.
  - pose proof (drop_cons_inv _ _ _ _ Hdrop) as [_ Hnext].
    destruct skip as [|skip]; [|by apply IH].
    destruct (decide (take (length p) (x :: rest) = p)) as [Hp|_]; [|by apply IH].
    intros [->|Hj]%elem_of_cons; [|by eapply IH].
    unfold slice. rewrite Hdrop. by replace (i + length p - i) with (length p) by lia.
Qed.

Lemma selection_ok_single T p positions :
  Core.compressible (length p) (length positions) = true →
  (∀ j, j ∈ positions → slice T j (j + length p) = p) →
  Core.selection_ok T [{| Core.pattern := p; Core.occurrences := positions |}].
Proof.
  intros Hc%bool_decide_eq_true Hocc s ->%list_elem_of_singleton.
  cbn [Core.pattern Core.occurrences].
  split; [destruct p; [cbn in Hc; lia | cbn; lia]|]. split; [|done].
  intros ->. cbn in Hc. lia.
Qed.

Lemma prefix_candidate_ok T min_len span :
  Core.selection_ok T (Core.prefix_candidate T min_len span).
Proof.
  induction span as [|span IH]; cbn [Core.prefix_candidate]; cbv zeta;
    (destruct (Core.compressible _ _) eqn:Hc;
      [apply selection_ok_single;
        [done | intros j Hj; by eapply (occurrences_from_slice _ T T 0 0 j)]|]).
  - intros s Hs. by apply elem_of_nil in Hs.
  - exact IH.
Qed.

(** The planner used in the examples keeps the contract of a selection. *)
Lemma prefix_plan_contract : Core.plan_contract Core.prefix_plan.
Proof. intros cfg T. apply prefix_candidate_ok. Qed.

(** Round trip through the engine.  For every planner that keeps the
    contract of a selection, every token sequence [T] and every
    configuration [cfg] of the engine: when the engine's [compress]
    returns a result, its [decompress] on the serialized tokens of that
    result, under the same configuration, returns [T]. *)
Lemma core_round_trip plan T cfg result :
  Core.plan_contract plan →
  Core.compress plan T cfg = Core.Ok result →
  Core.decompress (Core.serialized_tokens result) cfg = Core.Ok T.
Proof.
  intros Hplan. unfold Core.compress.
  destruct (Core.config_valid cfg) eqn:Hvalid; cbn [negb]; [|done].
  destruct (existsb _ T) eqn:Hinput; [done|].
  destruct (Core.passes plan cfg (Core.pass_count cfg) (Core.next_meta_token cfg) T)
    as [[entries body]|e] eqn:Hpasses; [|done].
  destruct (Core.topologically_ordered cfg [] entries) eqn:Hordered; cbn [negb]; [|done].
  apply andb_prop in Hvalid as [[_ Hmeta%bool_decide_eq_true]%andb_prop Hend%negb_true_iff].
  destruct (passes_sound plan Hplan cfg (Core.pass_count cfg) Hend
              (Core.next_meta_token cfg) T entries body [] Hpasses)
    as (Hmeaning & Hbody & Hentries & Hrange); [lia| |].
  { intros t Ht. by destruct (input_settled cfg T t Hinput Ht). }
  rewrite app_nil_r, bind_denote_nil in Hmeaning.
  assert (Hround : Core.decompress
            (Core.serialized_tokens (Core.emit cfg T entries body)) cfg = Core.Ok T).
  { rewrite <- Hmeaning at 2. apply decompress_emit; try done.
    rewrite Hmeaning. intros Ht. by destruct (input_settled cfg T _ Hinput Ht). }
  destruct (Core.verify cfg).
  - rewrite Hround, first_difference_refl. by intros [= <-].
  - by intros [= <-].
Qed.

(** Without the dictionary-start token the engine returns its input. *)
Lemma core_decompress_no_start W cfg :
  Core.dict_start_token cfg ∉ W → Core.decompress W cfg = Core.Ok W.
Proof. intros Hstart. unfold Core.decompress. by apply indexOf_None in Hstart as ->. Qed.

(** C2 (no dictionary-start token).  For every sequence [W] of 32-bit
    tokens in which the dictionary-start token of the configuration does
    not occur, [decompress] returns [W] unchanged and [extractDictionary]
    returns the empty map. *)
Theorem C2_no_dictionary_start plan discover (W : TokenInput)
    (config : option DecompressionConfig) :
  TokenSeq W → dictStart_of config ∉ W →
  Decompress.decompress (Core.exports plan discover) W config = Returned W ∧
  Decompress.extractDictionary W config = ∅.
Proof.
  intros Hseq Hstart. split; [|by apply extractDictionary_no_start].
  unfold Decompress.decompress. rewrite normalizeTokens_token_seq by done.
  cbn [Core.exports Wasm.decompress].
  by rewrite core_decompress_no_start.
Qed.

Lemma C2_witness :
  Decompress.decompress (Core.exports Core.prefix_plan (λ _ _ _, []))
    [10; 20; 30; 40]%N None = Returned [10; 20; 30; 40]%N ∧
  Decompress.extractDictionary [10; 20; 30; 40]%N None = ∅.
Proof.
  apply (C2_no_dictionary_start Core.prefix_plan (λ _ _ _, []) [10; 20; 30; 40]%N None);
    compute_done.
Defined.

End CoreClaims.

(** ** Further properties of [extractDictionary] and [extractBody] *)

Section DictionaryExtras.

Import Layout.

Implicit Types (a tokens pre rest def : list N) (map : gmap N (list N)).
Implicit Types (entries : list (N * list N)) (config : option DecompressionConfig).

(** Every entry that the loop adds is read from the array at a position
    not before the one the loop is entered at. *)
Lemma extractDictionary_loop_reads a dictEnd start :
  ∀ pos map m def,
    start ≤ pos →
    Decompress.extractDictionary_loop a dictEnd pos map !! m = Some def →
    map !! m = Some def ∨
    (m ≠ dictEnd ∧
     ∃ p, start ≤ p ∧ a !! p = Some m ∧
       ((a !! (p + 1) = None ∧ def = []) ∨
        (a !! (p + 1) = Some (N.of_nat (length def)) ∧
         slice a (p + 2) (p + 2 + length def) = def))).
Proof.
  intros pos. remember (length a - pos) as k eqn:Hk.
  revert pos Hk. induction (lt_wf k) as [k _ IH]. intros pos -> map m def Hpos.
  rewrite extractDictionary_loop_unfold.
  destruct (a !! pos) as [metaToken|] eqn:Hmeta; [|by left].
  destruct (decide (metaToken = dictEnd)) as [|Hne]; [by left|].
  destruct (a !! (pos + 1)) as [len|] eqn:Hlen.
  - destruct (decide (length a < pos + 2 + N.to_nat len)) as [|Hfits]; [by left|].
    intros Hm. apply lookup_lt_Some in Hmeta as Hlt.
    destruct (IH (length a - (pos + 2 + N.to_nat len)) ltac:(lia)
                (pos + 2 + N.to_nat len) eq_refl _ m def ltac:(lia) Hm) as [Hm'|Hm'];
      [|by right].
    clear Hm. rename Hm' into Hm.
    apply lookup_insert_Some in Hm as [[<- <-]|[_ Hm]]; [|by left].
    right. split; [done|]. exists pos. split; [done|]. split; [done|]. right.
    assert (Hdef : length (slice a (pos + 2) (pos + 2 + N.to_nat len)) = N.to_nat len).
    { unfold slice. rewrite length_take, length_drop. lia. }
    rewrite Hdef, N2Nat.id. done.
  - intros [[<- <-]|[_ Hm]]%lookup_insert_Some; [|by left].
    right. split; [done|]. exists pos. split; [done|]. split; [done|]. by left.
Qed.

(** X1. [extractDictionary] invents nothing: every entry of the map it
    returns stands in the input after the first dictionary-start token,
    as a meta-token that is not the dictionary-end token, followed by the
    length of the definition and by the definition itself; the one
    exception is a meta-token in the last position of the input, which is
    recorded with an empty definition. *)
Theorem extractDictionary_entries_from_input tokens config m def :
  Decompress.extractDictionary tokens config !! m = Some def →
  m ≠ dictEnd_of config ∧
  ∃ startIdx pos,
    indexOf (normalizeTokens tokens) (dictStart_of config) = Some startIdx ∧
    startIdx < pos ∧
    normalizeTokens tokens !! pos = Some m ∧
    ((normalizeTokens tokens !! (pos + 1) = None ∧ def = []) ∨
     (normalizeTokens tokens !! (pos + 1) = Some (N.of_nat (length def)) ∧
      slice (normalizeTokens tokens) (pos + 2) (pos + 2 + length def) = def)).
Proof.
  unfold Decompress.extractDictionary.
  destruct (indexOf (normalizeTokens tokens) (dictStart_of config)) as [startIdx|];
    [|by rewrite lookup_empty].
  intros Hm.
  apply (extractDictionary_loop_reads _ _ (startIdx + 1)) in Hm as [Hm|[Hne Hm]]; [| |lia].
  - by rewrite lookup_empty in Hm.
  - split; [done|]. destruct Hm as (p & Hp & Hrest).
    exists startIdx, p. split; [done|]. split; [lia|done].
Qed.

Lemma extractDictionary_entries_from_input_witness :
  Decompress.extractDictionary
    [5; 0xFFFFFFF0; 0xFFFF0000; 2; 7; 8; 0xFFFFFFF1; 0xFFFF0000]%N None
    !! 0xFFFF0000%N = Some [7; 8]%N ∧
  0xFFFF0000%N ≠ dictEnd_of None.
Proof.
  assert (H : Decompress.extractDictionary
                [5; 0xFFFFFFF0; 0xFFFF0000; 2; 7; 8; 0xFFFFFFF1; 0xFFFF0000]%N None
                !! 0xFFFF0000%N = Some [7; 8]%N) by (vm_compute; reflexivity).
  exact (conj H (proj1 (extractDictionary_entries_from_input _ None _ _ H))).
Defined.

(** X2. A dictionary section that ends with the input, without a
    dictionary-end token, is accepted: [extractDictionary] returns the
    map of its entries. *)
Theorem extractDictionary_unterminated config entries :
  TokenSeq ([dictStart_of config] ++ encode_entries entries) →
  metas_avoid (dictEnd_of config) entries →
  Decompress.extractDictionary ([dictStart_of config] ++ encode_entries entries) config
  = dictionary_of entries.
Proof.
  intros Hseq Havoid.
  rewrite (extractDictionary_stream_prefix _ config entries []);
    [|done|by rewrite app_nil_r|done].
  apply extractDictionary_loop_past_end. rewrite length_app. cbn. lia.
Qed.

Lemma extractDictionary_unterminated_witness :
  Decompress.extractDictionary
    ([dictStart_of None] ++ encode_entries [(0xFFFF0000, [7; 8]); (0xFFFF0001, [9])]%N)
    None
  = dictionary_of [(0xFFFF0000, [7; 8]); (0xFFFF0001, [9])]%N.
Proof.
  apply (extractDictionary_unterminated None
           [(0xFFFF0000, [7; 8]); (0xFFFF0001, [9])]%N); compute_done.
Defined.

(** X3. A meta-token in the last position of the input, after complete
    entries, has no length field: it is recorded with an empty
    definition, and nothing is reported. *)
Theorem extractDictionary_trailing_meta_token config entries m :
  TokenSeq ([dictStart_of config] ++ encode_entries entries ++ [m]) →
  metas_avoid (dictEnd_of config) entries →
  m ≠ dictEnd_of config →
  Decompress.extractDictionary
    ([dictStart_of config] ++ encode_entries entries ++ [m]) config
  = <[m := []]> (dictionary_of entries).
Proof.
  intros Hseq Havoid Hm.
  rewrite (extractDictionary_stream_prefix _ config entries [m]); [|done..].
  rewrite extractDictionary_loop_unfold.
  assert (Hlast : ([dictStart_of config] ++ encode_entries entries ++ [m])
                  !! (1 + length (encode_entries entries)) = Some m).
  { rewrite app_assoc. apply list_lookup_middle. rewrite length_app. done. }
  assert (Hpast : ([dictStart_of config] ++ encode_entries entries ++ [m])
                  !! (1 + length (encode_entries entries) + 1) = None).
  { apply lookup_ge_None_2. rewrite !length_app. cbn. lia. }
  rewrite Hlast, decide_False by done. by rewrite Hpast.
Qed.

Lemma extractDictionary_trailing_meta_token_witness :
  Decompress.extractDictionary
    ([dictStart_of None] ++ encode_entries [(0xFFFF0000, [7; 8])]%N ++ [0xFFFF0001]%N)
    None
  = <[0xFFFF0001%N := []]> (dictionary_of [(0xFFFF0000, [7; 8])]%N).
Proof.
  apply (extractDictionary_trailing_meta_token None [(0xFFFF0000, [7; 8])]%N);
    compute_done.
Defined.

(** X4. [extractBody] returns the tokens that follow the first
    dictionary-end token, whatever precedes that token. *)
Theorem extractBody_after_first_end config pre rest :
  TokenSeq (pre ++ dictEnd_of config :: rest) →
  dictEnd_of config ∉ pre →
  Decompress.extractBody (pre ++ dictEnd_of config :: rest) config = rest.
Proof.
  intros Hseq Hpre. unfold Decompress.extractBody.
  rewrite normalizeTokens_token_seq by done.
  rewrite indexOf_first by done. unfold slice_from.
  rewrite cons_middle, app_assoc.
  apply drop_app_length'. rewrite length_app. done.
Qed.

Lemma extractBody_after_first_end_witness :
  Decompress.extractBody ([1; 2]%N ++ dictEnd_of None :: [3; 0xFFFFFFF1; 4]%N) None
  = [3; 0xFFFFFFF1; 4]%N.
Proof.
  apply (extractBody_after_first_end None [1; 2]%N [3; 0xFFFFFFF1; 4]%N); compute_done.
Defined.

(** The loop of [extractDictionary] reads the array relative to where it
    is entered: tokens put in front of the array shift the positions and
    change nothing else. *)
Lemma extractDictionary_loop_shift pre a dictEnd :
  ∀ pos map,
    Decompress.extractDictionary_loop (pre ++ a) dictEnd (length pre + pos) map
    = Decompress.extractDictionary_loop a dictEnd pos map.
Proof.
  intros pos. remember (length a - pos) as k eqn:Hk.
  revert pos Hk. induction (lt_wf k) as [k _ IH]. intros pos -> map.
  rewrite (extractDictionary_loop_unfold (pre ++ a)), (extractDictionary_loop_unfold a).
  replace (length pre + pos + 1) with (length pre + (pos + 1)) by lia.
  rewrite !lookup_app_r by lia.
  replace (length pre + pos - length pre) with pos by lia.
  replace (length pre + (pos + 1) - length pre) with (pos + 1) by lia.
  destruct (a !! pos) as [metaToken|] eqn:Hmeta; [|done].
  destruct (decide (metaToken = dictEnd)); [done|].
  destruct (a !! (pos + 1)) as [len|]; [|done].
  apply lookup_lt_Some in Hmeta. rewrite length_app.
  destruct (decide (length a < pos + 2 + N.to_nat len)) as [Hcut|Hfits].
  - by rewrite decide_True by lia.
  - rewrite decide_False by lia.
    replace (length pre + pos + 2 + N.to_nat len)
      with (length pre + (pos + 2 + N.to_nat len)) by lia.
    replace (slice (pre ++ a) (length pre + pos + 2) (length pre + (pos + 2 + N.to_nat len)))
      with (slice a (pos + 2) (pos + 2 + N.to_nat len)).
    + eapply IH; [|done]. lia.
    + unfold slice.
      replace (length pre + pos + 2) with (length pre + (pos + 2)) by lia.
      rewrite drop_app_add. f_equal. lia.
Qed.

Lemma indexOf_app_r pre a x :
  x ∉ pre → indexOf (pre ++ a) x = (λ i, length pre + i) <$> indexOf a x.
Proof.
  induction pre as [|t pre IH]; intros Hpre; cbn.
  - by destruct (indexOf a x).
  - apply not_elem_of_cons in Hpre as [Hne Hpre].
    rewrite decide_False by done. rewrite IH by done.
    by destruct (indexOf a x).
Qed.

(** X5. Tokens that precede the first dictionary-start token do not change
    the dictionary that [extractDictionary] returns. *)
Theorem extractDictionary_skips_prefix config pre rest :
  TokenSeq (pre ++ rest) → dictStart_of config ∉ pre →
  Decompress.extractDictionary (pre ++ rest) config
  = Decompress.extractDictionary rest config.
Proof.
  intros Hseq Hskip. pose proof Hseq as [Hpre Hrest]%Forall_app.
  unfold Decompress.extractDictionary.
  rewrite !normalizeTokens_token_seq by done.
  rewrite indexOf_app_r by done.
  destruct (indexOf rest (dictStart_of config)) as [i|]; cbn; [|done].
  rewrite <- Nat.add_assoc. apply extractDictionary_loop_shift.
Qed.

Lemma extractDictionary_skips_prefix_witness :
  Decompress.extractDictionary
    ([1; 2; 3]%N ++ [0xFFFFFFF0; 0xFFFF0000; 2; 7; 8; 0xFFFFFFF1; 0xFFFF0000]%N) None
  = Decompress.extractDictionary
      [0xFFFFFFF0; 0xFFFF0000; 2; 7; 8; 0xFFFFFFF1; 0xFFFF0000]%N None.
Proof.
  apply (extractDictionary_skips_prefix None [1; 2; 3]%N); compute_done.
Defined.

End DictionaryExtras.

(** ** Further properties of [compress.ts] *)

Section CompressExtras.

Import Layout Streaming.

Context {SC : Type} (wasm : Wasm.WasmExports SC).

Implicit Types (tokens chunk : list N) (calls : list WasmCall).
Implicit Types (entries : list (N * list N)).

Lemma compressStreaming_loop_unfold {SC'} (w : Wasm.WasmExports SC') tokens i c :
  Compress.compressStreaming_loop w tokens i c =
  if decide (i < length tokens) then
    match Wasm.add_chunk w c
            (subarray tokens i (Nat.min (i + N.to_nat Compress.chunkSize) (length tokens)))
    with
    | (c', Thrown e) => (c', Thrown e)
    | (c', Returned _) =>
        Compress.compressStreaming_loop w tokens (i + N.to_nat Compress.chunkSize) c'
    end
  else (c, Returned ()).
Proof.
  rewrite Compress.compressStreaming_loop_equation_1.
  destruct (decide (i < length tokens)); cbn; [|done].
  by destruct (Wasm.add_chunk w c _) as [c' [[]|e]].
Qed.

(** The loop of [compressStreaming], entered at index [i], over a core
    whose [add_chunk] does not throw. *)
Lemma compressStreaming_loop_spec tokens :
  (∀ c chunk, is_thrown (Wasm.add_chunk wasm c chunk).2 = false) →
  ∀ i c calls,
    ∃ c' chunks,
      Compress.compressStreaming_loop (recording wasm) tokens i (c, calls)
        = ((c', calls ++ (Call_add_chunk <$> chunks)), Returned ()) ∧
      concat chunks = drop i tokens ∧
      length chunks * (N.to_nat Compress.chunkSize) < length tokens - i + (N.to_nat Compress.chunkSize) ∧
      length tokens - i ≤ length chunks * (N.to_nat Compress.chunkSize) ∧
      ∀ k chunk, chunks !! k = Some chunk →
        chunk = take (N.to_nat Compress.chunkSize) (drop (i + k * N.to_nat Compress.chunkSize) tokens).
Proof.
  intros Hres i. remember (length tokens - i) as n eqn:Hn.
  revert i Hn. induction (lt_wf n) as [n _ IH]. intros i -> c calls.
  rewrite compressStreaming_loop_unfold.
  assert (Hsize : 0 < N.to_nat Compress.chunkSize) by (unfold Compress.chunkSize; lia).
  set (size := N.to_nat Compress.chunkSize) in *.
  destruct (decide (i < length tokens)) as [Hlt|Hge].
  - rewrite subarray_chunk. cbn [recording Wasm.add_chunk].
    set (chunk := take size (drop i tokens)). specialize (Hres c chunk).
    destruct (Wasm.add_chunk wasm c chunk) as [c1 [[]|e]]; [clear Hres|done].
    destruct (IH (length tokens - (i + size)) ltac:(lia) (i + size) eq_refl
                c1 (calls ++ [Call_add_chunk chunk]))
      as (c' & chunks & Hrun & Hcat & Hlo & Hhi & Hidx).
    exists c', (chunk :: chunks). rewrite Hrun, <- app_assoc.
    split; [done|]. split; [|split; [|split]].
    + cbn. rewrite Hcat. subst chunk.
      rewrite <- (drop_drop tokens size i). apply take_drop.
    + cbn [length]. rewrite Nat.mul_succ_l.
      destruct chunks as [|chunk' chunks]; cbn [length] in *; [lia|].
      rewrite Nat.mul_succ_l in *. lia.
    + cbn [length]. rewrite Nat.mul_succ_l. lia.
    + intros [|k] chunk'; cbn [lookup list_lookup].
      * intros [= <-]. by rewrite Nat.add_0_r.
      * intros Hk. rewrite (Hidx k chunk' Hk). do 2 f_equal. lia.
  - exists c, []. cbn. rewrite app_nil_r, drop_ge by lia.
    split; [done|]. split; [done|]. split; [lia|]. split; [lia|].
    intros k chunk. by rewrite lookup_nil.
Qed.

(** X6. The chunks of [compressStreaming].  Over a core whose [add_chunk]
    does not throw, the loop hands the input to the streaming compressor
    in [ceil(n / 32768)] calls, in order: the [k]-th chunk holds the
    tokens from position [32768 k] on, 32768 of them unless it is the
    last, and the chunks put together are the input. *)
Theorem compressStreaming_chunks tokens c calls :
  (∀ c chunk, is_thrown (Wasm.add_chunk wasm c chunk).2 = false) →
  ∃ c' chunks,
    Compress.compressStreaming_loop (recording wasm) tokens 0 (c, calls)
      = ((c', calls ++ (Call_add_chunk <$> chunks)), Returned ()) ∧
    concat chunks = tokens ∧
    length chunks = ceil_div (length tokens) (N.to_nat Compress.chunkSize) ∧
    ∀ k chunk, chunks !! k = Some chunk →
      chunk = take (N.to_nat Compress.chunkSize) (drop (k * N.to_nat Compress.chunkSize) tokens) ∧
      (S k < length chunks → length chunk = N.to_nat Compress.chunkSize).
Proof.
  intros Hres.
  destruct (compressStreaming_loop_spec tokens Hres 0 c calls)
    as (c' & chunks & Hrun & Hcat & Hlo & Hhi & Hidx).
  rewrite Nat.sub_0_r in Hlo, Hhi.
  assert (Hsize : 0 < N.to_nat Compress.chunkSize) by (unfold Compress.chunkSize; lia).
  set (size := N.to_nat Compress.chunkSize) in *.
  exists c', chunks. split; [done|]. split; [done|].
  split; [by rewrite (ceil_div_bounds _ _ (length chunks))|].
  intros k chunk Hk. rewrite (Hidx k chunk Hk). cbn [Nat.add]. split; [done|].
  intros Hlast. rewrite length_take, length_drop.
  assert (S k * size ≤ (length chunks - 1) * size) by (apply Nat.mul_le_mono_r; lia).
  assert ((length chunks - 1) * size = length chunks * size - size)
    by (rewrite Nat.mul_sub_distr_r; lia).
  cbn [Nat.mul] in *. lia.
Qed.

(** Without the default dictionary-start token in it, an array gives
    [buildDictionaryMap] nothing to parse. *)
Lemma buildDictionaryMap_no_default_start tokens :
  dictStartToken DEFAULT_CONFIG ∉ tokens → Compress.buildDictionaryMap tokens = ∅.
Proof.
  intros Hstart%indexOf_None. unfold Compress.buildDictionaryMap.
  destruct (decide (length tokens = 0)); [done|].
  rewrite buildDictionaryMap_find_spec by lia.
  rewrite drop_0, Hstart, buildDictionaryMap_loop_extract.
  apply extractDictionary_loop_past_end. cbn. lia.
Qed.

(** The parse of [finish] on a dictionary section written with the
    control tokens of its configuration. *)
Lemma finish_dictionaryMap_stream (config : RequiredConfig) entries body :
  metas_avoid (dictEndToken config) entries →
  finish_dictionaryMap config
    (stream (dictStartToken config) (dictEndToken config) entries body)
  = dictionary_of entries.
Proof.
  intros Havoid. unfold finish_dictionaryMap.
  rewrite finish_find_spec by lia. rewrite drop_0.
  replace (indexOf (stream _ _ entries body) (dictStartToken config)) with (Some 0)
    by (unfold stream; cbn; by rewrite decide_True).
  cbn [default Nat.add]. rewrite finish_loop_extract.
  unfold stream at 1.
  rewrite (extractDictionary_loop_entries entries [dictStartToken config]) by done.
  rewrite extractDictionary_loop_unfold.
  change (length [dictStartToken config] + length (encode_entries entries))
    with (1 + length (encode_entries entries)).
  fold (stream (dictStartToken config) (dictEndToken config) entries body).
  rewrite stream_lookup_end. by rewrite decide_True.
Qed.

(** X7. The dictionary map under custom control tokens.  When the core
    writes the dictionary section with the control tokens of the
    configuration and the default dictionary-start token does not occur
    in it, [convertWasmResult], which parses with the default control
    tokens, reports an empty [dictionaryMap], while [finish] of a
    streaming compressor, which parses with the tokens of its
    configuration, reports the entries of the same section. *)
Theorem dictionaryMap_custom_control_tokens startTime endTime
    (this : StreamingCompressorImpl SC) c wasmResult staticDictId totalTimeMs entries :
  finished this = false →
  Wasm.finish wasm (compressor this) = (c, Returned wasmResult) →
  Wasm.getDictionaryTokens wasmResult
    = stream (dictStartToken (config this)) (dictEndToken (config this)) entries [] →
  metas_avoid (dictEndToken (config this)) entries →
  dictStartToken DEFAULT_CONFIG
    ∉ stream (dictStartToken (config this)) (dictEndToken (config this)) entries [] →
  Compress.dictionaryMap (Compress.convertWasmResult wasmResult staticDictId totalTimeMs)
    = ∅ ∧
  ∃ result,
    (finish wasm startTime endTime this).2 = Returned result ∧
    Compress.dictionaryMap result = dictionary_of entries.
Proof.
  intros Hfin Hcore Htokens Havoid Hdefault. split.
  - cbn [Compress.convertWasmResult Compress.dictionaryMap]. rewrite Htokens.
    by apply buildDictionaryMap_no_default_start.
  - unfold finish. rewrite Hfin, Hcore. eexists. split; [reflexivity|].
    cbn [Compress.dictionaryMap]. rewrite Htokens.
    by apply finish_dictionaryMap_stream.
Qed.

(** *** The two paths of [compress] *)

Section ConsistentCore.

(** What a streaming compressor of the core has been given: the
    configuration of its construction and the tokens of its chunks. *)
Variables (content : SC → list N) (config_of : SC → Wasm.WasmConfig).

Variable loadStaticDictionary : string → js_result StaticDictionary.
Variables (startTime endTime : float).

(** The loop of [compressStreaming] over a core that keeps its chunks. *)
Lemma compressStreaming_loop_content tokens :
  (∀ c chunk, ∃ c',
     Wasm.add_chunk wasm c chunk = (c', Returned ()) ∧
     content c' = content c ++ chunk ∧ config_of c' = config_of c) →
  ∀ i c, ∃ c',
    Compress.compressStreaming_loop wasm tokens i c = (c', Returned ()) ∧
    content c' = content c ++ drop i tokens ∧ config_of c' = config_of c.
Proof.
  intros Hadd i. remember (length tokens - i) as n eqn:Hn.
  revert i Hn. induction (lt_wf n) as [n _ IH]. intros i -> c.
  rewrite compressStreaming_loop_unfold.
  assert (Hsize : 0 < N.to_nat Compress.chunkSize) by (unfold Compress.chunkSize; lia).
  set (size := N.to_nat Compress.chunkSize) in *.
  destruct (decide (i < length tokens)) as [Hlt|Hge].
  - rewrite subarray_chunk.
    destruct (Hadd c (take size (drop i tokens))) as (c1 & -> & Hcontent1 & Hconfig1).
    destruct (IH (length tokens - (i + size)) ltac:(lia) (i + size) eq_refl c1)
      as (c' & -> & Hcontent & Hconfig).
    exists c'. split; [done|]. rewrite Hcontent, Hcontent1, Hconfig, Hconfig1.
    split; [|done]. rewrite <- app_assoc. f_equal.
    rewrite <- (drop_drop tokens size i). apply take_drop.
  - exists c. rewrite drop_ge by lia. by rewrite app_nil_r.
Qed.

(** X8. The streaming threshold does not change the result.  Over a core
    whose streaming compressor keeps the configuration and the chunks it
    is given and whose [finish] is its [compress] on them, [compress]
    returns, for an input of any length, what its direct path returns:
    the converted result of the core's [compress] on the normalized
    tokens. *)
Theorem compress_threshold_independent tokens config :
  (∀ cfg, ∃ c,
     Wasm.StreamingCompressor wasm cfg = Returned c ∧
     content c = [] ∧ config_of c = cfg) →
  (∀ c chunk, ∃ c',
     Wasm.add_chunk wasm c chunk = (c', Returned ()) ∧
     content c' = content c ++ chunk ∧ config_of c' = config_of c) →
  (∀ c, (Wasm.finish wasm c).2 = Wasm.compress wasm (content c) (config_of c)) →
  Compress.compress wasm loadStaticDictionary startTime endTime tokens config
  = match Compress.resolveStaticDictId loadStaticDictionary (mergeConfig config) with
    | Thrown e => Thrown e
    | Returned staticDictId =>
        match Wasm.compress wasm (normalizeTokens tokens)
                (Wasm.toWasmConfig (Wasm.as_partial (mergeConfig config))) with
        | Thrown e => Thrown e
        | Returned wasmResult =>
            Returned (Compress.convertWasmResult wasmResult staticDictId
                        (endTime - startTime)%float)
        end
    end.
Proof.
  intros Hnew Hadd Hfinish. unfold Compress.compress.
  destruct (Compress.resolveStaticDictId _ _) as [staticDictId|e]; [|done].
  destruct (decide (_ < _)); [|done].
  unfold Compress.compressStreaming.
  destruct (Hnew (Wasm.toWasmConfig (Wasm.as_partial (mergeConfig config))))
    as (c0 & -> & Hcontent0 & Hconfig0).
  destruct (compressStreaming_loop_content (normalizeTokens tokens) Hadd 0 c0)
    as (c & -> & Hcontent & Hconfig).
  specialize (Hfinish c). rewrite Hcontent, Hcontent0, Hconfig, Hconfig0 in Hfinish.
  cbn [app] in Hfinish. rewrite drop_0 in Hfinish.
  destruct (Wasm.finish wasm c) as [c' r]. cbn [snd] in Hfinish. by rewrite Hfinish.
Qed.

End ConsistentCore.

End CompressExtras.

Lemma compress_threshold_independent_witness :
  Compress.compress Examples.keeping_wasm (λ _, Thrown "no dictionary") 0 0
    [1; 2; 3; 4; 5]%N (Some Examples.low_threshold_config)
  = Returned (Compress.convertWasmResult
                {| Wasm.compression_ratio := 1%float;
                   Wasm.tokens_saved := 0;
                   Wasm.original_length := 5;
                   Wasm.compressed_length := 5;
                   Wasm.getSerializedTokens := [1; 2; 3; 4; 5]%N;
                   Wasm.getDictionaryTokens := [];
                   Wasm.getBodyTokens := [1; 2; 3; 4; 5]%N;
                   Wasm.getOriginalTokens := [1; 2; 3; 4; 5]%N;
                   Wasm.getStaticDictionaryId := None |}
                None (0 - 0)%float).
Proof.
  rewrite (compress_threshold_independent Examples.keeping_wasm fst snd).
  - reflexivity.
  - intros cfg. by eexists.
  - intros c chunk. by eexists.
  - intros c. reflexivity.
Defined.

Lemma dictionaryMap_custom_control_tokens_witness :
  Compress.dictionaryMap
    (Compress.convertWasmResult (Examples.custom_token_result 4) None 0) = ∅ ∧
  ∃ result,
    (Streaming.finish Examples.custom_token_wasm 0 0
       {| Streaming.compressor := 4%N;
          Streaming.config := mergeConfig (Some Examples.custom_token_config);
          Streaming.finished := false;
          Streaming.totalChunks := 1; Streaming.totalTokens := 4 |}).2
      = Returned result ∧
    Compress.dictionaryMap result = Layout.dictionary_of [(500, [7; 8])]%N.
Proof.
  apply (dictionaryMap_custom_control_tokens Examples.custom_token_wasm 0 0
           {| Streaming.compressor := 4%N;
              Streaming.config := mergeConfig (Some Examples.custom_token_config);
              Streaming.finished := false;
              Streaming.totalChunks := 1; Streaming.totalTokens := 4 |}
           4%N (Examples.custom_token_result 4) None 0 [(500, [7; 8])]%N);
    [reflexivity | reflexivity | reflexivity | compute_done | compute_done].
Defined.

Lemma compressStreaming_chunks_witness :
  ∃ c' chunks,
    Compress.compressStreaming_loop (Streaming.recording Streaming.mock_wasm)
      [1; 2; 3; 4; 5]%N 0 ((), [])
      = ((c', [] ++ (Streaming.Call_add_chunk <$> chunks)), Returned ()) ∧
    concat chunks = [1; 2; 3; 4; 5]%N ∧
    length chunks = Streaming.ceil_div (length [1; 2; 3; 4; 5]%N) (N.to_nat Compress.chunkSize).
Proof.
  destruct (compressStreaming_chunks Streaming.mock_wasm [1; 2; 3; 4; 5]%N () [])
    as (c' & chunks & Hrun & Hcat & Hlen & _).
  - intros c chunk. reflexivity.
  - exists c', chunks. exact (conj Hrun (conj Hcat Hlen)).
Defined.

(** ** Further properties of [streaming.ts] *)

Section ProcessInChunksExtras.

Import Streaming.

Context {St T : Type} (callback : St → list N → nat → St * js_result T).

Implicit Types (normalized chunk : list N) (calls trace : list (list N * nat)).
Implicit Types (results : list T).

(** The loop for a callback that may reject, started at index [i] with
    enough fuel. *)
Lemma processInChunks_loop_any fuel normalized c :
  0 < c →
  ∀ i st calls results,
    length normalized - i < fuel →
    ∃ st' trace r,
      processInChunks_loop (traced callback) fuel normalized c i (st, calls) results
        = Some ((st', calls ++ trace), r) ∧
      length trace * c < length normalized - i + c ∧
      (∀ k chunk index, trace !! k = Some (chunk, index) →
         index = i + k * c ∧ chunk = take c (drop index normalized)) ∧
      match r with
      | Returned all =>
          ∃ new, all = results ++ new ∧ length new = length trace ∧
                 length normalized - i ≤ length trace * c
      | Thrown e =>
          ∃ st0 chunk index,
            last trace = Some (chunk, index) ∧ (callback st0 chunk index).2 = Thrown e
      end.
Proof.
  intros Hc. induction fuel as [|fuel IH]; intros i st calls results Hfuel; [lia|].
  cbn [processInChunks_loop]. destruct (decide (i < length normalized)) as [Hlt|Hge].
  - rewrite subarray_chunk. set (chunk := take c (drop i normalized)).
    unfold traced at 1.
    destruct (callback st chunk i) as [st1 [result|e]] eqn:Hcall.
    + destruct (IH (i + c) st1 (calls ++ [(chunk, i)]) (results ++ [result]))
        as (st' & trace & r & Hrun & Hlo & Hidx & Hr); [lia|].
      exists st', ((chunk, i) :: trace), r.
      rewrite Hrun, <- !app_assoc. split; [done|]. split; [|split].
      * cbn [length]. rewrite Nat.mul_succ_l.
        destruct trace as [|call trace]; cbn [length] in *; [lia|].
        rewrite Nat.mul_succ_l in *. lia.
      * intros [|j] chunk' index'; cbn.
        -- intros [= <- <-]. split; [lia|done].
        -- intros Hj. destruct (Hidx j chunk' index' Hj) as [-> ->].
           split; [lia|done].
      * destruct r as [all|e].
        -- destruct Hr as (new & -> & Hnew & Hhi). exists (result :: new).
           rewrite <- app_assoc. split; [done|]. cbn [length].
           split; [by rewrite Hnew|]. rewrite Nat.mul_succ_l. lia.
        -- destruct Hr as (st0 & chunk0 & index0 & Hlast & Hthrown).
           exists st0, chunk0, index0. split; [|done].
           destruct trace as [|call trace]; [done|]. by rewrite last_cons, Hlast.
    + exists st1, [(chunk, i)], (Thrown e). split; [done|]. split; [cbn; lia|]. split.
      * intros [|j] chunk' index'; cbn; [|done].
        intros [= <- <-]. split; [lia|done].
      * exists st, chunk, i. split; [done|]. by rewrite Hcall.
  - exists st, [], (Returned results). rewrite !app_nil_r. split; [done|].
    split; [cbn; lia|]. split; [intros k chunk index; by rewrite lookup_nil|].
    exists []. rewrite app_nil_r. split; [done|]. split; [done|]. cbn. lia.
Qed.

(** X9. [processInChunks] with a callback that may reject.  With a positive
    chunk size and enough fuel the loop ends; the invocations it makes
    are the first chunks of the input, in order; it makes [ceil(n / c)]
    of them when it returns the results, and when it rejects, it does so
    with the error of its last invocation and invokes the callback on no
    later chunk. *)
Theorem processInChunks_first_rejection fuel tokens c st :
  0 < c → length tokens < fuel →
  ∃ st' calls r,
    processInChunks (traced callback) fuel tokens c (st, []) = Some ((st', calls), r) ∧
    length calls ≤ ceil_div (length tokens) c ∧
    (∀ k chunk index, calls !! k = Some (chunk, index) →
       index = k * c ∧ chunk = take c (drop index (normalizeTokens tokens))) ∧
    match r with
    | Returned results =>
        length calls = ceil_div (length tokens) c ∧ length results = length calls
    | Thrown e =>
        ∃ st0 chunk index,
          last calls = Some (chunk, index) ∧ (callback st0 chunk index).2 = Thrown e
    end.
Proof.
  intros Hc Hfuel. unfold processInChunks.
  destruct (processInChunks_loop_any fuel (normalizeTokens tokens) c Hc 0 st [] [])
    as (st' & calls & r & Hrun & Hlo & Hidx & Hr).
  { rewrite normalizeTokens_length. lia. }
  rewrite normalizeTokens_length, Nat.sub_0_r in *.
  exists st', calls, r. cbn [app] in Hrun. split; [done|]. split; [|split].
  - unfold ceil_div. apply Nat.div_le_lower_bound; [lia|].
    rewrite Nat.mul_comm. lia.
  - intros k chunk index Hk. destruct (Hidx k chunk index Hk) as [-> ->]. done.
  - destruct r as [results|e]; [|done].
    destruct Hr as (new & -> & Hnew & Hhi). cbn [app].
    split; [by rewrite (ceil_div_bounds _ _ (length calls))|done].
Qed.

(** X10. A chunk size of zero.  On an input that is not empty the loop does
    not advance: [processInChunks] never returns results, whatever the
    callback does, and with a callback that never rejects it never
    ends. *)
Theorem processInChunks_chunk_size_zero fuel tokens st :
  tokens ≠ [] →
  (∀ st' results,
     processInChunks callback fuel tokens 0 st ≠ Some (st', Returned results)) ∧
  (resolves callback → processInChunks callback fuel tokens 0 st = None).
Proof.
  intros Hne. split; [|intros Hres; by apply processInChunks_zero_diverges].
  intros st' results. unfold processInChunks.
  assert (Hlen : 0 < length (normalizeTokens tokens)).
  { rewrite normalizeTokens_length. destruct tokens; [done|cbn; lia]. }
  generalize (@nil T) as acc. revert st.
  induction fuel as [|fuel IH]; intros st acc; [done|].
  cbn [processInChunks_loop]. rewrite decide_True by done.
  destruct (callback st _ 0) as [st1 [result|e]]; [apply IH|done].
Qed.

End ProcessInChunksExtras.

Lemma processInChunks_first_rejection_witness :
  ∃ st' calls r,
    Streaming.processInChunks
      (Streaming.traced (λ (st : unit) (chunk : list N) (index : nat),
         (st, if decide (index = 3) then Thrown "rejected" else Returned (length chunk))))
      11 [1; 2; 3; 4; 5; 6; 7; 8; 9; 10]%N 3 ((), [])
      = Some ((st', calls), r) ∧
    length calls ≤ Streaming.ceil_div (length [1; 2; 3; 4; 5; 6; 7; 8; 9; 10]%N) 3.
Proof.
  destruct (processInChunks_first_rejection
              (λ (st : unit) (chunk : list N) (index : nat),
                 (st, if decide (index = 3) then Thrown "rejected"
                      else Returned (length chunk)))
              11 [1; 2; 3; 4; 5; 6; 7; 8; 9; 10]%N 3 ())
    as (st' & calls & r & Hrun & Hlen & _); [lia | cbn; lia |].
  exists st', calls, r. exact (conj Hrun Hlen).
Defined.

Section CompressStreamExtras.

Import Streaming.

Context {SC : Type} (wasm : Wasm.WasmExports SC).
Variables (startTime endTime : float).

Implicit Types (this : StreamingCompressorImpl (SC * list WasmCall)).
Implicit Types (chunks before after : list TokenInput) (bad : TokenInput).

Lemma addChunk_recorded this tokens :
  finished this = false →
  ∃ this',
    addChunk (recording wasm) this tokens
      = (this', (Wasm.add_chunk wasm (compressor this).1 (normalizeTokens tokens)).2) ∧
    finished this' = false ∧
    calls_of this' = calls_of this ++ [Call_add_chunk (normalizeTokens tokens)].
Proof.
  intros Hfin. unfold addChunk, calls_of. rewrite Hfin.
  destruct this as [[c calls] cfg fin chunksN tokensN]. cbn.
  destruct (Wasm.add_chunk wasm c (normalizeTokens tokens)) as [c' [[]|e]];
    eexists; (split; [reflexivity|]); by cbn.
Qed.

(** The loop of [compressStream] over chunks that the core accepts. *)
Lemma compressStream_loop_accepted this chunks :
  finished this = false →
  (∀ c chunk, chunk ∈ chunks →
     is_thrown (Wasm.add_chunk wasm c (normalizeTokens chunk)).2 = false) →
  ∃ this',
    compressStream_loop (recording wasm) this chunks = (this', Returned ()) ∧
    finished this' = false ∧
    calls_of this' = calls_of this ++ (Call_add_chunk ∘ normalizeTokens <$> chunks).
Proof.
  revert this. induction chunks as [|chunk chunks IH]; intros this Hfin Hok.
  - exists this. cbn. by rewrite app_nil_r.
  - cbn [compressStream_loop].
    destruct (addChunk_recorded this chunk Hfin) as (this1 & -> & Hfin1 & Hcalls1).
    specialize (Hok (compressor this).1 chunk) as Hchunk.
    destruct (Wasm.add_chunk wasm (compressor this).1 (normalizeTokens chunk)).2
      as [[]|e]; [|by specialize (Hchunk ltac:(left))].
    destruct (IH this1 Hfin1) as (this' & Hrun & Hfin' & Hcalls').
    { intros c chunk' Hin. apply Hok. by right. }
    exists this'. rewrite Hrun, Hcalls', Hcalls1, <- app_assoc. done.
Qed.

(** X11. [compressStream] stops at the first chunk that the core rejects.
    When the core accepts the chunks [before] and throws on the chunk
    [bad], [compressStream] rejects with the error of the core; the core
    has then received the chunks up to [bad], in order, and nothing else:
    no chunk of [after], and no call of [finish]. *)
Theorem compressStream_rejected_chunk config this before bad after e :
  createStreamingCompressor (recording wasm) config = Returned this →
  (∀ c chunk, chunk ∈ before →
     is_thrown (Wasm.add_chunk wasm c (normalizeTokens chunk)).2 = false) →
  (∀ c, (Wasm.add_chunk wasm c (normalizeTokens bad)).2 = Thrown e) →
  compressStream (recording wasm) startTime endTime (before ++ bad :: after) config
    = Thrown e ∧
  ∃ this',
    compressStream_loop (recording wasm) this (before ++ bad :: after)
      = (this', Thrown e) ∧
    calls_of this' = Call_add_chunk ∘ normalizeTokens <$> (before ++ [bad]).
Proof.
  intros Hcreate Hok Hbad.
  assert (Hfin : finished this = false ∧ calls_of this = []).
  { unfold createStreamingCompressor in Hcreate. cbn in Hcreate.
    destruct (Wasm.StreamingCompressor wasm _); [|done].
    by injection Hcreate as <-. }
  destruct Hfin as [Hfin Hcalls].
  assert (Hloop : ∃ this',
    compressStream_loop (recording wasm) this (before ++ bad :: after)
      = (this', Thrown e) ∧
    calls_of this' = Call_add_chunk ∘ normalizeTokens <$> (before ++ [bad])).
  { clear Hcreate.
    destruct (compressStream_loop_accepted this before Hfin Hok)
      as (this1 & Hrun & Hfin1 & Hcalls1).
    assert (Happ : ∀ th l1 l2 th1,
              compressStream_loop (recording wasm) th l1 = (th1, Returned ()) →
              compressStream_loop (recording wasm) th (l1 ++ l2)
              = compressStream_loop (recording wasm) th1 l2).
    { intros th l1. revert th. induction l1 as [|x l1 IH]; intros th l2 th1; cbn.
      - by intros [= <-].
      - destruct (addChunk (recording wasm) th x) as [th' [[]|e']]; [|done].
        apply IH. }
    rewrite (Happ _ _ _ _ Hrun). cbn [compressStream_loop].
    destruct (addChunk_recorded this1 bad Hfin1) as (this2 & -> & _ & Hcalls2).
    rewrite Hbad. exists this2. split; [done|].
    rewrite Hcalls2, Hcalls1, Hcalls, fmap_app. reflexivity. }
  split; [|done]. unfold compressStream. rewrite Hcreate.
  destruct Hloop as (this' & -> & _). done.
Qed.

(** X12. [compressStream] over a core that accepts every chunk is
    [addChunk] on each chunk, in order, followed by [finish]. *)
Theorem compressStream_composition config (compressor0 : StreamingCompressorImpl SC)
    chunks :
  createStreamingCompressor wasm config = Returned compressor0 →
  (∀ c chunk, is_thrown (Wasm.add_chunk wasm c chunk).2 = false) →
  compressStream wasm startTime endTime chunks config
  = (finish wasm startTime endTime
       (foldl (λ (th : StreamingCompressorImpl SC) chunk, (addChunk wasm th chunk).1)
          compressor0 chunks)).2.
Proof.
  intros Hcreate Hok. unfold compressStream. rewrite Hcreate.
  assert (Hfin : finished compressor0 = false).
  { unfold createStreamingCompressor in Hcreate.
    destruct (Wasm.StreamingCompressor wasm _); [|done]. by injection Hcreate as <-. }
  clear Hcreate. revert compressor0 Hfin.
  induction chunks as [|chunk chunks IH]; intros th Hfin; [done|].
  cbn [compressStream_loop foldl]. unfold addChunk at 1 3. rewrite Hfin.
  specialize (Hok (compressor th) (normalizeTokens chunk)) as Hchunk.
  destruct (Wasm.add_chunk wasm (compressor th) (normalizeTokens chunk))
    as [c' [[]|e]]; [|done].
  cbn [fst]. by apply IH.
Qed.

End CompressStreamExtras.

Lemma compressStream_rejected_chunk_witness :
  Streaming.compressStream
    (Streaming.recording
       {| Wasm.compress := Wasm.compress Streaming.mock_wasm;
          Wasm.decompress := Wasm.decompress Streaming.mock_wasm;
          Wasm.discover_patterns := Wasm.discover_patterns Streaming.mock_wasm;
          Wasm.version := Wasm.version Streaming.mock_wasm;
          Wasm.StreamingCompressor := Wasm.StreamingCompressor Streaming.mock_wasm;
          Wasm.add_chunk := λ c tokens,
            (c, if decide (tokens = []) then Thrown "empty chunk" else Returned ());
          Wasm.finish := Wasm.finish Streaming.mock_wasm;
          Wasm.memory_usage := Wasm.memory_usage Streaming.mock_wasm |})
    0 0 ([[1; 2]%N; [3]%N] ++ [] :: [[4; 5]%N]) None
  = Thrown "empty chunk".
Proof.
  apply (compressStream_rejected_chunk _ 0 0 None Streaming.mock_compressor
           [[1; 2]%N; [3]%N] [] [[4; 5]%N] "empty chunk").
  - reflexivity.
  - intros c chunk Hin. cbn.
    destruct (decide (normalizeTokens chunk = [])) as [Hnil|]; [|done].
    destruct chunk; [|done]. exfalso. revert Hin. compute_done.
  - intros c. reflexivity.
Defined.

Lemma compressStream_composition_witness :
  Streaming.compressStream Streaming.mock_wasm 0 0 [[1; 2]%N; [3]%N] None
  = (Streaming.finish Streaming.mock_wasm 0 0
       (foldl (λ (th : Streaming.StreamingCompressorImpl unit) chunk,
                 (Streaming.addChunk Streaming.mock_wasm th chunk).1)
          {| Streaming.compressor := (); Streaming.config := DEFAULT_CONFIG;
             Streaming.finished := false;
             Streaming.totalChunks := 0; Streaming.totalTokens := 0 |}
          [[1; 2]%N; [3]%N])).2.
Proof.
  apply (compressStream_composition Streaming.mock_wasm 0 0 None).
  - reflexivity.
  - intros c chunk. reflexivity.
Defined.

Lemma processInChunks_chunk_size_zero_witness :
  Streaming.processInChunks
    (λ (st : unit) (chunk : list N) (index : nat), (st, Returned (length chunk)))
    1000 [1; 2; 3]%N 0 ()
  = None.
Proof.
  apply (processInChunks_chunk_size_zero
           (λ (st : unit) (chunk : list N) (index : nat), (st, Returned (length chunk)))
           1000 [1; 2; 3]%N ()).
  - discriminate.
  - intros st chunk index. reflexivity.
Defined.

(** ** The loader: one load at a time, and what [resetWasm] leaves behind *)

Section LoaderExtras.

Import Loader.

Context {Bytes Module SC : Type}.

Abbreviation World := (Loader.World Module SC).
Abbreviation Event := (Loader.Event Bytes Module SC).
Abbreviation Awaited := (Loader.Awaited Bytes Module SC).

Implicit Types (w : World) (e : Event) (events more : list Event) (p : nat).
Implicit Types (outcome : Awaited).

(** The worlds that a program using [initWasm] only can be in: with an
    instance, nothing is suspended; without an instance, [initPromise]
    names the one suspended body, or nothing is suspended and
    [initPromise] is [null]. *)
Lemma initWasm_only_invariant events :
  Forall initWasm_only events →
  match wasmInstance (state (run (@initial Module SC) events)) with
  | Some _ => tasks (run (@initial Module SC) events) = ∅
  | None =>
      match initPromise (state (run (@initial Module SC) events)) with
      | None => tasks (run (@initial Module SC) events) = ∅
      | Some p =>
          ∃ phase, tasks (run (@initial Module SC) events) = {[p := phase]} ∧
            (phase = initWasm_loadWasmBytes ∨ phase = initWasm_compile ∨
             phase = initWasm_instantiate)
      end
  end.
Proof.
  induction events as [|e events IH] using rev_ind; intros Hall; [done|].
  apply Forall_app in Hall as [Hevents He]. apply Forall_inv in He.
  specialize (IH Hevents). unfold run in *. rewrite foldl_app. cbn [foldl].
  generalize dependent (foldl step (@initial Module SC) events). intros w IH.
  destruct e as [| | | |p outcome]; cbn in He; try done; cbn [step].
  - unfold initWasm.
    destruct (wasmInstance (state w)) eqn:Hinst; cbn [fst]; [by rewrite Hinst|].
    destruct (initPromise (state w)) eqn:Hprom; cbn [fst].
    + by rewrite Hinst, Hprom.
    + cbn. exists initWasm_loadWasmBytes. rewrite IH.
      split; [by rewrite insert_empty | by left].
  - unfold resume.
    destruct (wasmInstance (state w)) eqn:Hinst.
    { rewrite IH, lookup_empty. by rewrite Hinst. }
    destruct (initPromise (state w)) as [q|] eqn:Hprom.
    2:{ rewrite IH, lookup_empty. by rewrite Hinst, Hprom. }
    destruct IH as (phase & Htasks & Hphase). rewrite Htasks.
    destruct (decide (p = q)) as [->|Hne].
    2:{ rewrite lookup_singleton_ne by done. rewrite Hinst, Hprom. eauto. }
    rewrite lookup_singleton_eq.
    destruct Hphase as [-> | [-> | ->]]; destruct outcome; cbn;
      rewrite ?Hinst, ?Hprom, ?Htasks, ?insert_singleton_eq, ?delete_singleton_eq;
      eauto 6.
Qed.

(** X13. [initWasm] loads once at a time.  In a program that initializes
    through [initWasm] only, however its calls and the completions of
    the awaited operations interleave, at most one load is in flight. *)
Theorem initWasm_single_flight events :
  Forall initWasm_only events →
  size (tasks (run (@initial Module SC) events)) ≤ 1.
Proof.
  intros Hall. pose proof (initWasm_only_invariant events Hall) as Hinv.
  destruct (wasmInstance (state (run initial events))).
  - by rewrite Hinv, map_size_empty; lia.
  - destruct (initPromise (state (run initial events))).
    + destruct Hinv as (phase & -> & _). by rewrite map_size_singleton.
    + rewrite Hinv, map_size_empty. lia.
Qed.

(** With an instance and nothing suspended, calls of [initWasm] and
    settling promises change nothing. *)
Lemma initWasm_only_ready w more :
  isWasmInitialized (state w) = true → tasks w = ∅ →
  Forall initWasm_only more → run w more = w.
Proof.
  intros Hready Hidle. unfold isWasmInitialized in Hready.
  induction 1 as [|e more He _ IH]; [done|].
  unfold run in *. cbn [foldl].
  replace (step w e) with w; [done|].
  destruct e as [| | | |p outcome]; cbn in He; try done; cbn [step].
  - unfold initWasm. by destruct (wasmInstance (state w)).
  - unfold resume. by rewrite Hidle, lookup_empty.
Qed.

(** X14. [initWasm] initializes once.  In a program that initializes through
    [initWasm] only, once [isWasmInitialized] is true no later call of
    [initWasm] and no later completion changes the instance, the module,
    the promise or what is in flight. *)
Theorem initWasm_idempotent events more :
  Forall initWasm_only events → Forall initWasm_only more →
  isWasmInitialized (state (run (@initial Module SC) events)) = true →
  run (@initial Module SC) (events ++ more) = run (@initial Module SC) events.
Proof.
  intros Hevents Hmore Hready. unfold run at 1. rewrite foldl_app.
  apply (initWasm_only_ready _ more Hready); [|done].
  pose proof (initWasm_only_invariant events Hevents) as Hinv.
  unfold isWasmInitialized in Hready.
  by destruct (wasmInstance (state (run initial events))).
Qed.

(** X15. A failed load can be tried again.  In a program that initializes
    through [initWasm] only, when no load is in flight and none has
    succeeded, the next call of [initWasm] starts a load and returns a
    new promise. *)
Theorem initWasm_retry_after_failure events :
  Forall initWasm_only events →
  isWasmInitialized (state (run (@initial Module SC) events)) = false →
  tasks (run (@initial Module SC) events) = ∅ →
  ∃ w',
    initWasm (run (@initial Module SC) events)
      = (w', Promise (next (run (@initial Module SC) events))) ∧
    tasks w' = {[next (run (@initial Module SC) events) := initWasm_loadWasmBytes]}.
Proof.
  intros Hevents Hnone Hidle.
  pose proof (initWasm_only_invariant events Hevents) as Hinv.
  unfold isWasmInitialized in Hnone. unfold initWasm.
  destruct (wasmInstance (state (run initial events))); [done|].
  destruct (initPromise (state (run initial events))) as [p|].
  - destruct Hinv as (phase & Htasks & _). rewrite Hidle in Htasks.
    apply (f_equal (λ m, m !! p)) in Htasks.
    by rewrite lookup_empty, lookup_singleton_eq in Htasks.
  - eexists. split; [reflexivity|]. cbn. by rewrite Hidle, insert_empty.
Qed.

(** The names of the suspended bodies are below the next unused name. *)
Lemma tasks_below_next events p phase :
  tasks (run (@initial Module SC) events) !! p = Some phase →
  p < next (run (@initial Module SC) events).
Proof.
  revert p phase. induction events as [|e events IH] using rev_ind; [done|].
  unfold run in *. rewrite foldl_app. cbn [foldl].
  generalize dependent (foldl step (@initial Module SC) events). intros w IH p phase.
  assert (Hsuspend : ∀ s phase0, tasks (suspend w s phase0) !! p = Some phase →
            p < next (suspend w s phase0)).
  { intros s phase0. cbn. intros [[<- _]|[_ Hp]]%lookup_insert_Some; [lia|].
    apply IH in Hp. lia. }
  destruct e as [|module|bytes| |q outcome]; cbn [step].
  - unfold initWasm. destruct (wasmInstance (state w)); [apply IH|].
    destruct (initPromise (state w)); [apply IH|apply Hsuspend].
  - unfold initWasmFromModule. destruct (wasmInstance (state w)); [apply IH|apply Hsuspend].
  - unfold initWasmFromBytes. destruct (wasmInstance (state w)); [apply IH|apply Hsuspend].
  - apply IH.
  - unfold resume. destruct (tasks w !! q) as [phase0|] eqn:Hq; [|apply IH].
    assert (Hcontinue : ∀ s phase1, tasks (continue w q s phase1) !! p = Some phase →
              p < next (continue w q s phase1)).
    { intros s phase1. cbn. intros [[<- _]|[_ Hp]]%lookup_insert_Some; by eapply IH. }
    assert (Hsettle : ∀ s r, tasks (settle w q s r) !! p = Some phase →
              p < next (settle w q s r)).
    { intros s r. cbn. intros [_ Hp]%lookup_delete_Some. by eapply IH. }
    destruct phase0, outcome;
      first [apply IH | apply Hcontinue | apply Hsettle].
Qed.


Lemma initWasmFromModule_without_instance w module :
  wasmInstance (state w) = None →
  (initWasmFromModule w module).1
  = {| state := {| wasmModule := Some module; wasmInstance := None;
                   initPromise := initPromise (state w) |};
       tasks := <[next w := initWasmFromModule_instantiate]> (tasks w);
       settled := settled w; next := S (next w) |}.
Proof. intros Hnone. unfold initWasmFromModule, suspend. by rewrite !Hnone. Qed.

Lemma resume_initWasmFromModule w p exports :
  tasks w !! p = Some initWasmFromModule_instantiate →
  resume w p (@Got_instance Bytes Module SC exports)
  = settle w p (set_wasmInstance (state w) exports) (Returned ()).
Proof. intros Hp. unfold resume. by rewrite Hp. Qed.

(** X17. [initWasmFromModule] does not guard against overlapping calls.
    Called twice before an instance is there, it starts two
    instantiations; [wasmModule] is the module of the second call, and
    when the instantiation of the second call completes before that of
    the first, the instance that stays is the one of the first module. *)
Theorem initWasmFromModule_overlapping events w module1 module2 exports1 exports2 :
  w = run (@initial Module SC) events →
  isWasmInitialized (state w) = false →
  size (tasks (run w [@Call_initWasmFromModule Bytes Module SC module1; Call_initWasmFromModule module2]))
    = size (tasks w) + 2 ∧
  wasmModule (state (run w [@Call_initWasmFromModule Bytes Module SC module1;
                            Call_initWasmFromModule module2;
                            Settles (S (next w)) (Got_instance exports2);
                            Settles (next w) (Got_instance exports1)]))
    = Some module2 ∧
  getWasm (state (run w [@Call_initWasmFromModule Bytes Module SC module1;
                         Call_initWasmFromModule module2;
                         Settles (S (next w)) (Got_instance exports2);
                         Settles (next w) (Got_instance exports1)]))
    = Returned exports1.
Proof.
  intros -> Hnone.
  assert (Hfresh : ∀ p, next (run (@initial Module SC) events) ≤ p →
            tasks (run (@initial Module SC) events) !! p = None).
  { intros p Hp. apply eq_None_not_Some. intros [phase Hphase].
    apply tasks_below_next in Hphase. lia. }
  generalize dependent (run (@initial Module SC) events). intros w Hnone Hfresh.
  unfold isWasmInitialized in Hnone.
  destruct (wasmInstance (state w)) eqn:Hinstance; [done|]. clear Hnone.
  unfold run. cbn [foldl step].
  rewrite (initWasmFromModule_without_instance w module1 Hinstance).
  rewrite (initWasmFromModule_without_instance _ module2) by reflexivity.
  cbn [state tasks settled next initPromise].
  split; [|split].
  - rewrite !map_size_insert_None; [lia|by apply Hfresh|].
    rewrite lookup_insert_ne by lia. apply Hfresh. lia.
  - rewrite (resume_initWasmFromModule _ (S (next w))) by (cbn; apply lookup_insert_eq).
    rewrite resume_initWasmFromModule; [done|].
    cbn. rewrite lookup_delete_ne by lia. rewrite lookup_insert_ne by lia.
    apply lookup_insert_eq.
  - rewrite (resume_initWasmFromModule _ (S (next w))) by (cbn; apply lookup_insert_eq).
    rewrite resume_initWasmFromModule; [done|].
    cbn. rewrite lookup_delete_ne by lia. rewrite lookup_insert_ne by lia.
    apply lookup_insert_eq.
Qed.

End LoaderExtras.

Lemma initWasm_idempotent_witness :
  Loader.run (@Loader.initial unit unit)
    ([Loader.Call_initWasm; Loader.Call_initWasm;
      Loader.Settles 0 (Loader.Got_bytes ());
      Loader.Settles 0 (Loader.Got_module ());
      Loader.Settles 0 (Loader.Got_instance Streaming.mock_wasm)]
     ++ [Loader.Call_initWasm; Loader.Settles 0 (Loader.Failed "late")])
  = Loader.run (@Loader.initial unit unit)
      [Loader.Call_initWasm; Loader.Call_initWasm;
       Loader.Settles 0 (Loader.Got_bytes ());
       Loader.Settles 0 (Loader.Got_module ());
       Loader.Settles 0 (Loader.Got_instance Streaming.mock_wasm)].
Proof.
  apply (@initWasm_idempotent unit unit unit).
  - repeat constructor.
  - repeat constructor.
  - reflexivity.
Defined.

Lemma initWasm_retry_after_failure_witness :
  ∃ w',
    Loader.initWasm
      (Loader.run (@Loader.initial unit unit)
         [Loader.Call_initWasm; Loader.Settles 0 (@Loader.Failed unit unit unit "network")])
      = (w', Loader.Promise 1) ∧
    Loader.tasks w' = {[1 := Loader.initWasm_loadWasmBytes]}.
Proof.
  destruct (@initWasm_retry_after_failure unit unit unit
              [Loader.Call_initWasm; Loader.Settles 0 (Loader.Failed "network")])
    as (w' & Hcall & Htasks).
  - repeat constructor.
  - reflexivity.
  - reflexivity.
  - exists w'. exact (conj Hcall Htasks).
Defined.


Lemma initWasm_single_flight_witness :
  size (Loader.tasks
          (Loader.run (@Loader.initial unit unit)
             [Loader.Call_initWasm; Loader.Call_initWasm;
              Loader.Settles 0 (@Loader.Got_bytes unit unit unit ());
              Loader.Call_initWasm])) ≤ 1.
Proof.
  apply (@initWasm_single_flight unit unit unit). repeat constructor.
Defined.

Lemma initWasmFromModule_overlapping_witness :
  Loader.getWasm
    (Loader.state
       (Loader.run (@Loader.initial bool unit)
          [Loader.Call_initWasmFromModule true;
           Loader.Call_initWasmFromModule false;
           Loader.Settles 1 (@Loader.Got_instance unit bool unit Examples.custom_token_wasm_unit);
           Loader.Settles 0 (Loader.Got_instance Streaming.mock_wasm)]))
  = Returned Streaming.mock_wasm.
Proof.
  apply (@initWasmFromModule_overlapping unit bool unit [] _ true false
           Streaming.mock_wasm Examples.custom_token_wasm_unit eq_refl eq_refl).
Defined.

(** ** Worker pools: dispatch, responses, termination *)

Section WorkerExtras.

Import Worker.

Implicit Types (pool : Pool) (op : Operation) (ops more : list Operation).
Implicit Types (p q worker count : nat) (requestId : string).
Implicit Types (message : WorkerRequest) (response : WorkerResponse).
Implicit Types (g : Loader.Globals).

(** *** The workers of a new pool *)

Lemma create_workers_spec turns :
  ∀ i pool,
    workers (create_workers turns i pool) = workers pool ++ seq i turns ∧
    posted (create_workers turns i pool)
      = posted pool ++ ((λ j, (j, Request_init)) <$> seq i turns) ∧
    kind (create_workers turns i pool) = kind pool ∧
    pendingRequests (create_workers turns i pool) = pendingRequests pool ∧
    nextWorkerIndex (create_workers turns i pool) = nextWorkerIndex pool ∧
    terminated (create_workers turns i pool) = terminated pool ∧
    promises (create_workers turns i pool) = promises pool.
Proof.
  induction turns as [|turns IH]; intros i pool; cbn [create_workers seq fmap list_fmap].
  - by rewrite !app_nil_r.
  - destruct (IH (S i)
                {| kind := kind pool; workers := workers pool ++ [i];
                   pendingRequests := pendingRequests pool;
                   nextWorkerIndex := nextWorkerIndex pool;
                   posted := posted pool ++ [(i, Request_init)];
                   terminated := terminated pool; urlRevoked := urlRevoked pool;
                   promises := promises pool |})
      as (-> & -> & -> & -> & -> & -> & ->).
    cbn. by rewrite <- !app_assoc.
Qed.

Lemma createWorkerPool_spec g count :
  workers (createWorkerPool g (Some count)) = seq 0 count ∧
  posted (createWorkerPool g (Some count)) = (λ j, (j, Request_init)) <$> seq 0 count ∧
  pendingRequests (createWorkerPool g (Some count)) = ∅ ∧
  nextWorkerIndex (createWorkerPool g (Some count)) = Some 0 ∧
  terminated (createWorkerPool g (Some count)) = [] ∧
  promises (createWorkerPool g (Some count)) = [].
Proof.
  unfold createWorkerPool, createNodeWorkerPool, createBrowserWorkerPool.
  cbn [Compress.nullish_or nullish default].
  destruct (_ && _ && _);
    match goal with
    | |- context [create_workers ?n ?i ?pool] =>
        destruct (create_workers_spec n i pool) as (-> & -> & _ & -> & -> & -> & ->)
    end; done.
Qed.

(** *** What the operations leave alone *)

Lemma settle_fields pool p outcome :
  workers (settle pool p outcome) = workers pool ∧
  nextWorkerIndex (settle pool p outcome) = nextWorkerIndex pool ∧
  posted (settle pool p outcome) = posted pool ∧
  pendingRequests (settle pool p outcome) = pendingRequests pool ∧
  terminated (settle pool p outcome) = terminated pool.
Proof. done. Qed.

Lemma settle_promises pool p outcome q :
  promises (settle pool p outcome) !! q =
  if decide (q = p) then
    match promises pool !! p with
    | Some Pending => Some outcome
    | other => other
    end
  else promises pool !! q.
Proof.
  cbn. destruct (promises pool !! p) as [[]|] eqn:Hp.
  - destruct (decide (q = p)) as [->|Hne].
    + apply list_lookup_insert_eq. by eapply lookup_lt_Some.
    + by apply list_lookup_insert_ne.
  - destruct (decide (q = p)) as [->|Hne]; done.
  - destruct (decide (q = p)) as [->|Hne]; done.
  - destruct (decide (q = p)) as [->|Hne]; done.
Qed.

Lemma settle_length pool p outcome :
  length (promises (settle pool p outcome)) = length (promises pool).
Proof. cbn. destruct (promises pool !! p) as [[]|]; by rewrite ?length_insert. Qed.

Lemma onmessage_fields pool response :
  workers (onmessage pool response) = workers pool ∧
  nextWorkerIndex (onmessage pool response) = nextWorkerIndex pool ∧
  posted (onmessage pool response) = posted pool ∧
  terminated (onmessage pool response) = terminated pool ∧
  length (promises (onmessage pool response)) = length (promises pool).
Proof.
  assert (Hhandle : ∀ requestId result error,
    workers (handle_response pool requestId result error) = workers pool ∧
    nextWorkerIndex (handle_response pool requestId result error) = nextWorkerIndex pool ∧
    posted (handle_response pool requestId result error) = posted pool ∧
    terminated (handle_response pool requestId result error) = terminated pool ∧
    length (promises (handle_response pool requestId result error))
      = length (promises pool)).
  { intros requestId result error. unfold handle_response.
    destruct (pendingRequests pool !! requestId) as [p|]; [|done].
    destruct error as [message|]; [destruct (decide (message = EmptyString))|];
      by rewrite settle_length. }
  destruct response; [apply Hhandle..|done].
Qed.

(** *** A request in a pool that has the worker it asks for *)

Lemma post_request_with_worker pool requestId message i worker :
  nextWorkerIndex pool = Some i → workers pool !! i = Some worker →
  (post_request pool requestId message).2 = length (promises pool) ∧
  workers (post_request pool requestId message).1 = workers pool ∧
  nextWorkerIndex (post_request pool requestId message).1
    = Some ((i + 1) mod length (workers pool)) ∧
  posted (post_request pool requestId message).1 = posted pool ++ [(worker, message)] ∧
  pendingRequests (post_request pool requestId message).1
    = <[requestId := length (promises pool)]> (pendingRequests pool) ∧
  promises (post_request pool requestId message).1 = promises pool ++ [Pending] ∧
  terminated (post_request pool requestId message).1 = terminated pool.
Proof.
  intros Hnext Hworker. unfold post_request, getWorker. cbn.
  rewrite Hnext. cbn. rewrite Hworker. cbn.
  apply lookup_lt_Some in Hworker.
  rewrite decide_False by lia. done.
Qed.

Lemma post_request_without_worker pool requestId message :
  workers pool = [] →
  (post_request pool requestId message).2 = length (promises pool) ∧
  workers (post_request pool requestId message).1 = [] ∧
  posted (post_request pool requestId message).1 = posted pool ∧
  pendingRequests (post_request pool requestId message).1
    = <[requestId := length (promises pool)]> (pendingRequests pool) ∧
  promises (post_request pool requestId message).1
    = promises pool ++ [Rejected TypeError] ∧
  terminated (post_request pool requestId message).1 = terminated pool.
Proof.
  intros Hnone. unfold post_request, getWorker. cbn. rewrite Hnone.
  assert (Hlast : (promises pool ++ [Pending]) !! length (promises pool) = Some Pending)
    by (by rewrite lookup_app_r, Nat.sub_diag).
  assert (Hset : <[length (promises pool) := Rejected TypeError]> (promises pool ++ [Pending])
                 = promises pool ++ [Rejected TypeError])
    by (by rewrite insert_app_r_alt, Nat.sub_diag).
  destruct (nextWorkerIndex pool) as [i|]; cbn; rewrite ?lookup_nil; unfold settle; cbn;
    rewrite Hlast, Hset; done.
Qed.

Lemma step_call pool op message :
  message_of op = Some message →
  ∃ requestId, step pool op = (post_request pool requestId message).1.
Proof.
  destruct op as [requestId tokens config|requestId tokens config| |]; intros [= <-].
  - by exists requestId.
  - by exists requestId.
Qed.

(** The pool after operations other than [terminate]: the workers are
    those created, and the index and the posted messages follow the
    number of calls. *)
Lemma dispatch_invariant g count ops :
  0 < count → Forall keeps_workers ops →
  workers (run (createWorkerPool g (Some count)) ops) = seq 0 count ∧
  nextWorkerIndex (run (createWorkerPool g (Some count)) ops)
    = Some (length (omap message_of ops) mod count) ∧
  posted (run (createWorkerPool g (Some count)) ops)
    = ((λ j, (j, Request_init)) <$> seq 0 count)
      ++ imap (λ j message, (j mod count, message)) (omap message_of ops).
Proof.
  intros Hcount. induction ops as [|op ops IH] using rev_ind; intros Hall.
  - destruct (createWorkerPool_spec g count) as (Hw & Hp & _ & Hn & _).
    cbn. rewrite Hw, Hp, Hn, app_nil_r, Nat.Div0.mod_0_l. done.
  - apply Forall_app in Hall as [Hops Hop]. apply Forall_inv in Hop.
    destruct (IH Hops) as (Hw & Hn & Hp). clear IH.
    unfold run in *. rewrite foldl_app, omap_app, imap_app, length_app. cbn [foldl].
    generalize dependent (foldl step (createWorkerPool g (Some count)) ops).
    intros pool Hw Hn Hp.
    destruct (message_of op) as [message|] eqn:Hmessage.
    + destruct (step_call pool op message Hmessage) as [requestId ->].
      cbn [omap list_omap]. rewrite Hmessage. cbn [length imap app].
      assert (Hlookup : workers pool !! (length (omap message_of ops) mod count)
                        = Some (length (omap message_of ops) mod count)).
      { rewrite Hw. apply lookup_seq_lt. by apply Nat.mod_upper_bound; lia. }
      destruct (post_request_with_worker pool requestId message _ _ Hn Hlookup)
        as (_ & -> & -> & -> & _).
      rewrite Hw, Hp, length_seq, Nat.Div0.add_mod_idemp_l, Nat.add_0_r, <- app_assoc.
      done.
    + assert (Hstep : workers (step pool op) = workers pool ∧
                      nextWorkerIndex (step pool op) = nextWorkerIndex pool ∧
                      posted (step pool op) = posted pool).
      { destruct op as [| |response|]; cbn in Hop, Hmessage; try done. cbn [step].
        destruct (onmessage_fields pool response) as (-> & -> & -> & _). done. }
      destruct Hstep as (-> & -> & ->).
      cbn [omap list_omap]. rewrite Hmessage. cbn. rewrite Nat.add_0_r, app_nil_r. done.
Qed.

(** X18. Round-robin dispatch.  In a pool of [count] workers, as long as
    [terminate] is not called, the [j]-th request, counted from zero over
    the calls of [compress] and [decompress] together, is posted to the
    worker [j mod count], whatever messages arrive in between. *)
Theorem round_robin_dispatch g count ops :
  0 < count → Forall keeps_workers ops →
  posted (run (createWorkerPool g (Some count)) ops)
  = ((λ j, (j, Request_init)) <$> seq 0 count)
    ++ imap (λ j message, (j mod count, message)) (omap message_of ops).
Proof. intros Hcount Hall. by destruct (dispatch_invariant g count ops Hcount Hall) as (_ & _ & ->). Qed.

(** *** Requests and their promises *)

(** A request, with or without a worker: a new promise, stored under
    the id. *)
Lemma post_request_promise pool requestId message :
  (post_request pool requestId message).2 = length (promises pool) ∧
  pendingRequests (post_request pool requestId message).1
    = <[requestId := length (promises pool)]> (pendingRequests pool) ∧
  ∃ new, promises (post_request pool requestId message).1 = promises pool ++ [new].
Proof.
  destruct (nextWorkerIndex pool ≫= λ i, workers pool !! i) as [worker|] eqn:Hworker.
  - destruct (nextWorkerIndex pool) as [i|] eqn:Hnext; [|done]. cbn in Hworker.
    destruct (post_request_with_worker pool requestId message i worker Hnext Hworker)
      as (-> & _ & _ & _ & -> & -> & _).
    eauto.
  - unfold post_request, getWorker. cbn. rewrite Hworker. cbn.
    rewrite lookup_app_r, Nat.sub_diag by done. cbn.
    rewrite insert_app_r_alt, Nat.sub_diag by done. cbn. eauto.
Qed.

(** A response whose id is pending: the entry is deleted and its promise
    takes what the response says, the other promises staying as they
    are. *)
Lemma handle_response_pending pool requestId result error p :
  pendingRequests pool !! requestId = Some p →
  pendingRequests (handle_response pool requestId result error)
    = delete requestId (pendingRequests pool) ∧
  ∀ q, promises (handle_response pool requestId result error) !! q =
       if decide (q = p) then
         match promises pool !! p with
         | Some Pending =>
             Some match error with
                  | Some text =>
                      if decide (text = EmptyString) then Fulfilled result
                      else Rejected (Error text)
                  | None => Fulfilled result
                  end
         | other => other
         end
       else promises pool !! q.
Proof.
  intros Hp. unfold handle_response. rewrite Hp.
  destruct error as [text|]; [destruct (decide (text = EmptyString))|];
    (split; [done|]); intros q; by rewrite settle_promises.
Qed.

Lemma handle_response_unknown pool requestId result error :
  pendingRequests pool !! requestId = None →
  handle_response pool requestId result error = pool.
Proof. intros Hp. unfold handle_response. by rewrite Hp. Qed.

Lemma onmessage_handle pool response requestId :
  requestId_of response = Some requestId →
  onmessage pool response
  = handle_response pool requestId (result_of response) (error_of response).
Proof. destruct response; intros [= <-]; done. Qed.

(** What an operation does to the entry of an id: a call stores a
    promise under the id it is given, a message deletes the entry of the
    id of its response, and nothing else touches [pendingRequests]. *)
Lemma step_pendingRequests pool op requestId :
  call_id op ≠ Some requestId →
  pendingRequests (step pool op) !! requestId
  = if decide (message_id op = Some requestId) then None
    else pendingRequests pool !! requestId.
Proof.
  intros Hcall. destruct op as [id0 tokens config|id0 tokens config|response|];
    cbn [step call_id message_id] in *.
  - unfold compress.
    destruct (post_request_promise pool id0 (Request_compress id0 tokens config))
      as (_ & -> & _).
    rewrite decide_False by done. apply lookup_insert_ne. congruence.
  - unfold decompress.
    destruct (post_request_promise pool id0 (Request_decompress id0 tokens config))
      as (_ & -> & _).
    rewrite decide_False by done. apply lookup_insert_ne. congruence.
  - destruct (requestId_of response) as [id0|] eqn:Hid.
    2:{ rewrite decide_False by done. by destruct response. }
    rewrite (onmessage_handle _ _ _ Hid).
    destruct (pendingRequests pool !! id0) as [p0|] eqn:Hp0.
    + destruct (handle_response_pending pool id0 (result_of response)
                  (error_of response) p0 Hp0) as [-> _].
      destruct (decide (Some id0 = Some requestId)) as [[= ->]|Hne].
      * apply lookup_delete_eq.
      * apply lookup_delete_ne. congruence.
    + rewrite handle_response_unknown by done.
      destruct (decide (Some id0 = Some requestId)) as [[= ->]|Hne]; done.
  - by rewrite decide_False.
Qed.

(** The entry of an id stays as it is while no call is given the id and
    no message carries it. *)
Lemma pending_entry_kept between :
  ∀ pool requestId,
    Forall (λ op, call_id op ≠ Some requestId ∧ message_id op ≠ Some requestId) between →
    pendingRequests (run pool between) !! requestId = pendingRequests pool !! requestId.
Proof.
  induction between as [|op between IH]; intros pool requestId Hall; [done|].
  apply Forall_cons in Hall as [[Hcall Hmessage] Hall].
  unfold run in *. cbn [foldl]. rewrite IH by done.
  rewrite step_pendingRequests by done. by rewrite decide_False.
Qed.

(** An id without an entry stays without one while no call is given the
    id. *)
Lemma absent_entry_kept between :
  ∀ pool requestId,
    Forall (λ op, call_id op ≠ Some requestId) between →
    pendingRequests pool !! requestId = None →
    pendingRequests (run pool between) !! requestId = None.
Proof.
  induction between as [|op between IH]; intros pool requestId Hall Hnone; [done|].
  apply Forall_cons in Hall as [Hcall Hall].
  unfold run in *. cbn [foldl]. apply IH; [done|].
  rewrite step_pendingRequests by done. by destruct (decide _).
Qed.

(** In a pool that keeps its workers, every id of [pendingRequests]
    names a pending promise, and no promise is stored under two ids. *)
Lemma pending_invariant g count ops :
  0 < count → Forall keeps_workers ops →
  (∀ requestId p,
     pendingRequests (run (createWorkerPool g (Some count)) ops) !! requestId = Some p →
     promises (run (createWorkerPool g (Some count)) ops) !! p = Some Pending) ∧
  (∀ requestId requestId' p,
     pendingRequests (run (createWorkerPool g (Some count)) ops) !! requestId = Some p →
     pendingRequests (run (createWorkerPool g (Some count)) ops) !! requestId' = Some p →
     requestId = requestId').
Proof.
  intros Hcount. induction ops as [|op ops IH] using rev_ind; intros Hall.
  - destruct (createWorkerPool_spec g count) as (_ & _ & Hpending & _).
    cbn. rewrite Hpending. split; intros ?; intros; by rewrite lookup_empty in *.
  - apply Forall_app in Hall as [Hops Hop]. apply Forall_inv in Hop.
    destruct (IH Hops) as [Hpending Hinjective]. clear IH.
    destruct (dispatch_invariant g count ops Hcount Hops) as (Hw & Hn & _).
    unfold run in *. rewrite foldl_app. cbn [foldl].
    generalize dependent (foldl step (createWorkerPool g (Some count)) ops).
    intros pool Hpending Hinjective Hw Hn.
    destruct (message_of op) as [message|] eqn:Hmessage.
    + destruct (step_call pool op message Hmessage) as [requestId0 ->].
      assert (Hlookup : workers pool !! (length (omap message_of ops) mod count)
                        = Some (length (omap message_of ops) mod count)).
      { rewrite Hw. apply lookup_seq_lt. by apply Nat.mod_upper_bound; lia. }
      destruct (post_request_with_worker pool requestId0 message _ _ Hn Hlookup)
        as (_ & _ & _ & _ & -> & -> & _).
      assert (Hold : ∀ requestId p, pendingRequests pool !! requestId = Some p →
                       p < length (promises pool)).
      { intros requestId p Hp%Hpending. by eapply lookup_lt_Some. }
      split.
      * intros requestId p [[-> <-]|[_ Hp]]%lookup_insert_Some.
        -- by rewrite lookup_app_r, Nat.sub_diag.
        -- rewrite lookup_app_l by (by eapply Hold). by eapply Hpending.
      * intros requestId requestId' p
          [[-> <-]|[_ Hp]]%lookup_insert_Some [[-> Heq]|[_ Hp']]%lookup_insert_Some;
          try done.
        -- apply Hold in Hp'. lia.
        -- apply Hold in Hp. lia.
        -- by eapply Hinjective.
    + destruct op as [| |response|]; cbn in Hop, Hmessage; try done. cbn [step].
      destruct (requestId_of response) as [requestId0|] eqn:Hid.
      2:{ destruct response; done. }
      rewrite (onmessage_handle _ _ _ Hid).
      destruct (pendingRequests pool !! requestId0) as [p0|] eqn:Hp0.
      2:{ by rewrite handle_response_unknown. }
      destruct (handle_response_pending pool requestId0 (result_of response)
                  (error_of response) p0 Hp0) as [-> Hpromises].
      split.
      * intros requestId p [Hne Hp]%lookup_delete_Some.
        rewrite Hpromises, decide_False; [by eapply Hpending|].
        intros ->. by apply Hne, (Hinjective _ _ p0).
      * intros requestId requestId' p [_ Hp]%lookup_delete_Some [_ Hp']%lookup_delete_Some.
        by eapply Hinjective.
Qed.

(** X19. A response settles the request of its id, once.  In a pool that
    keeps its workers, a response whose id is pending settles the
    promise stored under that id, rejecting it with the error text when
    that text is not empty and fulfilling it with the result otherwise;
    the id is removed and no other promise changes.  A later response
    with the same id changes nothing, whatever happens to the pool in
    between, as long as no call is given that id again. *)
Theorem response_settles_its_request g count ops response requestId p pool :
  0 < count → Forall keeps_workers ops →
  pool = run (createWorkerPool g (Some count)) ops →
  requestId_of response = Some requestId →
  pendingRequests pool !! requestId = Some p →
  promises pool !! p = Some Pending ∧
  promises (onmessage pool response) !! p
    = Some match error_of response with
           | Some text =>
               if decide (text = EmptyString) then Fulfilled (result_of response)
               else Rejected (Error text)
           | None => Fulfilled (result_of response)
           end ∧
  pendingRequests (onmessage pool response) = delete requestId (pendingRequests pool) ∧
  (∀ q, q ≠ p → promises (onmessage pool response) !! q = promises pool !! q) ∧
  (∀ between response',
     Forall (λ op, call_id op ≠ Some requestId) between →
     requestId_of response' = Some requestId →
     onmessage (run (onmessage pool response) between) response'
     = run (onmessage pool response) between).
Proof.
  intros Hcount Hall -> Hid Hp.
  destruct (pending_invariant g count ops Hcount Hall) as [Hpending _].
  generalize dependent (run (createWorkerPool g (Some count)) ops). intros pool Hp Hpending.
  rewrite (onmessage_handle _ _ _ Hid).
  destruct (handle_response_pending pool requestId (result_of response)
              (error_of response) p Hp) as [Hdeleted Hpromises].
  split; [by eapply Hpending|]. split; [|split; [done|split]].
  - rewrite Hpromises, decide_True by done. by rewrite (Hpending _ _ Hp).
  - intros q Hq. by rewrite Hpromises, decide_False.
  - intros between response' Hbetween Hid'. rewrite (onmessage_handle _ _ _ Hid').
    apply handle_response_unknown, absent_entry_kept; [done|].
    rewrite Hdeleted. apply lookup_delete_eq.
Qed.

(** *** A promise that has lost its entry *)

(** A pending promise that is stored under no id stays pending, whatever
    happens to the pool. *)
Lemma orphan_stays_pending more :
  ∀ pool p,
    promises pool !! p = Some Pending →
    (∀ requestId, pendingRequests pool !! requestId ≠ Some p) →
    promises (run pool more) !! p = Some Pending.
Proof.
  induction more as [|op more IH]; intros pool p Hpending Horphan; [done|].
  unfold run in *. cbn [foldl]. apply IH.
  - destruct (message_of op) as [message|] eqn:Hmessage.
    + destruct (step_call pool op message Hmessage) as [requestId ->].
      destruct (post_request_promise pool requestId message) as (_ & _ & new & ->).
      rewrite lookup_app_l; [done|]. by eapply lookup_lt_Some.
    + destruct op as [| |response|]; cbn in Hmessage; try done. cbn [step].
      destruct (requestId_of response) as [requestId|] eqn:Hid.
      2:{ destruct response; done. }
      rewrite (onmessage_handle _ _ _ Hid).
      destruct (pendingRequests pool !! requestId) as [p0|] eqn:Hp0.
      2:{ by rewrite handle_response_unknown. }
      destruct (handle_response_pending pool requestId (result_of response)
                  (error_of response) p0 Hp0) as [_ ->].
      rewrite decide_False; [done|]. intros ->. by eapply Horphan.
  - intros requestId.
    destruct (message_of op) as [message|] eqn:Hmessage.
    + destruct (step_call pool op message Hmessage) as [requestId0 ->].
      destruct (post_request_promise pool requestId0 message) as (_ & -> & _).
      intros [[_ Heq]|[_ Hold]]%lookup_insert_Some.
      * apply lookup_lt_Some in Hpending. lia.
      * by eapply Horphan.
    + destruct op as [| |response|]; cbn in Hmessage; try done. cbn [step].
      destruct (requestId_of response) as [requestId0|] eqn:Hid.
      2:{ destruct response; try done; apply Horphan. }
      rewrite (onmessage_handle _ _ _ Hid).
      destruct (pendingRequests pool !! requestId0) as [p0|] eqn:Hp0.
      2:{ rewrite handle_response_unknown by done. apply Horphan. }
      destruct (handle_response_pending pool requestId0 (result_of response)
                  (error_of response) p0 Hp0) as [-> _].
      intros [_ Hold]%lookup_delete_Some. by eapply Horphan.
Qed.

Lemma post_request_collision g count ops requestId p message more pool :
  0 < count → Forall keeps_workers ops →
  pool = run (createWorkerPool g (Some count)) ops →
  pendingRequests pool !! requestId = Some p →
  promises (run (post_request pool requestId message).1 more) !! p = Some Pending.
Proof.
  intros Hcount Hall -> Hp.
  destruct (pending_invariant g count ops Hcount Hall) as [Hpending Hinjective].
  generalize dependent (run (createWorkerPool g (Some count)) ops).
  intros pool Hp Hpending Hinjective.
  pose proof (Hpending _ _ Hp) as Hstate.
  destruct (post_request_promise pool requestId message) as (_ & Hmap & new & Hnew).
  apply orphan_stays_pending.
  - rewrite Hnew, lookup_app_l; [done|]. by eapply lookup_lt_Some.
  - intros requestId'. rewrite Hmap.
    intros [[_ Heq]|[Hne Hold]]%lookup_insert_Some.
    + apply lookup_lt_Some in Hstate. lia.
    + by apply Hne, (Hinjective _ _ p).
Qed.

(** X20. A request id that is generated twice.  In a pool that keeps its
    workers, when [compress] or [decompress] is given an id under which
    a request is still pending, the entry of that request is overwritten
    and its promise is never settled, whatever responses arrive and
    whatever is called afterwards. *)
Theorem request_id_collision g count ops requestId p more pool :
  0 < count → Forall keeps_workers ops →
  pool = run (createWorkerPool g (Some count)) ops →
  pendingRequests pool !! requestId = Some p →
  (∀ tokens config,
     promises (run (compress pool requestId tokens config).1 more) !! p = Some Pending) ∧
  (∀ tokens config,
     promises (run (decompress pool requestId tokens config).1 more) !! p = Some Pending).
Proof.
  intros Hcount Hall Hpool Hp. split; intros tokens config;
    by eapply post_request_collision.
Qed.

(** *** Pools without workers *)

(** X21. After [terminate], [size] is zero, and [compress] and [decompress]
    return a promise that is rejected with a [TypeError]; nothing is
    posted, and the request stays in [pendingRequests]. *)
Theorem request_after_terminate pool requestId :
  size (terminate pool) = 0 ∧
  (∀ tokens config,
     promises (compress (terminate pool) requestId tokens config).1
       !! (compress (terminate pool) requestId tokens config).2
       = Some (Rejected TypeError) ∧
     posted (compress (terminate pool) requestId tokens config).1 = posted pool ∧
     pendingRequests (compress (terminate pool) requestId tokens config).1 !! requestId
       = Some (compress (terminate pool) requestId tokens config).2) ∧
  (∀ tokens config,
     promises (decompress (terminate pool) requestId tokens config).1
       !! (decompress (terminate pool) requestId tokens config).2
       = Some (Rejected TypeError) ∧
     posted (decompress (terminate pool) requestId tokens config).1 = posted pool ∧
     pendingRequests (decompress (terminate pool) requestId tokens config).1 !! requestId
       = Some (decompress (terminate pool) requestId tokens config).2).
Proof.
  split; [done|].
  split; intros tokens config; unfold compress, decompress;
    match goal with
    | |- context [post_request ?pool0 ?id ?message] =>
        destruct (post_request_without_worker pool0 id message eq_refl)
          as (-> & _ & -> & -> & -> & _)
    end;
    (split; [by rewrite lookup_app_r, Nat.sub_diag|]);
    (split; [done|]); apply lookup_insert_eq.
Qed.

(** X22. A worker count of zero is kept as it is ([??] replaces [null] and
    [undefined] only): the pool has no worker, and every request is
    rejected with a [TypeError]. *)
Theorem pool_of_zero_workers g ops :
  Forall (λ op, is_Some (message_of op)) ops →
  size (run (createWorkerPool g (Some 0)) ops) = 0 ∧
  posted (run (createWorkerPool g (Some 0)) ops) = [] ∧
  promises (run (createWorkerPool g (Some 0)) ops)
    = replicate (length ops) (Rejected TypeError).
Proof.
  destruct (createWorkerPool_spec g 0) as (Hw & Hp & _ & _ & _ & Hpr).
  induction ops as [|op ops IH] using rev_ind; intros Hall.
  - cbn. unfold size. by rewrite Hw, Hp, Hpr.
  - apply Forall_app in Hall as [Hops Hop]. apply Forall_inv in Hop.
    destruct (IH Hops) as (Hsize & Hposted & Hpromises). clear IH.
    unfold run in *. rewrite foldl_app, length_app. cbn [foldl length].
    generalize dependent (foldl step (createWorkerPool g (Some 0)) ops).
    intros pool Hsize Hposted Hpromises.
    destruct Hop as [message Hmessage].
    destruct (step_call pool op message Hmessage) as [requestId ->].
    unfold size in *. apply nil_length_inv in Hsize.
    destruct (post_request_without_worker pool requestId message Hsize)
      as (_ & -> & -> & _ & -> & _).
    rewrite Hposted, Hpromises. split; [done|]. split; [done|].
    rewrite Nat.add_1_r. by rewrite replicate_S_end.
Qed.

(** *** From the call to the settled promise *)

Section Script.

Variable sdk_initWasm : js_result unit.
Variable sdk_compress : list N → option CompressionConfig
                        → js_result Compress.CompressionResult.
Variable sdk_decompress : list N → option DecompressionConfig → js_result (list N).
Variable String_ : string → string.

Abbreviation script := (worker_onmessage sdk_initWasm sdk_compress sdk_decompress String_).

(** A request is posted to a worker and stored; when the response of
    the worker's script arrives, the handler finds the request. *)
Lemma request_answered g count ops pool requestId message :
  0 < count → Forall keeps_workers ops →
  pool = run (createWorkerPool g (Some count)) ops →
  is_Some (requestId_of (script message)) →
  requestId_of (script message) = Some requestId →
  (∃ worker, worker < count ∧
     posted (post_request pool requestId message).1 = posted pool ++ [(worker, message)]) ∧
  promises (onmessage (post_request pool requestId message).1 (script message))
    !! (post_request pool requestId message).2
  = Some match error_of (script message) with
         | Some text =>
             if decide (text = EmptyString) then Fulfilled (result_of (script message))
             else Rejected (Error text)
         | None => Fulfilled (result_of (script message))
         end.
Proof.
  intros Hcount Hall -> _ Hid.
  destruct (dispatch_invariant g count ops Hcount Hall) as (Hw & Hn & _).
  generalize dependent (run (createWorkerPool g (Some count)) ops). intros pool Hw Hn.
  assert (Hlookup : workers pool !! (length (omap message_of ops) mod count)
                    = Some (length (omap message_of ops) mod count)).
  { rewrite Hw. apply lookup_seq_lt. by apply Nat.mod_upper_bound; lia. }
  destruct (post_request_with_worker pool requestId message _ _ Hn Hlookup)
    as (Hp & _ & _ & Hposted & Hpending & Hpromises & _).
  split.
  - eexists. split; [|exact Hposted]. apply Nat.mod_upper_bound. lia.
  - rewrite (onmessage_handle _ _ _ Hid).
    assert (Hstored : pendingRequests (post_request pool requestId message).1 !! requestId
                      = Some (post_request pool requestId message).2)
      by (rewrite Hpending, Hp; apply lookup_insert_eq).
    destruct (handle_response_pending _ requestId (result_of (script message))
                (error_of (script message)) _ Hstored) as [_ ->].
    rewrite decide_True by done.
    by rewrite Hpromises, Hp, lookup_app_r, Nat.sub_diag.
Qed.

(** The same when other operations come between the request and its
    response: the entry of the request is still there when the response
    arrives, provided that no call was given its id and no message
    carried it. *)
Lemma request_answered_later g count ops pool op requestId message between :
  0 < count → Forall keeps_workers ops →
  pool = run (createWorkerPool g (Some count)) ops →
  message_of op = Some message → call_id op = Some requestId →
  Forall (λ op, keeps_workers op ∧ call_id op ≠ Some requestId ∧
                message_id op ≠ Some requestId) between →
  requestId_of (script message) = Some requestId →
  promises (onmessage (run (step pool op) between) (script message))
    !! length (promises pool)
  = Some match error_of (script message) with
         | Some text =>
             if decide (text = EmptyString) then Fulfilled (result_of (script message))
             else Rejected (Error text)
         | None => Fulfilled (result_of (script message))
         end.
Proof.
  intros Hcount Hall -> Hmessage Hcall Hbetween Hid.
  assert (Hreached : run (step (run (createWorkerPool g (Some count)) ops) op) between
                     = run (createWorkerPool g (Some count)) (ops ++ [op] ++ between))
    by (unfold run; by rewrite !foldl_app).
  assert (Hkeeps : Forall keeps_workers (ops ++ [op] ++ between)).
  { apply Forall_app. split; [done|]. apply Forall_app. split.
    - apply Forall_singleton. by destruct op.
    - eapply Forall_impl; [exact Hbetween|]. by intros op' [Hop' _]. }
  destruct (pending_invariant g count _ Hcount Hkeeps) as [Hpending _].
  rewrite <- Hreached in Hpending. clear Hreached Hkeeps.
  assert (Hstored : pendingRequests
                      (run (step (run (createWorkerPool g (Some count)) ops) op) between)
                      !! requestId
                    = Some (length (promises (run (createWorkerPool g (Some count)) ops)))).
  { rewrite pending_entry_kept
      by (eapply Forall_impl; [exact Hbetween|]; by intros op' (_ & ? & ?)).
    destruct op as [id0 tokens config|id0 tokens config| |];
      cbn in Hmessage, Hcall; try done;
      injection Hcall as ->; injection Hmessage as <-; cbn [step].
    - unfold compress.
      destruct (post_request_promise (run (createWorkerPool g (Some count)) ops)
                  requestId (Request_compress requestId tokens config))
        as (_ & -> & _).
      apply lookup_insert_eq.
    - unfold decompress.
      destruct (post_request_promise (run (createWorkerPool g (Some count)) ops)
                  requestId (Request_decompress requestId tokens config))
        as (_ & -> & _).
      apply lookup_insert_eq. }
  rewrite (onmessage_handle _ _ _ Hid).
  destruct (handle_response_pending _ requestId (result_of (script message))
              (error_of (script message)) _ Hstored) as [_ ->].
  rewrite decide_True by done. by rewrite (Hpending _ _ Hstored).
Qed.

(** X23. A request of a pool settles as the SDK does in the worker.  In a
    pool that keeps its workers, whatever other requests and responses
    come between a [compress] or [decompress] request and the response
    of the worker's script to it, as long as the id of the request is
    not given to another call in between: once that response has
    arrived, the promise of the request is fulfilled with what the SDK
    returned in the worker; when the SDK threw there, it is rejected
    with an [Error] whose message is [String(error)], unless that string
    is empty, in which case it is fulfilled with [null]. *)
Theorem pool_request_settles_as_worker g count ops pool requestId between :
  0 < count → Forall keeps_workers ops →
  pool = run (createWorkerPool g (Some count)) ops →
  Forall (λ op, keeps_workers op ∧ call_id op ≠ Some requestId ∧
                message_id op ≠ Some requestId) between →
  (∀ tokens config,
     promises (onmessage (run (compress pool requestId tokens config).1 between)
                 (script (Request_compress requestId tokens config)))
       !! (compress pool requestId tokens config).2
     = Some match sdk_compress tokens config with
            | Returned result => Fulfilled (Some (Value_compression result))
            | Thrown error =>
                if decide (String_ error = EmptyString) then Fulfilled None
                else Rejected (Error (String_ error))
            end) ∧
  (∀ tokens config,
     promises (onmessage (run (decompress pool requestId tokens config).1 between)
                 (script (Request_decompress requestId tokens config)))
       !! (decompress pool requestId tokens config).2
     = Some match sdk_decompress tokens config with
            | Returned result => Fulfilled (Some (Value_tokens result))
            | Thrown error =>
                if decide (String_ error = EmptyString) then Fulfilled None
                else Rejected (Error (String_ error))
            end).
Proof.
  intros Hcount Hall Hpool Hbetween. split; intros tokens config.
  - change (compress pool requestId tokens config).1
      with (step pool (Call_compress requestId tokens config)).
    change (compress pool requestId tokens config).2
      with (post_request pool requestId (Request_compress requestId tokens config)).2.
    rewrite (proj1 (post_request_promise pool requestId
                      (Request_compress requestId tokens config))).
    rewrite (request_answered_later g count ops pool
               (Call_compress requestId tokens config) requestId
               (Request_compress requestId tokens config) between) by
      (done || (cbn; by destruct (sdk_compress tokens config))).
    cbn. by destruct (sdk_compress tokens config).
  - change (decompress pool requestId tokens config).1
      with (step pool (Call_decompress requestId tokens config)).
    change (decompress pool requestId tokens config).2
      with (post_request pool requestId (Request_decompress requestId tokens config)).2.
    rewrite (proj1 (post_request_promise pool requestId
                      (Request_decompress requestId tokens config))).
    rewrite (request_answered_later g count ops pool
               (Call_decompress requestId tokens config) requestId
               (Request_decompress requestId tokens config) between) by
      (done || (cbn; by destruct (sdk_decompress tokens config))).
    cbn. by destruct (sdk_decompress tokens config).
Qed.

(** X24. [compressInWorker] uses one worker and terminates it.  The function
    stays suspended until the response arrives; then it settles as the
    SDK did in the worker, and the pool is left without a worker, its one
    worker terminated, after exactly two messages to it: the
    initialization and the request. *)
Theorem compressInWorker_terminates g requestId tokens config :
  inWorker_resume (compressInWorker_start g requestId tokens config).1
    (compressInWorker_start g requestId tokens config).2 = None ∧
  ∃ pool',
    inWorker_resume
      (onmessage (compressInWorker_start g requestId tokens config).1
         (script (Request_compress requestId tokens config)))
      (compressInWorker_start g requestId tokens config).2
    = Some (pool',
            match sdk_compress tokens config with
            | Returned result => Fulfilled (Some (Value_compression result))
            | Thrown error =>
                if decide (String_ error = EmptyString) then Fulfilled None
                else Rejected (Error (String_ error))
            end) ∧
    size pool' = 0 ∧
    terminated pool' = [0] ∧
    posted pool' = [(0, Request_init); (0, Request_compress requestId tokens config)].
Proof.
  unfold compressInWorker_start, compress.
  set (message := Request_compress requestId tokens config).
  destruct (createWorkerPool_spec g 1) as (Hw & Hposted & _ & Hn & Hterm & Hpromises).
  destruct (post_request_with_worker (createWorkerPool g (Some 1)) requestId message 0 0 Hn)
    as (Hp & Hw1 & _ & Hposted1 & _ & Hpromises1 & Hterm1); [by rewrite Hw|].
  destruct (request_answered g 1 [] (createWorkerPool g (Some 1)) requestId message)
    as [_ Hsettled]; [lia|constructor|reflexivity|..].
  { subst message. cbn. destruct (sdk_compress tokens config); by eexists. }
  { subst message. cbn. by destruct (sdk_compress tokens config). }
  destruct (onmessage_fields (post_request (createWorkerPool g (Some 1)) requestId message).1
              (script message)) as (Hw2 & _ & Hposted2 & Hterm2 & _).
  rewrite Hp, Hpromises in *. cbn [length] in *.
  split.
  - unfold inWorker_resume. by rewrite Hpromises1.
  - exists (terminate (onmessage
                (post_request (createWorkerPool g (Some 1)) requestId message).1
                (script message))).
    split; [|split; [|split]].
    + unfold inWorker_resume. rewrite Hsettled. subst message.
      cbn [worker_onmessage].
      destruct (sdk_compress tokens config) as [result|error];
        cbn [error_of result_of fmap option_fmap option_map]; [reflexivity|].
      destruct (decide (String_ error = EmptyString)); reflexivity.
    + reflexivity.
    + unfold terminate. cbn [terminated].
      by rewrite Hterm2, Hterm1, Hterm, Hw2, Hw1, Hw.
    + unfold terminate. cbn [posted]. by rewrite Hposted2, Hposted1, Hposted.
Qed.

End Script.

(** *** The runtime, as the loader and the pools see it *)

Lemma createWorkerPool_kind g workerCount :
  kind (createWorkerPool g workerCount)
  = if Loader.has_process g && Loader.process_versions g && Loader.process_versions_node g
    then NodePool else BrowserPool.
Proof.
  unfold createWorkerPool, createNodeWorkerPool, createBrowserWorkerPool.
  destruct (_ && _ && _);
    match goal with
    | |- context [create_workers ?n ?i ?pool] =>
        destruct (create_workers_spec n i pool) as (_ & _ & -> & _)
    end; done.
Qed.

(** X25. Where [detectEnvironment] answers [node], [createWorkerPool] builds
    a Node pool; the converse fails exactly in a scope that has
    [process.versions.node] together with [Deno] or with
    [window.document]: there the loader fetches the binary as in a
    browser or in Deno while the pool uses [node:worker_threads]. *)
Theorem runtime_checks g workerCount :
  (Loader.detectEnvironment g = Loader.node →
   kind (createWorkerPool g workerCount) = NodePool) ∧
  (kind (createWorkerPool g workerCount) = NodePool ∧
   Loader.detectEnvironment g ≠ Loader.node
   ↔ Loader.has_process g && Loader.process_versions g
       && Loader.process_versions_node g = true ∧
     (Loader.has_Deno g = true ∨
      Loader.has_window g && Loader.has_window_document g = true)).
Proof.
  rewrite createWorkerPool_kind. unfold Loader.detectEnvironment.
  destruct (Loader.has_Deno g), (Loader.has_window g), (Loader.has_window_document g),
    (Loader.has_process g), (Loader.process_versions g), (Loader.process_versions_node g);
    cbn; intuition (discriminate || congruence).
Qed.

End WorkerExtras.

Lemma round_robin_dispatch_witness :
  Worker.posted
    (Worker.run (Worker.createWorkerPool Examples.node_globals (Some 2))
       [Worker.Call_compress "a" [1]%N None;
        Worker.Message (Worker.Response_init true None);
        Worker.Call_decompress "b" [2]%N None;
        Worker.Call_compress "c" [3]%N None])
  = [(0, Worker.Request_init); (1, Worker.Request_init);
     (0, Worker.Request_compress "a" [1]%N None);
     (1, Worker.Request_decompress "b" [2]%N None);
     (0, Worker.Request_compress "c" [3]%N None)].
Proof.
  rewrite (round_robin_dispatch Examples.node_globals 2); [reflexivity|lia|].
  repeat constructor.
Defined.

Lemma response_settles_its_request_witness :
  Worker.promises
    (Worker.onmessage
       (Worker.run (Worker.createWorkerPool Examples.node_globals (Some 2))
          [Worker.Call_compress "a" [1]%N None; Worker.Call_decompress "b" [2]%N None])
       (Worker.Response_decompress "b" None (Some "Error: MalformedStream")))
    !! 1
  = Some (Worker.Rejected (Worker.Error "Error: MalformedStream")) ∧
  Worker.onmessage
    (Worker.run
       (Worker.onmessage
          (Worker.run (Worker.createWorkerPool Examples.node_globals (Some 2))
             [Worker.Call_compress "a" [1]%N None; Worker.Call_decompress "b" [2]%N None])
          (Worker.Response_decompress "b" None (Some "Error: MalformedStream")))
       [Worker.Call_compress "c" [3]%N None;
        Worker.Message (Worker.Response_compress "a" None None)])
    (Worker.Response_decompress "b" None None)
  = Worker.run
      (Worker.onmessage
         (Worker.run (Worker.createWorkerPool Examples.node_globals (Some 2))
            [Worker.Call_compress "a" [1]%N None; Worker.Call_decompress "b" [2]%N None])
         (Worker.Response_decompress "b" None (Some "Error: MalformedStream")))
      [Worker.Call_compress "c" [3]%N None;
       Worker.Message (Worker.Response_compress "a" None None)].
Proof.
  destruct (response_settles_its_request Examples.node_globals 2
              [Worker.Call_compress "a" [1]%N None; Worker.Call_decompress "b" [2]%N None]
              (Worker.Response_decompress "b" None (Some "Error: MalformedStream")) "b" 1
              _ ltac:(lia) ltac:(repeat constructor) eq_refl eq_refl eq_refl)
    as (_ & Hsettled & _ & _ & Hlater).
  split; [exact Hsettled|].
  apply (Hlater [Worker.Call_compress "c" [3]%N None;
                 Worker.Message (Worker.Response_compress "a" None None)]);
    [|reflexivity].
  repeat first [cbn; discriminate | constructor].
Defined.

Lemma request_id_collision_witness :
  Worker.promises
    (Worker.run
       (Worker.compress
          (Worker.run (Worker.createWorkerPool Examples.node_globals (Some 2))
             [Worker.Call_compress "a" [1]%N None])
          "a" [2]%N None).1
       [Worker.Message (Worker.Response_compress "a" None (Some "Error: first"));
        Worker.Message (Worker.Response_compress "a" None (Some "Error: second"))])
    !! 0
  = Some Worker.Pending.
Proof.
  assert (Hpending :
    Worker.pendingRequests
      (Worker.run (Worker.createWorkerPool Examples.node_globals (Some 2))
         [Worker.Call_compress "a" [1]%N None]) !! "a" = Some 0)
    by (vm_compute; reflexivity).
  assert (Hcount : 0 < 2) by lia.
  assert (Hops : Forall Worker.keeps_workers [Worker.Call_compress "a" [1]%N None])
    by (repeat constructor).
  exact (proj1 (request_id_collision Examples.node_globals 2
                  [Worker.Call_compress "a" [1]%N None] "a" 0
                  [Worker.Message (Worker.Response_compress "a" None (Some "Error: first"));
                   Worker.Message (Worker.Response_compress "a" None (Some "Error: second"))]
                  _ Hcount Hops eq_refl Hpending) [2]%N None).
Defined.

Lemma pool_of_zero_workers_witness :
  Worker.promises
    (Worker.run (Worker.createWorkerPool Examples.node_globals (Some 0))
       [Worker.Call_compress "a" [1]%N None; Worker.Call_decompress "b" [2]%N None])
  = replicate 2 (Worker.Rejected Worker.TypeError).
Proof.
  apply (pool_of_zero_workers Examples.node_globals
           [Worker.Call_compress "a" [1]%N None; Worker.Call_decompress "b" [2]%N None]).
  repeat constructor; by eexists.
Defined.

Lemma pool_request_settles_as_worker_witness :
  Worker.promises
    (Worker.onmessage
       (Worker.run
          (Worker.decompress
             (Worker.run (Worker.createWorkerPool Examples.node_globals (Some 2))
                [Worker.Call_compress "a" [1]%N None])
             "b" [2]%N None).1
          [Worker.Call_compress "c" [3]%N None;
           Worker.Message (Worker.Response_compress "a" None (Some "Error: first"));
           Worker.Message (Worker.Response_compress "c" None None)])
       (Worker.worker_onmessage (Returned ()) Examples.worker_compress
          Examples.worker_decompress (String.append "Error: ")
          (Worker.Request_decompress "b" [2]%N None)))
    !! (Worker.decompress
          (Worker.run (Worker.createWorkerPool Examples.node_globals (Some 2))
             [Worker.Call_compress "a" [1]%N None])
          "b" [2]%N None).2
  = Some (Worker.Rejected (Worker.Error "Error: MalformedStream")).
Proof.
  assert (Hcount : 0 < 2) by lia.
  assert (Hops : Forall Worker.keeps_workers [Worker.Call_compress "a" [1]%N None])
    by (repeat constructor).
  assert (Hbetween :
    Forall (λ op, Worker.keeps_workers op ∧ Worker.call_id op ≠ Some "b" ∧
                  Worker.message_id op ≠ Some "b")
      [Worker.Call_compress "c" [3]%N None;
       Worker.Message (Worker.Response_compress "a" None (Some "Error: first"));
       Worker.Message (Worker.Response_compress "c" None None)])
    by (repeat first [cbn; discriminate | constructor]).
  exact (proj2 (pool_request_settles_as_worker (Returned ()) Examples.worker_compress
                  Examples.worker_decompress (String.append "Error: ")
                  Examples.node_globals 2 [Worker.Call_compress "a" [1]%N None] _ "b"
                  [Worker.Call_compress "c" [3]%N None;
                   Worker.Message (Worker.Response_compress "a" None (Some "Error: first"));
                   Worker.Message (Worker.Response_compress "c" None None)]
                  Hcount Hops eq_refl Hbetween) [2]%N None).
Defined.
(** * Round trip through [compress] and [decompress] *)

Section RoundTrip.

Variable plan : Core.Config → list N → list Core.Selected.
Variable discover : list N → N → N → list Wasm.DiscoveredPattern.
Variable loadStaticDictionary : string → js_result StaticDictionary.
Variables (startTime endTime : float).

(** [compress] over the engine: on both of its paths the engine
    compresses the normalized tokens once, under the merged
    configuration. *)
Lemma compress_core_exports tokens config :
  Compress.compress (Core.exports plan discover) loadStaticDictionary startTime endTime
    tokens config
  = match Compress.resolveStaticDictId loadStaticDictionary (mergeConfig config) with
    | Thrown e => Thrown e
    | Returned staticDictId =>
        match Core.compress plan (normalizeTokens tokens)
                (Core.resolve (Wasm.toWasmConfig (Wasm.as_partial (mergeConfig config))))
        with
        | Core.Fail e => Thrown (Core.error_message e)
        | Core.Ok r =>
            Returned (Compress.convertWasmResult (Core.to_wasm_result r) staticDictId
                        (endTime - startTime)%float)
        end
    end.
Proof.
  unfold Compress.compress.
  destruct (Compress.resolveStaticDictId _ _) as [staticDictId|e]; [|done].
  destruct (decide (_ < _)).
  - unfold Compress.compressStreaming. cbn [Core.exports Wasm.StreamingCompressor].
    destruct (compressStreaming_loop_content (Core.exports plan discover)
                Core.sc_tokens Core.sc_config (normalizeTokens tokens)
                ltac:(intros c chunk; by eexists) 0
                {| Core.sc_config :=
                     Wasm.toWasmConfig (Wasm.as_partial (mergeConfig config));
                   Core.sc_tokens := [] |})
      as (c & Hloop & Hcontent & Hconfig).
    cbn [Core.exports] in Hloop. rewrite Hloop.
    cbn [Core.exports Wasm.finish]. rewrite Hcontent, Hconfig. cbn [Core.sc_tokens Core.sc_config app].
    rewrite drop_0. by destruct (Core.compress _ _ _).
  - cbn [Core.exports Wasm.compress]. by destruct (Core.compress _ _ _).
Qed.

(** The engine's [decompress] reads three options of its configuration:
    the two control tokens and the first meta-token. *)
Lemma expand_list_ext (f g : N → Core.Expansion) ts :
  (∀ t, f t = g t) → Core.expand_list f ts = Core.expand_list g ts.
Proof.
  intros Hfg. unfold Core.expand_list.
  induction ts as [|t ts IH]; cbn; [done|]. by rewrite Hfg, IH.
Qed.

Lemma expand_token_config_ext cfg cfg' M fuel :
  Core.dict_start_token cfg = Core.dict_start_token cfg' →
  Core.next_meta_token cfg = Core.next_meta_token cfg' →
  ∀ visiting t,
    Core.expand_token fuel cfg M visiting t = Core.expand_token fuel cfg' M visiting t.
Proof.
  intros Hstart Hmeta. induction fuel as [|fuel IH]; intros visiting t; cbn;
    unfold Core.is_meta; rewrite Hstart, Hmeta; [done|].
  destruct (bool_decide _); [|done].
  destruct (decide _); [done|].
  destruct (M !! t); [|done].
  apply expand_list_ext. intros u. apply IH.
Qed.

Lemma decompress_config_ext W cfg cfg' :
  Core.dict_start_token cfg = Core.dict_start_token cfg' →
  Core.dict_end_token cfg = Core.dict_end_token cfg' →
  Core.next_meta_token cfg = Core.next_meta_token cfg' →
  Core.decompress W cfg = Core.decompress W cfg'.
Proof.
  intros Hstart Hend Hmeta. unfold Core.decompress. rewrite Hstart, Hend.
  destruct (indexOf W _); [|done].
  destruct (Core.parse_dictionary _ _ _ _) as [[M body_start]|e]; [|done].
  generalize (drop body_start W). intros body. revert body_start.
  induction body as [|t body IH]; intros offset; cbn [Core.expand_body]; [done|].
  rewrite (expand_token_config_ext cfg cfg' M _ Hstart Hmeta), IH. done.
Qed.

(** The control tokens that [decompress] reads from the configuration
    object are those that [compress] merges from it. *)
Lemma as_decompression_control_tokens config :
  dictStart_of (as_decompression <$> config) = dictStartToken (mergeConfig config) ∧
  dictEnd_of (as_decompression <$> config) = dictEndToken (mergeConfig config).
Proof. by destruct config as [c|]. Qed.


End RoundTrip.


(** * Determinism of [compress], directly and through a worker pool *)

Section Determinism.

(** The core is a parameter: the same functions answer every run, in the
    page and in the worker, so that what is shown is what the SDK adds
    around the core: the clock readings, the request ids, the order of
    the messages and the promises of the pool. *)
Context {SC : Type} (wasm : Wasm.WasmExports SC).
Variable loadStaticDictionary : string → js_result StaticDictionary.

(** The rest of the SDK as the worker's script sees it. *)
Variable sdk_initWasm : js_result ().
Variable sdk_decompress : TokenInput → option DecompressionConfig → js_result TokenInput.
Variable String_ : string → string.

(** Two runs of [compress] that read other values from the clock give
    results that differ in [metrics] at most. *)
Lemma compress_clock_independent startTime endTime startTime' endTime' tokens config result :
  Compress.compress wasm loadStaticDictionary startTime endTime tokens config
    = Returned result →
  ∃ result',
    Compress.compress wasm loadStaticDictionary startTime' endTime' tokens config
      = Returned result' ∧
    Compress.serializedTokens result' = Compress.serializedTokens result ∧
    Compress.dictionaryTokens result' = Compress.dictionaryTokens result ∧
    Compress.bodyTokens result' = Compress.bodyTokens result ∧
    Compress.originalTokens result' = Compress.originalTokens result ∧
    Compress.originalLength result' = Compress.originalLength result ∧
    Compress.compressedLength result' = Compress.compressedLength result ∧
    Compress.compressionRatio result' = Compress.compressionRatio result ∧
    Compress.dictionaryMap result' = Compress.dictionaryMap result ∧
    Compress.staticDictionaryId result' = Compress.staticDictionaryId result.
Proof.
  unfold Compress.compress, Compress.compressStreaming.
  destruct (Compress.resolveStaticDictId _ _) as [staticDictId|e]; [|done].
  destruct (decide _).
  - destruct (Wasm.StreamingCompressor _ _) as [compressor|e]; [|done].
    destruct (Compress.compressStreaming_loop _ _ _ _) as [compressor' [[]|e]]; [|done].
    destruct (Wasm.finish _ _) as [compressor'' [wasmResult|e]]; [|done].
    intros [= <-]. eexists. split; [done|]. cbn. done.
  - destruct (Wasm.compress _ _ _) as [wasmResult|e]; [|done].
    intros [= <-]. eexists. split; [done|]. cbn. done.
Qed.

(** A run that throws does so whatever the clock says. *)
Lemma compress_clock_independent_thrown startTime endTime startTime' endTime' tokens config e :
  Compress.compress wasm loadStaticDictionary startTime endTime tokens config = Thrown e →
  Compress.compress wasm loadStaticDictionary startTime' endTime' tokens config = Thrown e.
Proof.
  unfold Compress.compress, Compress.compressStreaming.
  destruct (Compress.resolveStaticDictId _ _) as [staticDictId|e0]; [|done].
  destruct (decide _).
  - destruct (Wasm.StreamingCompressor _ _) as [compressor|e0]; [|done].
    destruct (Compress.compressStreaming_loop _ _ _ _) as [compressor' [[]|e0]]; [|done].
    by destruct (Wasm.finish _ _) as [compressor'' [wasmResult|e0]].
  - by destruct (Wasm.compress _ _ _) as [wasmResult|e0].
Qed.


End Determinism.

